(** * Orbital: the physics engine of the 2D gravitational sandbox

    A shallow embedding of [js/Body.js] and [js/Physics.js]: the body and
    star records, the force accumulator [_computeAccelerations], the
    velocity-Verlet integrator [step], the collision resolver
    [_handleCollisions] with its fragmentation helper [_explode], and the
    query [circularOrbitVelocity].

    Numbers.  JavaScript numbers are modelled as real numbers ([R]): the
    arithmetic of the source is read as exact arithmetic, which is the
    reading under which the specification's conservation laws are meant
    ("within floating-point tolerance").  [Math.sqrt] is the real square
    root, [Math.cbrt] the real cube root, [Math.round] is [floor (v + 1/2)],
    [Math.cos], [Math.sin] and [Math.PI] are the real ones.  [Math.random]
    is a sequence [rnd : nat -> R] of draws, consumed in order through a
    counter that is threaded through the code that draws.  Rounding,
    overflow and the non-finite values (NaN, the infinities) of JavaScript
    numbers are outside this model.

    Objects.  The bodies array is a list of records that is read and updated
    by index; every body owns its position, velocity and acceleration
    objects and the trail entries are fresh objects, so no two slots alias. *)

From Stdlib Require Import Reals Lra Lia ZArith String.
From stdpp Require Import base list.

Open Scope R_scope.

(** ** Constants of [Physics.js] *)

Definition G : R := 2.
Definition SOFTENING : R := 5.
Definition SOFTENING_SQ : R := SOFTENING * SOFTENING.
Definition SUBSTEPS : nat := 4.
Definition ESCAPE_RADIUS : R := 5000.
Definition TRAIL_MAX_LENGTH : nat := 300.

(** ** Data model of [Body.js] *)

Record Position := { x : R; y : R }.
Record Velocity := { vx : R; vy : R }.
Record Acceleration := { ax : R; ay : R }.

Inductive BodyType := planet | star_like.

Record CelestialBody := {
  id : nat;
  position : Position;
  velocity : Velocity;
  mass : R;
  radius : R;
  color : string;
  type : BodyType;
  trail : list Position;
  acceleration : Acceleration;
  escaped : bool;
  merged : bool
}.

Record Star := {
  star_position : Position;
  star_mass : R;
  star_radius : R;
  star_color : string
}.

(** The descriptor pushed by [_explode]. *)
Record Fragment := {
  frag_x : R;
  frag_y : R;
  frag_vx : R;
  frag_vy : R;
  frag_mass : R;
  frag_radius : R;
  frag_color : string;
  frag_type : BodyType
}.

Record Options := { explosions : bool }.

(** Field assignments [b.f = v]. *)

Definition with_position (b : CelestialBody) (p : Position) : CelestialBody :=
  {| id := id b; position := p; velocity := velocity b; mass := mass b;
     radius := radius b; color := color b; type := type b; trail := trail b;
     acceleration := acceleration b; escaped := escaped b; merged := merged b |}.

Definition with_velocity (b : CelestialBody) (v : Velocity) : CelestialBody :=
  {| id := id b; position := position b; velocity := v; mass := mass b;
     radius := radius b; color := color b; type := type b; trail := trail b;
     acceleration := acceleration b; escaped := escaped b; merged := merged b |}.

Definition with_mass (b : CelestialBody) (m : R) : CelestialBody :=
  {| id := id b; position := position b; velocity := velocity b; mass := m;
     radius := radius b; color := color b; type := type b; trail := trail b;
     acceleration := acceleration b; escaped := escaped b; merged := merged b |}.

Definition with_radius (b : CelestialBody) (r : R) : CelestialBody :=
  {| id := id b; position := position b; velocity := velocity b; mass := mass b;
     radius := r; color := color b; type := type b; trail := trail b;
     acceleration := acceleration b; escaped := escaped b; merged := merged b |}.

Definition with_trail (b : CelestialBody) (t : list Position) : CelestialBody :=
  {| id := id b; position := position b; velocity := velocity b; mass := mass b;
     radius := radius b; color := color b; type := type b; trail := t;
     acceleration := acceleration b; escaped := escaped b; merged := merged b |}.

Definition with_acceleration (b : CelestialBody) (a : Acceleration) : CelestialBody :=
  {| id := id b; position := position b; velocity := velocity b; mass := mass b;
     radius := radius b; color := color b; type := type b; trail := trail b;
     acceleration := a; escaped := escaped b; merged := merged b |}.

Definition with_merged (b : CelestialBody) (m : bool) : CelestialBody :=
  {| id := id b; position := position b; velocity := velocity b; mass := mass b;
     radius := radius b; color := color b; type := type b; trail := trail b;
     acceleration := acceleration b; escaped := escaped b; merged := m |}.

(** ** Numeric built-ins *)

(** [Math.round]: the nearest integer, halves rounded up. *)
Definition round (v : R) : Z := Zfloor (v + 0.5).

(** [Math.cbrt]: the real cube root, odd in its argument. *)
Definition cbrt (v : R) : R :=
  if Rlt_dec 0 v then exp (ln v / 3)
  else if Rlt_dec v 0 then - exp (ln (- v) / 3)
  else 0.

(** ** [_computeAccelerations] *)

(** First loop: [b.acceleration.ax = 0; b.acceleration.ay = 0]. *)
Definition reset_acceleration (b : CelestialBody) : CelestialBody :=
  with_acceleration b {| ax := 0; ay := 0 |}.

(** Body of the star loop. *)
Definition star_pull (s : Star) (b : CelestialBody) : CelestialBody :=
  let dx := x (star_position s) - x (position b) in
  let dy := y (star_position s) - y (position b) in
  let distSq := dx * dx + dy * dy + SOFTENING_SQ in
  let dist := sqrt distSq in
  let forceMag := G * star_mass s / distSq in
  with_acceleration b
    {| ax := ax (acceleration b) + forceMag * dx / dist;
       ay := ay (acceleration b) + forceMag * dy / dist |}.

(** Body of the pairwise loop, for the slots [i] and [j]. *)
Definition pair_pull (i j : nat) (bodies : list CelestialBody) : list CelestialBody :=
  match bodies !! i, bodies !! j with
  | Some a, Some b =>
      let dx := x (position b) - x (position a) in
      let dy := y (position b) - y (position a) in
      let distSq := dx * dx + dy * dy + SOFTENING_SQ in
      let dist := sqrt distSq in
      let forceMag := G / distSq in
      let ax_ := forceMag * dx / dist in
      let ay_ := forceMag * dy / dist in
      let a' := with_acceleration a
                  {| ax := ax (acceleration a) + mass b * ax_;
                     ay := ay (acceleration a) + mass b * ay_ |} in
      let b' := with_acceleration b
                  {| ax := ax (acceleration b) - mass a * ax_;
                     ay := ay (acceleration b) - mass a * ay_ |} in
      <[j := b']> (<[i := a']> bodies)
  | _, _ => bodies
  end.

(** [for (let j = i + 1; j < bodies.length; j++)]. *)
Definition pull_row (i : nat) (bodies : list CelestialBody) : list CelestialBody :=
  fold_left (fun bs j => pair_pull i j bs)
            (seq (S i) (length bodies - S i)) bodies.

Definition _computeAccelerations (bodies : list CelestialBody) (star : option Star)
  : list CelestialBody :=
  let bodies := reset_acceleration <$> bodies in
  let bodies := match star with
                | Some s => star_pull s <$> bodies
                | None => bodies
                end in
  fold_left (fun bs i => pull_row i bs) (seq 0 (length bodies)) bodies.

(** ** [_explode] *)

Definition fragment_count (a b : CelestialBody) : Z :=
  Z.max 3 (Z.min 8 (round ((radius a + radius b) / 3))).

(** The fragments array and the number of draws taken from [Math.random]
    so far are threaded through. *)
Definition _explode (rnd : nat -> R) (a b : CelestialBody)
    (fragments : list Fragment) (drawn : nat) : list Fragment * nat :=
  let totalMass := mass a + mass b in
  let cx := (x (position a) * mass a + x (position b) * mass b) / totalMass in
  let cy := (y (position a) * mass a + y (position b) * mass b) / totalMass in
  let cvx := (vx (velocity a) * mass a + vx (velocity b) * mass b) / totalMass in
  let cvy := (vy (velocity a) * mass a + vy (velocity b) * mass b) / totalMass in
  let relVx := vx (velocity a) - vx (velocity b) in
  let relVy := vy (velocity a) - vy (velocity b) in
  let kickSpeed := Rmax 8 (sqrt (relVx * relVx + relVy * relVy) * 0.45) in
  let N := fragment_count a b in
  let fragRadius := Rmax 2 (cbrt ((radius a ^ 3 + radius b ^ 3) / IZR N)) in
  let fragMass := Rmax 1 (IZR (round (totalMass / IZR N))) in
  let color := if Rge_dec (mass a) (mass b) then color a else color b in
  let spawnR := fragRadius * 2 + 3 in
  fold_left
    (fun (st : list Fragment * nat) (i : nat) =>
       let angle := (INR i / IZR N) * 2 * PI
                    + (rnd (snd st) - 0.5) * (PI / IZR N) in
       let kick := kickSpeed * (0.7 + rnd (S (snd st)) * 0.6) in
       (fst st ++ [ {| frag_x := cx + cos angle * spawnR;
                       frag_y := cy + sin angle * spawnR;
                       frag_vx := cvx + cos angle * kick;
                       frag_vy := cvy + sin angle * kick;
                       frag_mass := fragMass;
                       frag_radius := fragRadius;
                       frag_color := color;
                       frag_type := planet |} ],
        S (S (snd st))))
    (seq 0 (Z.to_nat N)) (fragments, drawn).

(** ** [_handleCollisions] *)

(** The state of a resolution pass: the bodies array, the [fragments]
    argument ([null] under the merge policy) and the draws taken. *)
Record Pass := {
  pass_bodies : list CelestialBody;
  pass_fragments : option (list Fragment);
  pass_drawn : nat
}.

(** Body of the star loop. *)
Definition absorb (s : Star) (b : CelestialBody) : CelestialBody :=
  let dx := x (position b) - x (star_position s) in
  let dy := y (position b) - y (star_position s) in
  let dist := sqrt (dx * dx + dy * dy) in
  if Rlt_dec dist (star_radius s + radius b * 0.5) then with_merged b true else b.

(** The merge branch: the assignments to [a], in source order. *)
Definition merge_into (a bdy : CelestialBody) : CelestialBody :=
  let totalMass := mass a + mass bdy in
  let a := with_position a
             {| x := (x (position a) * mass a + x (position bdy) * mass bdy) / totalMass;
                y := y (position a) |} in
  let a := with_position a
             {| x := x (position a);
                y := (y (position a) * mass a + y (position bdy) * mass bdy) / totalMass |} in
  let a := with_velocity a
             {| vx := (vx (velocity a) * mass a + vx (velocity bdy) * mass bdy) / totalMass;
                vy := vy (velocity a) |} in
  let a := with_velocity a
             {| vx := vx (velocity a);
                vy := (vy (velocity a) * mass a + vy (velocity bdy) * mass bdy) / totalMass |} in
  let a := with_radius a (cbrt (radius a ^ 3 + radius bdy ^ 3)) in
  with_mass a totalMass.

(** Body of the inner loop, for the slots [i] and [j]. *)
Definition collide (rnd : nat -> R) (i j : nat) (st : Pass) : Pass :=
  match pass_bodies st !! i, pass_bodies st !! j with
  | Some a, Some bdy =>
      if merged bdy then st
      else
        let dx := x (position bdy) - x (position a) in
        let dy := y (position bdy) - y (position a) in
        let dist := sqrt (dx * dx + dy * dy) in
        if Rlt_dec dist (radius a + radius bdy) then
          match pass_fragments st with
          | Some fragments =>
              let r := _explode rnd a bdy fragments (pass_drawn st) in
              {| pass_bodies := <[j := with_merged bdy true]>
                                  (<[i := with_merged a true]> (pass_bodies st));
                 pass_fragments := Some (fst r);
                 pass_drawn := snd r |}
          | None =>
              {| pass_bodies := <[j := with_merged bdy true]>
                                  (<[i := merge_into a bdy]> (pass_bodies st));
                 pass_fragments := None;
                 pass_drawn := pass_drawn st |}
          end
        else st
  | _, _ => st
  end.

(** One iteration of the outer loop. *)
Definition collide_row (rnd : nat -> R) (i : nat) (st : Pass) : Pass :=
  match pass_bodies st !! i with
  | Some a =>
      if merged a then st
      else fold_left (fun st j => collide rnd i j st)
                     (seq (S i) (length (pass_bodies st) - S i)) st
  | None => st
  end.

Definition _handleCollisions (rnd : nat -> R) (bodies : list CelestialBody)
    (star : option Star) (fragments : option (list Fragment)) (drawn : nat) : Pass :=
  let bodies := match star with
                | Some s => absorb s <$> bodies
                | None => bodies
                end in
  fold_left (fun st i => collide_row rnd i st) (seq 0 (length bodies))
            {| pass_bodies := bodies; pass_fragments := fragments; pass_drawn := drawn |}.

(** ** [step] *)

(** What a call to [step] leaves behind: the mutated bodies, the
    [fragments] array it returns, and the draws taken. *)
Record World := {
  bodies : list CelestialBody;
  fragments : list Fragment;
  drawn : nat
}.

(** First loop of a substep: half-kick, then drift, body by body. *)
Definition kick_drift (dt : R) (b : CelestialBody) : CelestialBody :=
  let b := with_velocity b
             {| vx := vx (velocity b) + 0.5 * ax (acceleration b) * dt;
                vy := vy (velocity b) |} in
  let b := with_velocity b
             {| vx := vx (velocity b);
                vy := vy (velocity b) + 0.5 * ay (acceleration b) * dt |} in
  let b := with_position b
             {| x := x (position b) + vx (velocity b) * dt;
                y := y (position b) |} in
  with_position b
    {| x := x (position b);
       y := y (position b) + vy (velocity b) * dt |}.

(** Second loop: the second half-kick. *)
Definition kick (dt : R) (b : CelestialBody) : CelestialBody :=
  let b := with_velocity b
             {| vx := vx (velocity b) + 0.5 * ax (acceleration b) * dt;
                vy := vy (velocity b) |} in
  with_velocity b
    {| vx := vx (velocity b);
       vy := vy (velocity b) + 0.5 * ay (acceleration b) * dt |}.

(** Third loop: [b.trail.push(...)], then [b.trail.shift()] over the cap. *)
Definition record_trail (b : CelestialBody) : CelestialBody :=
  let t := trail b ++ [ {| x := x (position b); y := y (position b) |} ] in
  with_trail b (if (TRAIL_MAX_LENGTH <? length t)%nat then tail t else t).

(** One iteration of the substep loop. *)
Definition substep (rnd : nat -> R) (star : option Star) (dt : R)
    (options : Options) (w : World) : World :=
  let bs := _computeAccelerations (bodies w) star in
  let bs := kick_drift dt <$> bs in
  let bs := _computeAccelerations bs star in
  let bs := kick dt <$> bs in
  let bs := record_trail <$> bs in
  let p := _handleCollisions rnd bs star
             (if explosions options then Some (fragments w) else None) (drawn w) in
  {| bodies := pass_bodies p;
     fragments := match pass_fragments p with
                  | Some fr => fr
                  | None => fragments w
                  end;
     drawn := pass_drawn p |}.

Definition step (rnd : nat -> R) (bodies0 : list CelestialBody) (star : option Star)
    (frameTimeSec : R) (options : Options) (drawn0 : nat) : World :=
  let dt := frameTimeSec / INR SUBSTEPS in
  fold_left (fun w (_ : nat) => substep rnd star dt options w)
            (seq 0 SUBSTEPS)
            {| bodies := bodies0; fragments := []; drawn := drawn0 |}.

(** ** [circularOrbitVelocity] *)

Definition circularOrbitVelocity (px py : R) (starPos : Position) (starMass : R) : R :=
  let dx := px - x starPos in
  let dy := py - y starPos in
  let r := sqrt (dx * dx + dy * dy) in
  if Rlt_dec r 1 then 0 else sqrt (G * starMass / r).

(** ** The constructors of [Body.js] *)

(** The argument of [new CelestialBody({...})]: [x] and [y] are required,
    the other fields fall back on their defaults when absent. *)
Record BodyInit := {
  init_x : R;
  init_y : R;
  init_vx : option R;
  init_vy : option R;
  init_mass : option R;
  init_radius : option R;
  init_color : option string;
  init_type : option BodyType
}.

(** [new CelestialBody(o)]: the module counter [_nextId] (initially 1) is
    threaded through. *)
Definition CelestialBody_new (_nextId : nat) (o : BodyInit) : CelestialBody * nat :=
  ({| id := _nextId;
      position := {| x := init_x o; y := init_y o |};
      velocity := {| vx := default 0 (init_vx o); vy := default 0 (init_vy o) |};
      mass := default 100 (init_mass o);
      radius := default 8 (init_radius o);
      color := default "#4fc3f7"%string (init_color o);
      type := default planet (init_type o);
      trail := [];
      acceleration := {| ax := 0; ay := 0 |};
      escaped := false;
      merged := false |},
   S _nextId).

Definition Star_new (px py : R) : Star :=
  {| star_position := {| x := px; y := py |};
     star_mass := 1000000;
     star_radius := 30;
     star_color := "#fff7aa" |}.

Definition with_escaped (b : CelestialBody) (e : bool) : CelestialBody :=
  {| id := id b; position := position b; velocity := velocity b; mass := mass b;
     radius := radius b; color := color b; type := type b; trail := trail b;
     acceleration := acceleration b; escaped := e; merged := merged b |}.

(** ** [Game.js]: spawning, removing, and the physics stages of [_loop] *)

Inductive Mode := star_mode | freeform_mode.

(** The fields of [this._ui.config] that [Game.js] reads. *)
Record Config := {
  cfg_radius : R;
  cfg_mass : R;
  cfg_newBodyColor : string;
  cfg_type : BodyType;
  cfg_starMass : R
}.

(** A placement intent, as queued by [Input._commit]. *)
Record Intent := {
  intent_x : R;
  intent_y : R;
  intent_vx : R;
  intent_vy : R
}.

(** The state of a [Game] that the modelled methods touch, with the module
    counter [_nextId] of [Body.js] and the canvas size. *)
Record Game := {
  game_bodies : list CelestialBody;
  game_paused : bool;
  game_mode : Mode;
  game_star : Star;
  game_nextId : nat;
  canvas_width : R;
  canvas_height : R
}.

Definition with_game_bodies (g : Game) (bs : list CelestialBody) : Game :=
  {| game_bodies := bs; game_paused := game_paused g; game_mode := game_mode g;
     game_star := game_star g; game_nextId := game_nextId g;
     canvas_width := canvas_width g; canvas_height := canvas_height g |}.

(** [_spawnBody(intent)]. *)
Definition _spawnBody (cfg : Config) (g : Game) (intent : Intent) : Game :=
  let inside_star :=
    match game_mode g with
    | star_mode =>
        let dx := intent_x intent - x (star_position (game_star g)) in
        let dy := intent_y intent - y (star_position (game_star g)) in
        if Rlt_dec (sqrt (dx * dx + dy * dy)) (star_radius (game_star g) + cfg_radius cfg)
        then true else false
    | freeform_mode => false
    end in
  if inside_star then g
  else
    let r := CelestialBody_new (game_nextId g)
               {| init_x := intent_x intent; init_y := intent_y intent;
                  init_vx := Some (intent_vx intent); init_vy := Some (intent_vy intent);
                  init_mass := Some (cfg_mass cfg); init_radius := Some (cfg_radius cfg);
                  init_color := Some (cfg_newBodyColor cfg);
                  init_type := Some (cfg_type cfg) |} in
    {| game_bodies := game_bodies g ++ [fst r]; game_paused := game_paused g;
       game_mode := game_mode g; game_star := game_star g; game_nextId := snd r;
       canvas_width := canvas_width g; canvas_height := canvas_height g |}.

(** [_removeBody(id)] (the body list of the side panel is not modelled). *)
Definition _removeBody (g : Game) (i : nat) : Game :=
  with_game_bodies g (filter (fun b => id b <> i) (game_bodies g)).

(** [reset()]. *)
Definition reset (g : Game) : Game := with_game_bodies g [].

(** Stage 3 of [_loop]: the body of the escape-detection loop. *)
Definition flag_escaped (ecx ecy : R) (b : CelestialBody) : CelestialBody :=
  let dx := x (position b) - ecx in
  let dy := y (position b) - ecy in
  if Rgt_dec (dx * dx + dy * dy) (ESCAPE_RADIUS * ESCAPE_RADIUS)
  then with_escaped b true else b.

(** Stage 4 of [_loop]: [bodies.filter(b => !b.escaped && !b.merged)]. *)
Definition prune (bs : list CelestialBody) : list CelestialBody :=
  filter (fun b => negb (escaped b) && negb (merged b) = true) bs.

(** Stages 2 to 4 of [_loop]: the star's mass follows the slider, the
    physics step runs when the game is not paused and [dt > 0] (called
    without options, hence under the merge policy), escapes are flagged and
    flagged bodies are pruned. *)
Definition physics_stages (rnd : nat -> R) (cfg : Config) (dt : R) (g : Game) : Game :=
  let star := {| star_position := star_position (game_star g);
                 star_mass := match game_mode g with
                              | star_mode => cfg_starMass cfg
                              | freeform_mode => star_mass (game_star g)
                              end;
                 star_radius := star_radius (game_star g);
                 star_color := star_color (game_star g) |} in
  let activeStar := match game_mode g with
                    | star_mode => Some star
                    | freeform_mode => None
                    end in
  let bs := if negb (game_paused g) && (if Rgt_dec dt 0 then true else false)
            then bodies (step rnd (game_bodies g) activeStar dt {| explosions := false |} 0)
            else game_bodies g in
  let ecx := match activeStar with
             | Some s => x (star_position s)
             | None => canvas_width g / 2
             end in
  let ecy := match activeStar with
             | Some s => y (star_position s)
             | None => canvas_height g / 2
             end in
  let bs := flag_escaped ecx ecy <$> bs in
  {| game_bodies := prune bs; game_paused := game_paused g; game_mode := game_mode g;
     game_star := star; game_nextId := game_nextId g;
     canvas_width := canvas_width g; canvas_height := canvas_height g |}.

(** ** [Input.js]: the placement state machine *)

Inductive PlacementPhase := idle | dragging.

Record Placement := {
  phase : PlacementPhase;
  anchorX : R;
  anchorY : R;
  tipX : R;
  tipY : R
}.

Record Input := {
  placement : Placement;
  _intents : list Intent
}.

(** A mouse event and the canvas rectangle [_canvasPos] reads. *)
Record MouseEvent := { clientX : R; clientY : R }.
Record Rect := { rect_left : R; rect_top : R }.

Definition _canvasPos (rect : Rect) (e : MouseEvent) : R * R :=
  (clientX e - rect_left rect, clientY e - rect_top rect).

Definition idle_placement : Placement :=
  {| phase := idle; anchorX := 0; anchorY := 0; tipX := 0; tipY := 0 |}.

Definition _commit (inp : Input) : Input :=
  let p := placement inp in
  {| placement := idle_placement;
     _intents := _intents inp
                 ++ [ {| intent_x := anchorX p;
                         intent_y := anchorY p;
                         intent_vx := (tipX p - anchorX p) * 1.5;
                         intent_vy := (tipY p - anchorY p) * 1.5 |} ] |}.

Definition with_tip (inp : Input) (tx ty : R) : Input :=
  {| placement := {| phase := phase (placement inp);
                     anchorX := anchorX (placement inp);
                     anchorY := anchorY (placement inp);
                     tipX := tx; tipY := ty |};
     _intents := _intents inp |}.

Definition _onDown (rect : Rect) (inp : Input) (e : MouseEvent) : Input :=
  let pos := _canvasPos rect e in
  {| placement := {| phase := dragging; anchorX := fst pos; anchorY := snd pos;
                     tipX := fst pos; tipY := snd pos |};
     _intents := _intents inp |}.

Definition _onMove (rect : Rect) (inp : Input) (e : MouseEvent) : Input :=
  match phase (placement inp) with
  | dragging => let pos := _canvasPos rect e in with_tip inp (fst pos) (snd pos)
  | idle => inp
  end.

Definition _onUp (rect : Rect) (inp : Input) (e : MouseEvent) : Input :=
  match phase (placement inp) with
  | dragging => let pos := _canvasPos rect e in _commit (with_tip inp (fst pos) (snd pos))
  | idle => inp
  end.

Definition _onLeave (inp : Input) : Input :=
  match phase (placement inp) with
  | dragging => _commit inp
  | idle => inp
  end.

(** [flush()]: the pending intents, and the input with none pending. *)
Definition flush (inp : Input) : list Intent * Input :=
  (_intents inp, {| placement := placement inp; _intents := [] |}).

(** ** [Presets.js]: circular-orbit velocities *)

Definition vc (r M : R) : R := sqrt (2 * M / r).

Definition vel (r theta M : R) : Velocity :=
  let v := vc r M in
  {| vx := - sin theta * v; vy := cos theta * v |}.

(** A preset body: an offset from the reference point, a velocity, a look. *)
Record PresetBody := {
  preset_dx : R;
  preset_dy : R;
  preset_vx : R;
  preset_vy : R;
  preset_radius : R;
  preset_color : string;
  preset_type : BodyType
}.

(** The helper [make] of the [trojans] preset, with [M = 1e6]. *)
Definition make (theta r rad : R) (col : string) : PresetBody :=
  {| preset_dx := r * cos theta;
     preset_dy := r * sin theta;
     preset_vx := vx (vel r theta 1000000);
     preset_vy := vy (vel r theta 1000000);
     preset_radius := rad;
     preset_color := col;
     preset_type := planet |}.

(** ** The side panel: radius to mass, and the star-mass slider *)

Definition DENSITY : R := 100 / 8 ^ 3.

Definition _radiusToMass (r : R) : R := Rmax 1 (IZR (round (DENSITY * r ^ 3))).

(** [10 ** e] and [Math.log10]. *)
Definition pow10 (e : R) : R := exp (e * ln 10).
Definition log10 (v : R) : R := ln v / ln 10.

Definition _sliderToStarMass (v : R) : R := IZR (round (pow10 (4 + v / 100 * 3))).

(** The value [setStarMass(mass)] assigns to the star-mass slider. *)
Definition setStarMass (m : R) : Z :=
  let v := (log10 m - 4) * 100 / 3 in
  round (Rmax 0 (Rmin 100 v)).

(** ** The camera: the later [Game.js] and [Input.js] *)

(** [this.camera]; a world point [w] is drawn at [w * zoom + pan]. *)
Record Camera := { panX : R; panY : R; zoom : R }.

(** [_screenToWorld(sx, sy)]. *)
Definition _screenToWorld (camera : Camera) (sx sy : R) : R * R :=
  ((sx - panX camera) / zoom camera, (sy - panY camera) / zoom camera).

(** The later [Input.js]: placement, click intents, wheel zoom and
    right-button pan.  The touch handlers are not modelled. *)
Module CameraInput.

(** The fields of a mouse or wheel event that the handlers read. *)
Record Event := { clientX : R; clientY : R; button : Z; deltaY : R }.

Record Click := { click_x : R; click_y : R }.

Record Input := {
  placement : Placement;
  _intents : list Intent;
  _clickIntents : list Click;
  _camera : Camera;
  _isPanning : bool;
  _panStartX : R;
  _panStartY : R
}.

Definition _canvasPos (rect : Rect) (e : Event) : R * R :=
  (clientX e - rect_left rect, clientY e - rect_top rect).

Definition with_placement (inp : Input) (p : Placement) : Input :=
  {| placement := p; _intents := _intents inp; _clickIntents := _clickIntents inp;
     _camera := _camera inp; _isPanning := _isPanning inp;
     _panStartX := _panStartX inp; _panStartY := _panStartY inp |}.

Definition with_isPanning (inp : Input) (v : bool) : Input :=
  {| placement := placement inp; _intents := _intents inp;
     _clickIntents := _clickIntents inp; _camera := _camera inp; _isPanning := v;
     _panStartX := _panStartX inp; _panStartY := _panStartY inp |}.

Definition with_tip (inp : Input) (tx ty : R) : Input :=
  with_placement inp {| phase := phase (placement inp);
                        anchorX := anchorX (placement inp);
                        anchorY := anchorY (placement inp);
                        tipX := tx; tipY := ty |}.

Definition flush (inp : Input) : list Intent * Input :=
  (_intents inp,
   {| placement := placement inp; _intents := []; _clickIntents := _clickIntents inp;
      _camera := _camera inp; _isPanning := _isPanning inp;
      _panStartX := _panStartX inp; _panStartY := _panStartY inp |}).

Definition flushClicks (inp : Input) : list Click * Input :=
  (_clickIntents inp,
   {| placement := placement inp; _intents := _intents inp; _clickIntents := [];
      _camera := _camera inp; _isPanning := _isPanning inp;
      _panStartX := _panStartX inp; _panStartY := _panStartY inp |}).

Definition _commit (inp : Input) : Input :=
  let p := placement inp in
  let dx := tipX p - anchorX p in
  let dy := tipY p - anchorY p in
  if Rlt_dec (dx * dx + dy * dy) 36 then
    {| placement := idle_placement; _intents := _intents inp;
       _clickIntents := _clickIntents inp
                        ++ [ {| click_x := anchorX p; click_y := anchorY p |} ];
       _camera := _camera inp; _isPanning := _isPanning inp;
       _panStartX := _panStartX inp; _panStartY := _panStartY inp |}
  else
    {| placement := idle_placement;
       _intents := _intents inp
                   ++ [ {| intent_x := anchorX p; intent_y := anchorY p;
                           intent_vx := dx * 1.5; intent_vy := dy * 1.5 |} ];
       _clickIntents := _clickIntents inp;
       _camera := _camera inp; _isPanning := _isPanning inp;
       _panStartX := _panStartX inp; _panStartY := _panStartY inp |}.

Definition _onDown (rect : Rect) (inp : Input) (e : Event) : Input :=
  if (button e =? 2)%Z then
    {| placement := placement inp; _intents := _intents inp;
       _clickIntents := _clickIntents inp; _camera := _camera inp;
       _isPanning := true; _panStartX := clientX e; _panStartY := clientY e |}
  else if negb (button e =? 0)%Z then inp
  else
    let pos := _canvasPos rect e in
    with_placement inp {| phase := dragging; anchorX := fst pos; anchorY := snd pos;
                          tipX := fst pos; tipY := snd pos |}.

Definition _onMove (rect : Rect) (inp : Input) (e : Event) : Input :=
  if _isPanning inp then
    let dx := clientX e - _panStartX inp in
    let dy := clientY e - _panStartY inp in
    {| placement := placement inp; _intents := _intents inp;
       _clickIntents := _clickIntents inp;
       _camera := {| panX := panX (_camera inp) + dx;
                     panY := panY (_camera inp) + dy;
                     zoom := zoom (_camera inp) |};
       _isPanning := true; _panStartX := clientX e; _panStartY := clientY e |}
  else
    match phase (placement inp) with
    | dragging => let pos := _canvasPos rect e in with_tip inp (fst pos) (snd pos)
    | idle => inp
    end.

Definition _onUp (rect : Rect) (inp : Input) (e : Event) : Input :=
  if (button e =? 2)%Z then with_isPanning inp false
  else if negb (button e =? 0)%Z then inp
  else
    match phase (placement inp) with
    | dragging => let pos := _canvasPos rect e in _commit (with_tip inp (fst pos) (snd pos))
    | idle => inp
    end.

Definition _onLeave (inp : Input) : Input :=
  let inp := with_isPanning inp false in
  match phase (placement inp) with
  | dragging => _commit inp
  | idle => inp
  end.

Definition _onWheel (rect : Rect) (inp : Input) (e : Event) : Input :=
  let pos := _canvasPos rect e in
  let mx := fst pos in
  let my := snd pos in
  let factor := if Rlt_dec (deltaY e) 0 then 1.1 else 0.9 in
  {| placement := placement inp; _intents := _intents inp;
     _clickIntents := _clickIntents inp;
     _camera := {| panX := mx - (mx - panX (_camera inp)) * factor;
                   panY := my - (my - panY (_camera inp)) * factor;
                   zoom := Rmin 20 (Rmax 0.1 (zoom (_camera inp) * factor)) |};
     _isPanning := _isPanning inp;
     _panStartX := _panStartX inp; _panStartY := _panStartY inp |}.

End CameraInput.

(** The later [Game.js]: spawning through the camera, saving and loading. *)
Module CameraGame.

Record Game := {
  game_bodies : list CelestialBody;
  game_mode : Mode;
  game_star : Star;
  game_camera : Camera;
  game_inspectedId : option nat;
  game_nextId : nat;
  canvas_width : R;
  canvas_height : R
}.

(** [_spawnBody(intent)]: the intent is in screen space. *)
Definition _spawnBody (cfg : Config) (g : Game) (intent : Intent) : Game :=
  let w := _screenToWorld (game_camera g) (intent_x intent) (intent_y intent) in
  let wx := fst w in
  let wy := snd w in
  let vx_ := intent_vx intent / zoom (game_camera g) in
  let vy_ := intent_vy intent / zoom (game_camera g) in
  let inside_star :=
    match game_mode g with
    | star_mode =>
        let dx := wx - x (star_position (game_star g)) in
        let dy := wy - y (star_position (game_star g)) in
        if Rlt_dec (sqrt (dx * dx + dy * dy)) (star_radius (game_star g) + cfg_radius cfg)
        then true else false
    | freeform_mode => false
    end in
  if inside_star then g
  else
    let r := CelestialBody_new (game_nextId g)
               {| init_x := wx; init_y := wy;
                  init_vx := Some vx_; init_vy := Some vy_;
                  init_mass := Some (cfg_mass cfg); init_radius := Some (cfg_radius cfg);
                  init_color := Some (cfg_newBodyColor cfg);
                  init_type := Some (cfg_type cfg) |} in
    {| game_bodies := game_bodies g ++ [fst r]; game_mode := game_mode g;
       game_star := game_star g; game_camera := game_camera g;
       game_inspectedId := game_inspectedId g; game_nextId := snd r;
       canvas_width := canvas_width g; canvas_height := canvas_height g |}.

(** An entry of [data.bodies], and the object stored under
    ['orbit-save-v1'].  The stored JSON text is modelled by the data it
    encodes. *)
Record SavedBody := {
  saved_dx : R; saved_dy : R; saved_vx : R; saved_vy : R;
  saved_mass : R; saved_radius : R; saved_color : string; saved_type : BodyType
}.

Record SaveData := {
  data_mode : Mode;
  data_starMass : R;
  data_bodies : list SavedBody
}.

(** The point saved offsets are taken from, for a mode. *)
Definition ref_of (m : Mode) (g : Game) : R * R :=
  match m with
  | star_mode => (x (star_position (game_star g)), y (star_position (game_star g)))
  | freeform_mode => (canvas_width g / 2, canvas_height g / 2)
  end.

(** [_save()]: the value written to the store. *)
Definition _save (cfg : Config) (g : Game) : SaveData :=
  let ref := ref_of (game_mode g) g in
  {| data_mode := game_mode g;
     data_starMass := cfg_starMass cfg;
     data_bodies :=
       (fun b => {| saved_dx := x (position b) - fst ref;
                    saved_dy := y (position b) - snd ref;
                    saved_vx := vx (velocity b); saved_vy := vy (velocity b);
                    saved_mass := mass b; saved_radius := radius b;
                    saved_color := color b; saved_type := type b |})
       <$> game_bodies g |}.

(** [_load()]: [raw] is the content of the store and [slider] the position
    of the star-mass slider, which [_ui.setStarMass] moves. *)
Definition _load (raw : option SaveData) (slider : Z) (g : Game) : Game * Z :=
  match raw with
  | None => (g, slider)
  | Some data =>
      let ref := ref_of (data_mode data) g in
      let r := fold_left
                 (fun (st : list CelestialBody * nat) (b : SavedBody) =>
                    let c := CelestialBody_new (snd st)
                               {| init_x := fst ref + saved_dx b;
                                  init_y := snd ref + saved_dy b;
                                  init_vx := Some (saved_vx b);
                                  init_vy := Some (saved_vy b);
                                  init_mass := Some (saved_mass b);
                                  init_radius := Some (saved_radius b);
                                  init_color := Some (saved_color b);
                                  init_type := Some (saved_type b) |} in
                    (fst st ++ [fst c], snd c))
                 (data_bodies data) ([], game_nextId g) in
      ({| game_bodies := fst r; game_mode := data_mode data;
          game_star := game_star g; game_camera := game_camera g;
          game_inspectedId := None; game_nextId := snd r;
          canvas_width := canvas_width g; canvas_height := canvas_height g |},
       setStarMass (data_starMass data))
  end.

End CameraGame.

(** ** The orbit predictor of the later [Renderer] *)

Definition PREDICTOR_STEPS : nat := 600.
Definition PREDICTOR_DT : R := 1 / 240.
Definition VELOCITY_SCALE : R := 1.5.

(** The loop of [_drawPredictor]: [n] iterations are left, [(px, py)] and
    [(vx, vy)] are the running position and velocity, [path] the points
    pushed so far. *)
Fixpoint predictor_loop (n : nat) (star : Star) (px py vx_ vy_ : R)
    (path : list Position) : list Position :=
  match n with
  | O => path
  | S n =>
      let dx := x (star_position star) - px in
      let dy := y (star_position star) - py in
      let distSq := dx * dx + dy * dy + 25 in
      let dist := sqrt distSq in
      let f := G * star_mass star / distSq in
      let vx_ := vx_ + f * (dx / dist) * PREDICTOR_DT in
      let vy_ := vy_ + f * (dy / dist) * PREDICTOR_DT in
      let px := px + vx_ * PREDICTOR_DT in
      let py := py + vy_ * PREDICTOR_DT in
      let path := path ++ [ {| x := px; y := py |} ] in
      let ddx := px - x (star_position star) in
      let ddy := py - y (star_position star) in
      if Rlt_dec (ddx * ddx + ddy * ddy) (star_radius star * star_radius star)
      then path
      else predictor_loop n star px py vx_ vy_ path
  end.

(** The position and velocity [_drawPredictor] starts from. *)
Definition predictor_start (p : Placement) (camera : Camera) : Position * Velocity :=
  ({| x := (anchorX p - panX camera) / zoom camera;
      y := (anchorY p - panY camera) / zoom camera |},
   {| vx := (tipX p - anchorX p) * VELOCITY_SCALE / zoom camera;
      vy := (tipY p - anchorY p) * VELOCITY_SCALE / zoom camera |}).

(** The path [_drawPredictor] computes before it draws; the drawing calls
    are not modelled. *)
Definition _drawPredictor (p : Placement) (star : Star) (camera : Camera)
  : list Position :=
  let s := predictor_start p camera in
  predictor_loop PREDICTOR_STEPS star (x (fst s)) (y (fst s)) (vx (snd s)) (vy (snd s))
                 [fst s].

(** * Definitions used in the statements *)

(** Sums of reals, and the aggregates the conservation laws speak of. *)
Fixpoint Rsum (l : list R) : R :=
  match l with
  | [] => 0
  | v :: l => v + Rsum l
  end.

Definition total_mass (fs : list Fragment) : R := Rsum (frag_mass <$> fs).
Definition momentum_x (fs : list Fragment) : R :=
  Rsum ((fun f => frag_mass f * frag_vx f) <$> fs).
Definition momentum_y (fs : list Fragment) : R :=
  Rsum ((fun f => frag_mass f * frag_vy f) <$> fs).

(** The mass-weighted average velocity of a list of fragments. *)
Definition mean_vx (fs : list Fragment) : R := momentum_x fs / total_mass fs.
Definition mean_vy (fs : list Fragment) : R := momentum_y fs / total_mass fs.

(** [clamp v lo hi], in the words of the specification. *)
Definition clamp (v lo hi : Z) : Z :=
  if (v <? lo)%Z then lo else if (hi <? v)%Z then hi else v.

(** The quantities [_explode] computes before its loop. *)
Definition kick_speed (a b : CelestialBody) : R :=
  Rmax 8 (sqrt ((vx (velocity a) - vx (velocity b)) * (vx (velocity a) - vx (velocity b))
                + (vy (velocity a) - vy (velocity b)) * (vy (velocity a) - vy (velocity b)))
          * 0.45).
Definition fragment_radius (a b : CelestialBody) : R :=
  Rmax 2 (cbrt ((radius a ^ 3 + radius b ^ 3) / IZR (fragment_count a b))).
Definition fragment_mass (a b : CelestialBody) : R :=
  Rmax 1 (IZR (round ((mass a + mass b) / IZR (fragment_count a b)))).
Definition com_vx (a b : CelestialBody) : R :=
  (vx (velocity a) * mass a + vx (velocity b) * mass b) / (mass a + mass b).
Definition com_vy (a b : CelestialBody) : R :=
  (vy (velocity a) * mass a + vy (velocity b) * mass b) / (mass a + mass b).

(** The launch angle and the kick of the [i]-th fragment of an explosion
    that starts when [drawn] draws have been taken: the fragment takes the
    draws [drawn + 2 i] (angle) and [drawn + 2 i + 1] (kick). *)
Definition fragment_angle (rnd : nat -> R) (a b : CelestialBody) (drawn i : nat) : R :=
  (INR i / IZR (fragment_count a b)) * 2 * PI
  + (rnd (drawn + 2 * i)%nat - 0.5) * (PI / IZR (fragment_count a b)).
Definition fragment_kick (rnd : nat -> R) (a b : CelestialBody) (drawn i : nat) : R :=
  kick_speed a b * (0.7 + rnd (S (drawn + 2 * i)) * 0.6).

(** The [i]-th descriptor pushed by [_explode]. *)
Definition fragment_of (rnd : nat -> R) (a b : CelestialBody) (drawn i : nat) : Fragment :=
  let totalMass := mass a + mass b in
  let spawnR := fragment_radius a b * 2 + 3 in
  {| frag_x := (x (position a) * mass a + x (position b) * mass b) / totalMass
               + cos (fragment_angle rnd a b drawn i) * spawnR;
     frag_y := (y (position a) * mass a + y (position b) * mass b) / totalMass
               + sin (fragment_angle rnd a b drawn i) * spawnR;
     frag_vx := com_vx a b
                + cos (fragment_angle rnd a b drawn i) * fragment_kick rnd a b drawn i;
     frag_vy := com_vy a b
                + sin (fragment_angle rnd a b drawn i) * fragment_kick rnd a b drawn i;
     frag_mass := fragment_mass a b;
     frag_radius := fragment_radius a b;
     frag_color := if Rge_dec (mass a) (mass b) then color a else color b;
     frag_type := planet |}.

(** Accelerations as vectors. *)
Definition vzero : Acceleration := {| ax := 0; ay := 0 |}.
Definition vadd (u v : Acceleration) : Acceleration :=
  {| ax := ax u + ax v; ay := ay u + ay v |}.
Definition vscale (c : R) (u : Acceleration) : Acceleration :=
  {| ax := c * ax u; ay := c * ay u |}.
Fixpoint vsum (l : list Acceleration) : Acceleration :=
  match l with
  | [] => vzero
  | u :: l => vadd u (vsum l)
  end.

(** The softened pull that a mass [m] sitting at [q] exerts at [p]:
    [G m / (d^2 + eps^2)] times the vector [(dx, dy) / sqrt (d^2 + eps^2)],
    where [(dx, dy)] goes from [p] to [q] and [d^2 = dx^2 + dy^2]. *)
Definition softened_pull (m : R) (p q : Position) : Acceleration :=
  let dx := x q - x p in
  let dy := y q - y p in
  let d2 := dx * dx + dy * dy in
  {| ax := G * m / (d2 + SOFTENING_SQ) * (dx / sqrt (d2 + SOFTENING_SQ));
     ay := G * m / (d2 + SOFTENING_SQ) * (dy / sqrt (d2 + SOFTENING_SQ)) |}.

(** The pull on the body in slot [k] by the body in slot [j]. *)
Definition pull_between (bodies : list CelestialBody) (k j : nat) : Acceleration :=
  match bodies !! k, bodies !! j with
  | Some bk, Some bj => softened_pull (mass bj) (position bk) (position bj)
  | _, _ => vzero
  end.

(** The net acceleration of the body [b] in slot [k]: the pull of the star,
    when there is one, plus the pulls of the bodies in all other slots. *)
Definition net_pull (bodies : list CelestialBody) (star : option Star)
    (k : nat) (b : CelestialBody) : Acceleration :=
  vadd (match star with
        | Some s => softened_pull (star_mass s) (position b) (star_position s)
        | None => vzero
        end)
       (vsum ((fun j => if (j =? k)%nat then vzero else pull_between bodies k j)
                <$> seq 0 (length bodies))).

(** What the pair (i, j) of the pairwise loop adds to slot [k]. *)
Definition pair_term (bodies : list CelestialBody) (k i j : nat) : Acceleration :=
  if (k =? i)%nat then pull_between bodies i j
  else if (k =? j)%nat then pull_between bodies j i
  else vzero.

(** [bs] is [bs0] with the acceleration of every slot [k] incremented by
    [extra k], and nothing else changed. *)
Definition accumulated (bs0 bs : list CelestialBody) (extra : nat -> Acceleration) : Prop :=
  length bs = length bs0 /\
  forall k b0, bs0 !! k = Some b0 ->
    bs !! k = Some (with_acceleration b0 (vadd (acceleration b0) (extra k))).

(** The first two loops of [_computeAccelerations], body by body: the
    reset, then the pull of the star. *)
Definition star_phase (star : option Star) (b : CelestialBody) : CelestialBody :=
  match star with
  | Some s => star_pull s (reset_acceleration b)
  | None => reset_acceleration b
  end.

(** The phases of a substep, in the words of the specification: the
    half-step velocity kick [v += 0.5 a delta] and the position drift
    [p += v delta], each applied to a body; and a step as a schedule of
    phases run one after the other. *)
Definition half_kick (delta : R) (b : CelestialBody) : CelestialBody :=
  with_velocity b
    {| vx := vx (velocity b) + 0.5 * ax (acceleration b) * delta;
       vy := vy (velocity b) + 0.5 * ay (acceleration b) * delta |}.

Definition drift (delta : R) (b : CelestialBody) : CelestialBody :=
  with_position b
    {| x := x (position b) + vx (velocity b) * delta;
       y := y (position b) + vy (velocity b) * delta |}.

Inductive Phase := Accelerate | HalfKick | Drift | RecordTrail | Collide.

Definition with_bodies (w : World) (bs : list CelestialBody) : World :=
  {| bodies := bs; fragments := fragments w; drawn := drawn w |}.

Definition run_phase (rnd : nat -> R) (star : option Star) (delta : R)
    (options : Options) (w : World) (ph : Phase) : World :=
  match ph with
  | Accelerate => with_bodies w (_computeAccelerations (bodies w) star)
  | HalfKick => with_bodies w (half_kick delta <$> bodies w)
  | Drift => with_bodies w (drift delta <$> bodies w)
  | RecordTrail => with_bodies w (record_trail <$> bodies w)
  | Collide =>
      let p := _handleCollisions rnd (bodies w) star
                 (if explosions options then Some (fragments w) else None) (drawn w) in
      {| bodies := pass_bodies p;
         fragments := match pass_fragments p with
                      | Some fr => fr
                      | None => fragments w
                      end;
         drawn := pass_drawn p |}
  end.

Definition substep_schedule : list Phase :=
  [Accelerate; HalfKick; Drift; Accelerate; HalfKick; RecordTrail; Collide].

Definition step_schedule : list Phase :=
  concat (replicate 4 substep_schedule).

Definition phase_eqb (p q : Phase) : bool :=
  match p, q with
  | Accelerate, Accelerate | HalfKick, HalfKick | Drift, Drift
  | RecordTrail, RecordTrail | Collide, Collide => true
  | _, _ => false
  end.

(** A body without its acceleration and its trail. *)
Definition bare (b : CelestialBody) : CelestialBody :=
  with_trail (with_acceleration b vzero) [].

(** The two contact tests of the resolver. *)
Definition touches_star (s : Star) (b : CelestialBody) : Prop :=
  sqrt ((x (position b) - x (star_position s)) * (x (position b) - x (star_position s))
        + (y (position b) - y (star_position s)) * (y (position b) - y (star_position s)))
  < star_radius s + radius b * 0.5.

Definition overlap (a b : CelestialBody) : Prop :=
  sqrt ((x (position b) - x (position a)) * (x (position b) - x (position a))
        + (y (position b) - y (position a)) * (y (position b) - y (position a)))
  < radius a + radius b.

(** Nothing for the resolver to do: no unflagged body touches the star and
    no two unflagged bodies overlap. *)
Definition no_contact (star : option Star) (bs : list CelestialBody) : Prop :=
  (forall s k b, star = Some s -> bs !! k = Some b -> merged b = false ->
                 ~ touches_star s b) /\
  (forall i j a b, (i < j)%nat -> bs !! i = Some a -> bs !! j = Some b ->
                   merged a = false -> merged b = false -> ~ overlap a b).

(** The length of a trail after one more substep. *)
Definition grow (n : nat) : nat :=
  if (TRAIL_MAX_LENGTH <? S n)%nat then n else S n.

(** Successive calls to [step] on the same array, one per frame time. *)
Definition run (rnd : nat -> R) (star : option Star) (options : Options)
    (frames : list R) (bodies0 : list CelestialBody) (drawn0 : nat) : World :=
  fold_left (fun w t => step rnd (bodies w) star t options (drawn w)) frames
            {| bodies := bodies0; fragments := []; drawn := drawn0 |}.


(** Totals over all the bodies of a collection: force, momentum and mass
    moment, per axis. *)
Definition total_force_x (bs : list CelestialBody) : R :=
  Rsum ((fun b => mass b * ax (acceleration b)) <$> bs).
Definition total_force_y (bs : list CelestialBody) : R :=
  Rsum ((fun b => mass b * ay (acceleration b)) <$> bs).
Definition total_momentum_x (bs : list CelestialBody) : R :=
  Rsum ((fun b => mass b * vx (velocity b)) <$> bs).
Definition total_momentum_y (bs : list CelestialBody) : R :=
  Rsum ((fun b => mass b * vy (velocity b)) <$> bs).
Definition mass_moment_x (bs : list CelestialBody) : R :=
  Rsum ((fun b => mass b * x (position b)) <$> bs).
Definition mass_moment_y (bs : list CelestialBody) : R :=
  Rsum ((fun b => mass b * y (position b)) <$> bs).

(** The same over the live (unflagged) bodies only. *)
Definition live_mass (bs : list CelestialBody) : R :=
  Rsum ((fun b => if merged b then 0 else mass b) <$> bs).
Definition live_momentum_x (bs : list CelestialBody) : R :=
  Rsum ((fun b => if merged b then 0 else mass b * vx (velocity b)) <$> bs).
Definition live_momentum_y (bs : list CelestialBody) : R :=
  Rsum ((fun b => if merged b then 0 else mass b * vy (velocity b)) <$> bs).

(** The pull of the star at a body, or none. *)
Definition star_term (star : option Star) (b : CelestialBody) : Acceleration :=
  match star with
  | Some s => softened_pull (star_mass s) (position b) (star_position s)
  | None => vzero
  end.

(** The phases of a substep before its collision pass. *)
Definition integration_schedule : list Phase :=
  [Accelerate; HalfKick; Drift; Accelerate; HalfKick; RecordTrail].

(** The bodies array after the star loop of [_handleCollisions]. *)
Definition after_star_loop (star : option Star) (bs : list CelestialBody)
  : list CelestialBody :=
  match star with
  | Some s => absorb s <$> bs
  | None => bs
  end.

(** Identifiers in use are distinct and below the counter. *)
Definition ids_fresh (g : Game) : Prop :=
  NoDup (id <$> game_bodies g) /\
  Forall (fun b => (id b < game_nextId g)%nat) (game_bodies g).

(** What the live totals are made of, body by body. *)
Definition live_mass_of (b : CelestialBody) : R := if merged b then 0 else mass b.
Definition live_px_of (b : CelestialBody) : R :=
  if merged b then 0 else mass b * vx (velocity b).
Definition live_py_of (b : CelestialBody) : R :=
  if merged b then 0 else mass b * vy (velocity b).

(** The point escapes are measured from, and being within the escape
    radius of a point. *)
Definition reference_point (g : Game) : R * R :=
  match game_mode g with
  | star_mode => (x (star_position (game_star g)), y (star_position (game_star g)))
  | freeform_mode => (canvas_width g / 2, canvas_height g / 2)
  end.

Definition in_range (c : R * R) (b : CelestialBody) : Prop :=
  (x (position b) - fst c) * (x (position b) - fst c)
  + (y (position b) - snd c) * (y (position b) - snd c)
  <= ESCAPE_RADIUS * ESCAPE_RADIUS.

(** The events the constructor of [Input] listens to, and their handlers. *)
Inductive Event :=
  | mousedown (e : MouseEvent)
  | mousemove (e : MouseEvent)
  | mouseup (e : MouseEvent)
  | mouseleave.

Definition dispatch (rect : Rect) (inp : Input) (ev : Event) : Input :=
  match ev with
  | mousedown e => _onDown rect inp e
  | mousemove e => _onMove rect inp e
  | mouseup e => _onUp rect inp e
  | mouseleave => _onLeave inp
  end.

Definition is_mousedown (ev : Event) : bool :=
  match ev with
  | mousedown _ => true
  | _ => false
  end.

(** A drag in progress is a press that has not queued its intent yet. *)
Definition pending_press (p : PlacementPhase) : nat :=
  match p with
  | idle => 0
  | dragging => 1
  end.

(** [b'] is [b], or [b] flagged. *)
Definition same_or_flagged (b b' : CelestialBody) : Prop :=
  b' = b \/ b' = with_merged b true.

(** The number of flagged bodies. *)
Definition flagged (bs : list CelestialBody) : R :=
  Rsum ((fun b => if merged b then 1 else 0) <$> bs).

(** The zoom factor of a wheel event. *)
Definition wheel_factor (e : CameraInput.Event) : R :=
  if Rlt_dec (CameraInput.deltaY e) 0 then 1.1 else 0.9.

(** The world point shown at a screen position of an event. *)
Definition world_under (camera : Camera) (rect : Rect) (e : CameraInput.Event) : R * R :=
  _screenToWorld camera (fst (CameraInput._canvasPos rect e))
                 (snd (CameraInput._canvasPos rect e)).

(** A body built anew with identifier [k] from the saved fields of [b]. *)
Definition respawned (k : nat) (b : CelestialBody) : CelestialBody :=
  {| id := k; position := position b; velocity := velocity b; mass := mass b;
     radius := radius b; color := color b; type := type b; trail := [];
     acceleration := {| ax := 0; ay := 0 |}; escaped := false; merged := false |}.

(** A point of the predicted path lies inside the star's disc. *)
Definition hits_star (star : Star) (q : Position) : Prop :=
  (x q - x (star_position star)) * (x q - x (star_position star))
  + (y q - y (star_position star)) * (y q - y (star_position star))
  < star_radius star * star_radius star.




(** * Properties *)

(** ** The numeric built-ins *)

Lemma cbrt_cube (v : R) : cbrt v ^ 3 = v.
Proof.
  unfold cbrt.
  destruct (Rlt_dec 0 v) as [Hpos|Hnpos].
  - replace (exp (ln v / 3) ^ 3) with (exp (ln v / 3 + (ln v / 3 + ln v / 3))).
    + replace (ln v / 3 + (ln v / 3 + ln v / 3)) with (ln v) by field.
      now apply exp_ln.
    + rewrite !exp_plus. ring.
  - destruct (Rlt_dec v 0) as [Hneg|Hnneg].
    + replace ((- exp (ln (- v) / 3)) ^ 3)
        with (- exp (ln (- v) / 3 + (ln (- v) / 3 + ln (- v) / 3))).
      * replace (ln (- v) / 3 + (ln (- v) / 3 + ln (- v) / 3)) with (ln (- v)) by field.
        rewrite exp_ln; lra.
      * rewrite !exp_plus. ring.
    + assert (v = 0) by lra. subst v. ring.
Qed.

Lemma round_bound (v : R) : IZR (round v) - 0.5 <= v < IZR (round v) + 0.5.
Proof. unfold round. pose proof (Zfloor_bound (v + 0.5)). lra. Qed.

Lemma round_eq (z : Z) (v : R) : IZR z - 0.5 <= v < IZR z + 0.5 -> round v = z.
Proof. intros H. unfold round. apply Zfloor_eq. lra. Qed.

(** ** [circularOrbitVelocity] *)

(** C10. The circular-orbit query is a total function; when the distance [r]
    from the point to the star is below 1 it returns 0; otherwise it returns
    [sqrt (G * starMass / r)] with [G = 2], and the divisor [r] of the only
    division it performs is at least 1, hence never zero. *)
Theorem circularOrbitVelocity_cases (px py : R) (starPos : Position) (starMass : R) :
  let r := sqrt ((px - x starPos) * (px - x starPos)
                 + (py - y starPos) * (py - y starPos)) in
  G = 2 /\
  (r < 1 -> circularOrbitVelocity px py starPos starMass = 0) /\
  (~ r < 1 ->
     1 <= r /\ r <> 0 /\
     circularOrbitVelocity px py starPos starMass = sqrt (2 * starMass / r)).
Proof.
  intros r. unfold circularOrbitVelocity. fold r.
  split; [reflexivity|]. split.
  - intros Hlt. destruct (Rlt_dec r 1); [reflexivity|contradiction].
  - intros Hge. destruct (Rlt_dec r 1); [contradiction|].
    unfold G. repeat split; lra.
Qed.

Lemma circularOrbitVelocity_cases_witness :
  circularOrbitVelocity 0 0 {| x := 0; y := 0 |} 50 = 0 /\
  circularOrbitVelocity 3 4 {| x := 0; y := 0 |} 50 = sqrt (2 * 50 / 5).
Proof.
  split.
  - apply (circularOrbitVelocity_cases 0 0 {| x := 0; y := 0 |} 50). simpl.
    replace ((0 - 0) * (0 - 0) + (0 - 0) * (0 - 0)) with 0 by ring.
    rewrite sqrt_0. lra.
  - assert (E : sqrt ((3 - 0) * (3 - 0) + (4 - 0) * (4 - 0)) = 5).
    { replace ((3 - 0) * (3 - 0) + (4 - 0) * (4 - 0)) with (5 * 5) by ring.
      apply sqrt_square. lra. }
    pose proof (circularOrbitVelocity_cases 3 4 {| x := 0; y := 0 |} 50) as H.
    simpl in H. rewrite E in H.
    apply H. lra.
Defined.

(** ** The merge policy *)

Lemma merge_into_fields (a bdy : CelestialBody) :
  let M := mass a + mass bdy in
  position (merge_into a bdy)
    = {| x := (x (position a) * mass a + x (position bdy) * mass bdy) / M;
         y := (y (position a) * mass a + y (position bdy) * mass bdy) / M |} /\
  velocity (merge_into a bdy)
    = {| vx := (vx (velocity a) * mass a + vx (velocity bdy) * mass bdy) / M;
         vy := (vy (velocity a) * mass a + vy (velocity bdy) * mass bdy) / M |} /\
  radius (merge_into a bdy) = cbrt (radius a ^ 3 + radius bdy ^ 3) /\
  mass (merge_into a bdy) = M /\
  merged (merge_into a bdy) = merged a /\
  trail (merge_into a bdy) = trail a.
Proof. unfold merge_into. simpl. repeat split. Qed.

(** C1. Whenever the inner loop resolves an overlapping pair (a, b) under
    the merge policy (the [fragments] argument is [null], b is not yet
    flagged, the distance is below the sum of the radii; masses are
    positive, as the data model requires), the surviving body a ends with
    mass [m_a + m_b], with momentum [m_a*v_a + m_b*v_b], with the
    mass-weighted averages of the pair's positions and velocities, with
    radius [cbrt (r_a^3 + r_b^3)] (so that the cubes of the radii add up),
    and b is left as it was except that it is flagged merged. *)
Theorem merge_conserves (rnd : nat -> R) (st : Pass) (i j : nat)
    (a b : CelestialBody) :
  pass_fragments st = None ->
  i <> j ->
  pass_bodies st !! i = Some a ->
  pass_bodies st !! j = Some b ->
  merged b = false ->
  sqrt ((x (position b) - x (position a)) * (x (position b) - x (position a))
        + (y (position b) - y (position a)) * (y (position b) - y (position a)))
    < radius a + radius b ->
  0 < mass a -> 0 < mass b ->
  exists a',
    pass_bodies (collide rnd i j st) !! i = Some a' /\
    pass_bodies (collide rnd i j st) !! j = Some (with_merged b true) /\
    mass a' = mass a + mass b /\
    mass a' * vx (velocity a') = mass a * vx (velocity a) + mass b * vx (velocity b) /\
    mass a' * vy (velocity a') = mass a * vy (velocity a) + mass b * vy (velocity b) /\
    x (position a') = (mass a * x (position a) + mass b * x (position b)) / (mass a + mass b) /\
    y (position a') = (mass a * y (position a) + mass b * y (position b)) / (mass a + mass b) /\
    vx (velocity a') = (mass a * vx (velocity a) + mass b * vx (velocity b)) / (mass a + mass b) /\
    vy (velocity a') = (mass a * vy (velocity a) + mass b * vy (velocity b)) / (mass a + mass b) /\
    radius a' = cbrt (radius a ^ 3 + radius b ^ 3) /\
    radius a' ^ 3 = radius a ^ 3 + radius b ^ 3.
Proof.
  intros Hfr Hij Ha Hb Hmb Hov Hma Hmb'.
  exists (merge_into a b).
  assert (Hi : (i < length (pass_bodies st))%nat) by (eapply lookup_lt_Some; eauto).
  assert (Hj : (j < length (pass_bodies st))%nat) by (eapply lookup_lt_Some; eauto).
  unfold collide. rewrite Ha, Hb, Hmb, Hfr.
  destruct (Rlt_dec _ _) as [_|Hn]; [|contradiction]. cbn [pass_bodies].
  destruct (merge_into_fields a b) as (Hp & Hv & Hr & Hm & _).
  split.
  { rewrite list_lookup_insert_ne by congruence.
    now apply list_lookup_insert_eq. }
  split.
  { apply list_lookup_insert_eq. now rewrite length_insert. }
  rewrite Hp, Hv, Hr, Hm. simpl.
  repeat split; try (field; lra).
  apply cbrt_cube.
Qed.

Lemma merge_conserves_witness :
  let a := {| id := 1; position := {| x := 0; y := 0 |};
              velocity := {| vx := 2; vy := 0 |}; mass := 1; radius := 1;
              color := "#4fc3f7"; type := planet; trail := [];
              acceleration := {| ax := 0; ay := 0 |};
              escaped := false; merged := false |} in
  let b := {| id := 2; position := {| x := 1; y := 0 |};
              velocity := {| vx := 0; vy := 4 |}; mass := 3; radius := 1;
              color := "#4fc3f7"; type := planet; trail := [];
              acceleration := {| ax := 0; ay := 0 |};
              escaped := false; merged := false |} in
  let st := {| pass_bodies := [a; b]; pass_fragments := None; pass_drawn := 0 |} in
  exists a',
    pass_bodies (collide (fun _ => 0.5) 0 1 st) !! 0%nat = Some a' /\
    mass a' = 4 /\ mass a' * vx (velocity a') = 2 /\ mass a' * vy (velocity a') = 12.
Proof.
  intros a b st.
  destruct (merge_conserves (fun _ => 0.5) st 0 1 a b) as (a' & H0 & _ & Hm & Hpx & Hpy & _);
    try reflexivity; try (simpl; lra); try discriminate.
  - simpl. replace ((1 - 0) * (1 - 0) + (0 - 0) * (0 - 0)) with 1 by ring.
    rewrite sqrt_1. lra.
  - exists a'. simpl in Hm, Hpx, Hpy. repeat split; try assumption; lra.
Defined.

(** ** Frame properties of the collision resolver *)

Lemma fold_left_inv {A B : Type} (P : A -> Prop) (f : A -> B -> A) (l : list B) (a : A) :
  P a -> (forall a' b, P a' -> P (f a' b)) -> P (fold_left f l a).
Proof.
  intros Ha Hstep. revert a Ha.
  induction l as [|b l IH]; intros a Ha; simpl; [assumption|].
  apply IH, Hstep, Ha.
Qed.

Lemma collide_length (rnd : nat -> R) (i j : nat) (st : Pass) :
  length (pass_bodies (collide rnd i j st)) = length (pass_bodies st).
Proof.
  unfold collide.
  destruct (pass_bodies st !! i) as [a|]; [|reflexivity].
  destruct (pass_bodies st !! j) as [b|]; [|reflexivity].
  destruct (merged b); [reflexivity|].
  destruct (Rlt_dec _ _); [|reflexivity].
  destruct (pass_fragments st); cbn [pass_bodies]; now rewrite !length_insert.
Qed.

Lemma collide_row_length (rnd : nat -> R) (i : nat) (st : Pass) :
  length (pass_bodies (collide_row rnd i st)) = length (pass_bodies st).
Proof.
  unfold collide_row.
  destruct (pass_bodies st !! i) as [a|]; [|reflexivity].
  destruct (merged a); [reflexivity|].
  apply (fold_left_inv (fun st' => length (pass_bodies st') = length (pass_bodies st)));
    [reflexivity|].
  intros st' j H. now rewrite collide_length.
Qed.

Lemma _handleCollisions_length (rnd : nat -> R) (bodies : list CelestialBody)
    (star : option Star) (fragments : option (list Fragment)) (drawn : nat) :
  length (pass_bodies (_handleCollisions rnd bodies star fragments drawn)) = length bodies.
Proof.
  unfold _handleCollisions.
  set (bs := match star with Some s => absorb s <$> bodies | None => bodies end).
  assert (Hbs : length bs = length bodies).
  { subst bs. destruct star; [apply length_fmap|reflexivity]. }
  rewrite <- Hbs.
  apply (fold_left_inv (fun st' => length (pass_bodies st') = length bs));
    [reflexivity|].
  intros st' i H. now rewrite collide_row_length.
Qed.

(** A body that is already flagged is never touched by a pair it is not
    the row of. *)
Lemma collide_flagged_stays (rnd : nat -> R) (i j k : nat) (st : Pass) (bk : CelestialBody) :
  i <> k ->
  pass_bodies st !! k = Some bk -> merged bk = true ->
  pass_bodies (collide rnd i j st) !! k = Some bk.
Proof.
  intros Hik Hk Hm. unfold collide.
  destruct (pass_bodies st !! i) as [a|] eqn:Ha; [|assumption].
  destruct (pass_bodies st !! j) as [b|] eqn:Hb; [|assumption].
  destruct (merged b) eqn:Hmb; [assumption|].
  assert (Hjk : j <> k).
  { intros ->. rewrite Hk in Hb. injection Hb as <-. congruence. }
  destruct (Rlt_dec _ _); [|assumption].
  destruct (pass_fragments st); cbn [pass_bodies];
    now rewrite !list_lookup_insert_ne by assumption.
Qed.

Lemma collide_row_flagged_stays (rnd : nat -> R) (i k : nat) (st : Pass) (bk : CelestialBody) :
  pass_bodies st !! k = Some bk -> merged bk = true ->
  pass_bodies (collide_row rnd i st) !! k = Some bk.
Proof.
  intros Hk Hm. unfold collide_row.
  destruct (pass_bodies st !! i) as [a|] eqn:Ha; [|assumption].
  destruct (merged a) eqn:Hma; [assumption|].
  assert (Hik : i <> k).
  { intros ->. rewrite Hk in Ha. injection Ha as <-. congruence. }
  apply (fold_left_inv (fun st' => pass_bodies st' !! k = Some bk)); [assumption|].
  intros st' j H. now apply collide_flagged_stays.
Qed.

Lemma absorb_lookup (s : Star) (bodies : list CelestialBody) (k : nat) (b : CelestialBody) :
  bodies !! k = Some b -> (absorb s <$> bodies) !! k = Some (absorb s b).
Proof. intros H. now rewrite list_lookup_fmap, H. Qed.

(** ** Absorption by the attractor *)

(** C8. In a collision-resolution pass with an attractor, every body whose
    Euclidean distance to the attractor is below [r_attractor + 0.5 * r_body]
    comes out of the pass flagged [merged = true] and otherwise as it
    entered, whether the [fragments] argument selects the merge or the
    explode policy.  (The attractor is an input of the resolver only: the
    [Star] record has no flag, and the pass returns no star.) *)
Theorem star_absorbs (rnd : nat -> R) (bodies : list CelestialBody) (s : Star)
    (fragments : option (list Fragment)) (drawn : nat) (k : nat) (b : CelestialBody) :
  bodies !! k = Some b ->
  sqrt ((x (position b) - x (star_position s)) * (x (position b) - x (star_position s))
        + (y (position b) - y (star_position s)) * (y (position b) - y (star_position s)))
    < star_radius s + 0.5 * radius b ->
  pass_bodies (_handleCollisions rnd bodies (Some s) fragments drawn) !! k
    = Some (with_merged b true)
  /\ merged (with_merged b true) = true.
Proof.
  intros Hk Hov. split; [|reflexivity].
  unfold _handleCollisions.
  apply (fold_left_inv (fun st' => pass_bodies st' !! k = Some (with_merged b true))).
  - cbn [pass_bodies]. rewrite (absorb_lookup s bodies k b Hk).
    unfold absorb. destruct (Rlt_dec _ _) as [_|Hn]; [reflexivity|].
    exfalso. apply Hn. lra.
  - intros st' i H. now apply collide_row_flagged_stays.
Qed.

Lemma star_absorbs_witness :
  let b := {| id := 1; position := {| x := 3; y := 4 |};
              velocity := {| vx := 0; vy := 0 |}; mass := 100; radius := 8;
              color := "#4fc3f7"; type := planet; trail := [];
              acceleration := {| ax := 0; ay := 0 |};
              escaped := false; merged := false |} in
  let s := {| star_position := {| x := 0; y := 0 |}; star_mass := 1000000;
              star_radius := 30; star_color := "#fff7aa" |} in
  pass_bodies (_handleCollisions (fun _ => 0.5) [b] (Some s) (Some []) 0) !! 0%nat
    = Some (with_merged b true).
Proof.
  intros b s.
  apply (star_absorbs (fun _ => 0.5) [b] s (Some []) 0 0 b); [reflexivity|].
  simpl. replace ((3 - 0) * (3 - 0) + (4 - 0) * (4 - 0)) with (5 * 5) by ring.
  rewrite sqrt_square; lra.
Defined.

(** ** The explode policy *)

Lemma fragment_count_clamp (a b : CelestialBody) :
  fragment_count a b = clamp (round ((radius a + radius b) / 3)) 3 8.
Proof.
  unfold fragment_count, clamp.
  destruct (Z.ltb_spec (round ((radius a + radius b) / 3)) 3);
    destruct (Z.ltb_spec 8 (round ((radius a + radius b) / 3))); lia.
Qed.

Lemma fragment_count_range (a b : CelestialBody) : (3 <= fragment_count a b <= 8)%Z.
Proof. unfold fragment_count. lia. Qed.

Lemma fragment_count_pos (a b : CelestialBody) : 3 <= IZR (fragment_count a b) <= 8.
Proof.
  destruct (fragment_count_range a b) as [H3 H8].
  apply IZR_le in H3. apply IZR_le in H8. lra.
Qed.

(** What a call to [_explode] pushes and draws. *)
Lemma _explode_unfold (rnd : nat -> R) (a b : CelestialBody)
    (fragments : list Fragment) (drawn : nat) :
  _explode rnd a b fragments drawn
  = (fragments ++ (fragment_of rnd a b drawn <$> seq 0 (Z.to_nat (fragment_count a b))),
     (drawn + 2 * Z.to_nat (fragment_count a b))%nat).
Proof.
  unfold _explode.
  generalize (Z.to_nat (fragment_count a b)) as n.
  induction n as [|n IH].
  - simpl. rewrite app_nil_r. f_equal. lia.
  - rewrite seq_S, fold_left_app, IH. cbn [fold_left fst snd].
    rewrite fmap_app, app_assoc. cbn [fmap list_fmap Nat.add].
    apply f_equal2; [|lia].
    reflexivity.
Qed.

Lemma INR_to_nat_fragment_count (a b : CelestialBody) :
  INR (Z.to_nat (fragment_count a b)) = IZR (fragment_count a b).
Proof.
  rewrite INR_IZR_INZ, Z2Nat.id; [reflexivity|].
  pose proof (fragment_count_range a b). lia.
Qed.

Lemma cbrt_below_2 (v : R) : v < 8 -> cbrt v < 2.
Proof.
  intros Hv. pose proof (cbrt_cube v) as Hc.
  destruct (Rlt_dec (cbrt v) 2) as [|Hn]; [assumption|].
  exfalso. simpl in Hc. nra.
Qed.

(** C5 (as the code has it). An explosion of the pair (a, b) pushes exactly
    [N = clamp (round ((r_a + r_b) / 3)) 3 8] fragments after the ones already
    in the array; every one of them has mass [max 1 (round (M / N))], where
    [M] is the combined mass, and radius [max 2 (cbrt ((r_a^3 + r_b^3) / N))]:
    the claimed formulas, each with a floor (1 for the mass, 2 for the
    radius). *)
Theorem explode_fragment_shape (rnd : nat -> R) (a b : CelestialBody)
    (fragments : list Fragment) (drawn : nat) :
  exists new : list Fragment,
    fst (_explode rnd a b fragments drawn) = fragments ++ new /\
    fragment_count a b = clamp (round ((radius a + radius b) / 3)) 3 8 /\
    Z.of_nat (length new) = fragment_count a b /\
    Forall (fun f =>
              frag_mass f
              = Rmax 1 (IZR (round ((mass a + mass b) / IZR (fragment_count a b)))) /\
              frag_radius f
              = Rmax 2 (cbrt ((radius a ^ 3 + radius b ^ 3) / IZR (fragment_count a b))))
           new.
Proof.
  exists (fragment_of rnd a b drawn <$> seq 0 (Z.to_nat (fragment_count a b))).
  rewrite _explode_unfold. cbn [fst].
  split; [reflexivity|]. split; [apply fragment_count_clamp|]. split.
  - rewrite length_fmap, length_seq, Z2Nat.id; [reflexivity|].
    pose proof (fragment_count_range a b). lia.
  - apply Forall_fmap, Forall_forall. intros i _. split; reflexivity.
Qed.

(** C5, the claim as stated fails: two bodies of radius 2 (the size of the
    smallest fragments) explode into 3 fragments of radius 2, whereas
    [cbrt ((2^3 + 2^3) / 3)] is smaller than 2. *)
Lemma explode_fragment_radius_counterexample :
  let a := {| id := 1; position := {| x := 0; y := 0 |};
              velocity := {| vx := 0; vy := 0 |}; mass := 1; radius := 2;
              color := "#4fc3f7"; type := planet; trail := [];
              acceleration := {| ax := 0; ay := 0 |};
              escaped := false; merged := false |} in
  let b := {| id := 2; position := {| x := 1; y := 0 |};
              velocity := {| vx := 0; vy := 0 |}; mass := 1; radius := 2;
              color := "#4fc3f7"; type := planet; trail := [];
              acceleration := {| ax := 0; ay := 0 |};
              escaped := false; merged := false |} in
  exists f,
    fst (_explode (fun _ => 0.5) a b [] 0) !! 0%nat = Some f /\
    clamp (round ((radius a + radius b) / 3)) 3 8 = 3%Z /\
    frag_radius f = 2 /\
    frag_radius f <> cbrt ((radius a ^ 3 + radius b ^ 3) / 3).
Proof.
  intros a b.
  assert (HN : fragment_count a b = 3%Z).
  { unfold fragment_count. rewrite (round_eq 1); [reflexivity|]. simpl. lra. }
  assert (Hc : cbrt ((radius a ^ 3 + radius b ^ 3) / 3) < 2).
  { apply cbrt_below_2. simpl. lra. }
  exists (fragment_of (fun _ => 0.5) a b 0 0).
  rewrite _explode_unfold, HN. cbn [fst].
  split; [reflexivity|].
  split; [now rewrite <- fragment_count_clamp|].
  assert (Hr : frag_radius (fragment_of (fun _ => 0.5) a b 0 0) = 2).
  { cbn [frag_radius fragment_of]. unfold fragment_radius. rewrite HN.
    apply Rmax_left. lra. }
  split; [exact Hr|]. rewrite Hr. lra.
Qed.

(** *** Sums *)

Lemma Rsum_app (l1 l2 : list R) : Rsum (l1 ++ l2) = Rsum l1 + Rsum l2.
Proof. induction l1 as [|v l1 IH]; simpl; [lra|]. rewrite IH. lra. Qed.

Lemma Rsum_fmap_ext {A : Type} (f g : A -> R) (l : list A) :
  (forall i, f i = g i) -> Rsum (f <$> l) = Rsum (g <$> l).
Proof.
  intros H. induction l as [|i l IH]; [reflexivity|].
  cbn [fmap list_fmap Rsum] in *. now rewrite H, IH.
Qed.

Lemma Rsum_fmap_const {A : Type} (c : R) (l : list A) :
  Rsum ((fun _ => c) <$> l) = INR (length l) * c.
Proof.
  induction l as [|i l IH]; [simpl; lra|].
  cbn [fmap list_fmap Rsum] in *. rewrite IH, length_cons, S_INR. lra.
Qed.

Lemma Rsum_fmap_scale {A : Type} (c : R) (f : A -> R) (l : list A) :
  Rsum ((fun i => c * f i) <$> l) = c * Rsum (f <$> l).
Proof.
  induction l as [|i l IH]; [simpl; lra|].
  cbn [fmap list_fmap Rsum] in *. rewrite IH. lra.
Qed.

Lemma Rsum_fmap_plus {A : Type} (f g : A -> R) (l : list A) :
  Rsum ((fun i => f i + g i) <$> l) = Rsum (f <$> l) + Rsum (g <$> l).
Proof.
  induction l as [|i l IH]; [simpl; lra|].
  cbn [fmap list_fmap Rsum] in *. rewrite IH. lra.
Qed.

(** *** The sums of the cosines and sines of evenly spaced angles *)

Lemma cos_sum_telescope (t : R) (n : nat) :
  2 * sin (t / 2) * Rsum ((fun i => cos (INR i * t)) <$> seq 0 n)
  = sin ((INR n - 1 / 2) * t) + sin (t / 2).
Proof.
  induction n as [|n IH].
  - simpl. replace ((0 - 1 / 2) * t) with (- (t / 2)) by field.
    rewrite sin_neg. lra.
  - rewrite seq_S, fmap_app, Rsum_app, Rmult_plus_distr_l, IH.
    cbn [fmap list_fmap Rsum Nat.add]. rewrite S_INR.
    replace ((INR n + 1 - 1 / 2) * t) with (INR n * t + t / 2) by field.
    replace ((INR n - 1 / 2) * t) with (INR n * t - t / 2) by field.
    rewrite sin_plus, sin_minus. lra.
Qed.

Lemma sin_sum_telescope (t : R) (n : nat) :
  2 * sin (t / 2) * Rsum ((fun i => sin (INR i * t)) <$> seq 0 n)
  = cos (t / 2) - cos ((INR n - 1 / 2) * t).
Proof.
  induction n as [|n IH].
  - simpl. replace ((0 - 1 / 2) * t) with (- (t / 2)) by field.
    rewrite cos_neg. lra.
  - rewrite seq_S, fmap_app, Rsum_app, Rmult_plus_distr_l, IH.
    cbn [fmap list_fmap Rsum Nat.add]. rewrite S_INR.
    replace ((INR n + 1 - 1 / 2) * t) with (INR n * t + t / 2) by field.
    replace ((INR n - 1 / 2) * t) with (INR n * t - t / 2) by field.
    rewrite cos_plus, cos_minus. lra.
Qed.

Lemma evenly_spaced_sums (n : nat) :
  (2 <= n)%nat ->
  Rsum ((fun i => cos (INR i * (2 * PI / INR n))) <$> seq 0 n) = 0 /\
  Rsum ((fun i => sin (INR i * (2 * PI / INR n))) <$> seq 0 n) = 0.
Proof.
  intros Hn.
  assert (Hn' : 2 <= INR n) by (apply le_INR in Hn; simpl in Hn; lra).
  set (t := 2 * PI / INR n).
  assert (Ht2 : t / 2 = PI / INR n) by (unfold t; field; lra).
  assert (Hs : 0 < sin (t / 2)).
  { rewrite Ht2. pose proof PI_RGT_0 as Hpi.
    assert (0 < PI / INR n) by (apply Rdiv_lt_0_compat; lra).
    assert (PI / INR n < PI).
    { apply (Rmult_lt_reg_r (INR n)); [lra|].
      replace (PI / INR n * INR n) with PI by (field; lra). nra. }
    apply sin_gt_0; assumption. }
  assert (Hlast : (INR n - 1 / 2) * t = 2 * PI - t / 2) by (unfold t; field; lra).
  pose proof (cos_sum_telescope t n) as Hc.
  pose proof (sin_sum_telescope t n) as Hsn.
  rewrite Hlast in Hc, Hsn.
  rewrite sin_minus in Hc. rewrite cos_minus in Hsn.
  rewrite sin_2PI, cos_2PI in Hc, Hsn.
  split; nra.
Qed.

(** *** Mass and momentum of the fragments of one explosion *)

Lemma fragment_mass_ge_1 (a b : CelestialBody) : 1 <= fragment_mass a b.
Proof. unfold fragment_mass. apply Rmax_l. Qed.

Lemma pushed_by_explode (rnd : nat -> R) (a b : CelestialBody)
    (fragments : list Fragment) (drawn : nat) :
  drop (length fragments) (fst (_explode rnd a b fragments drawn))
  = fragment_of rnd a b drawn <$> seq 0 (Z.to_nat (fragment_count a b)).
Proof. rewrite _explode_unfold. cbn [fst]. apply drop_app_length. Qed.

Lemma total_mass_fragments (rnd : nat -> R) (a b : CelestialBody) (drawn n : nat) :
  total_mass (fragment_of rnd a b drawn <$> seq 0 n) = INR n * fragment_mass a b.
Proof.
  unfold total_mass. rewrite <- list_fmap_compose.
  rewrite (Rsum_fmap_ext _ (fun _ => fragment_mass a b)) by reflexivity.
  now rewrite Rsum_fmap_const, length_seq.
Qed.

Lemma momentum_x_fragments (rnd : nat -> R) (a b : CelestialBody) (drawn n : nat) :
  momentum_x (fragment_of rnd a b drawn <$> seq 0 n)
  = fragment_mass a b
    * (INR n * com_vx a b
       + Rsum ((fun i => cos (fragment_angle rnd a b drawn i)
                         * fragment_kick rnd a b drawn i) <$> seq 0 n)).
Proof.
  unfold momentum_x. rewrite <- list_fmap_compose.
  rewrite (Rsum_fmap_ext _
             (fun i => fragment_mass a b
                       * (com_vx a b + cos (fragment_angle rnd a b drawn i)
                                       * fragment_kick rnd a b drawn i)))
    by reflexivity.
  rewrite Rsum_fmap_scale, Rsum_fmap_plus, Rsum_fmap_const, length_seq.
  reflexivity.
Qed.

Lemma momentum_y_fragments (rnd : nat -> R) (a b : CelestialBody) (drawn n : nat) :
  momentum_y (fragment_of rnd a b drawn <$> seq 0 n)
  = fragment_mass a b
    * (INR n * com_vy a b
       + Rsum ((fun i => sin (fragment_angle rnd a b drawn i)
                         * fragment_kick rnd a b drawn i) <$> seq 0 n)).
Proof.
  unfold momentum_y. rewrite <- list_fmap_compose.
  rewrite (Rsum_fmap_ext _
             (fun i => fragment_mass a b
                       * (com_vy a b + sin (fragment_angle rnd a b drawn i)
                                       * fragment_kick rnd a b drawn i)))
    by reflexivity.
  rewrite Rsum_fmap_scale, Rsum_fmap_plus, Rsum_fmap_const, length_seq.
  reflexivity.
Qed.

(** The average velocity of the fragments is the velocity of the centre of
    mass plus the average of the kicks. *)
Lemma mean_velocity_fragments (rnd : nat -> R) (a b : CelestialBody) (drawn : nat) :
  let n := Z.to_nat (fragment_count a b) in
  let new := fragment_of rnd a b drawn <$> seq 0 n in
  mean_vx new
  = com_vx a b
    + Rsum ((fun i => cos (fragment_angle rnd a b drawn i)
                      * fragment_kick rnd a b drawn i) <$> seq 0 n)
      / IZR (fragment_count a b) /\
  mean_vy new
  = com_vy a b
    + Rsum ((fun i => sin (fragment_angle rnd a b drawn i)
                      * fragment_kick rnd a b drawn i) <$> seq 0 n)
      / IZR (fragment_count a b).
Proof.
  intros n new. unfold mean_vx, mean_vy, new.
  rewrite momentum_x_fragments, momentum_y_fragments, total_mass_fragments.
  unfold n. rewrite INR_to_nat_fragment_count.
  pose proof (fragment_mass_ge_1 a b). pose proof (fragment_count_pos a b).
  split; field; lra.
Qed.

(** Without jitter (every draw is 1/2) the kicks cancel. *)
Lemma kicks_cancel_without_jitter (rnd : nat -> R) (a b : CelestialBody) (drawn : nat) :
  (forall k, rnd k = 0.5) ->
  let n := Z.to_nat (fragment_count a b) in
  Rsum ((fun i => cos (fragment_angle rnd a b drawn i)
                  * fragment_kick rnd a b drawn i) <$> seq 0 n) = 0 /\
  Rsum ((fun i => sin (fragment_angle rnd a b drawn i)
                  * fragment_kick rnd a b drawn i) <$> seq 0 n) = 0.
Proof.
  intros Hrnd n.
  pose proof (fragment_count_pos a b) as HN.
  pose proof (INR_to_nat_fragment_count a b) as HnN. fold n in HnN.
  assert (Hn : (2 <= n)%nat).
  { unfold n. pose proof (fragment_count_range a b). lia. }
  destruct (evenly_spaced_sums n Hn) as [Hc Hs].
  assert (Hang : forall i, fragment_angle rnd a b drawn i = INR i * (2 * PI / INR n)).
  { intros i. unfold fragment_angle. rewrite Hrnd, HnN. field. lra. }
  assert (Hk : forall i, fragment_kick rnd a b drawn i = kick_speed a b).
  { intros i. unfold fragment_kick. rewrite Hrnd. lra. }
  split.
  - rewrite (Rsum_fmap_ext _ (fun i => kick_speed a b * cos (INR i * (2 * PI / INR n)))).
    + rewrite Rsum_fmap_scale, Hc. lra.
    + intros i. rewrite Hang, Hk. lra.
  - rewrite (Rsum_fmap_ext _ (fun i => kick_speed a b * sin (INR i * (2 * PI / INR n)))).
    + rewrite Rsum_fmap_scale, Hs. lra.
    + intros i. rewrite Hang, Hk. lra.
Qed.

(** The fragments' masses add up to the combined mass within [N - 1] as
    soon as the combined mass is at least 1. *)
Lemma fragment_mass_sum_bound (a b : CelestialBody) :
  1 <= mass a + mass b ->
  Rabs (IZR (fragment_count a b) * fragment_mass a b - (mass a + mass b))
  <= IZR (fragment_count a b) - 1.
Proof.
  intros HM. pose proof (fragment_count_pos a b) as HN.
  unfold fragment_mass.
  set (N := IZR (fragment_count a b)) in *.
  set (M := mass a + mass b) in *.
  pose proof (round_bound (M / N)) as Hq.
  set (q := round (M / N)) in *.
  assert (HMN : M = M / N * N) by (field; lra).
  assert (Hlo : N * IZR q - N / 2 <= M) by nra.
  assert (Hhi : M < N * IZR q + N / 2) by nra.
  destruct (Z_lt_le_dec q 1) as [Hq0|Hq1].
  - assert (IZR q <= 0) by (apply IZR_le; lia).
    rewrite Rmax_left by lra.
    apply Rabs_le. nra.
  - assert (1 <= IZR q) by (apply IZR_le; lia).
    rewrite Rmax_right by lra.
    apply Rabs_le. nra.
Qed.

(** C4 (as the code has it). For every explosion of a pair (a, b) and every
    sequence of draws: the explosion pushes [N] fragments; their
    mass-weighted average velocity is the pair's centre-of-mass velocity plus
    the average of the kicks [kick_i * (cos angle_i, sin angle_i)]; it is the
    centre-of-mass velocity itself when no draw jitters (every draw is 1/2);
    and the fragment masses add up to the pair's combined mass within [N - 1]
    when the combined mass is at least 1. *)
Theorem explode_conservation (rnd : nat -> R) (a b : CelestialBody)
    (fragments : list Fragment) (drawn : nat) :
  let N := fragment_count a b in
  let new := drop (length fragments) (fst (_explode rnd a b fragments drawn)) in
  fst (_explode rnd a b fragments drawn) = fragments ++ new /\
  Z.of_nat (length new) = N /\
  mean_vx new
  = com_vx a b
    + Rsum ((fun i => cos (fragment_angle rnd a b drawn i)
                      * fragment_kick rnd a b drawn i) <$> seq 0 (Z.to_nat N))
      / IZR N /\
  mean_vy new
  = com_vy a b
    + Rsum ((fun i => sin (fragment_angle rnd a b drawn i)
                      * fragment_kick rnd a b drawn i) <$> seq 0 (Z.to_nat N))
      / IZR N /\
  ((forall k, rnd k = 0.5) ->
     mean_vx new = com_vx a b /\ mean_vy new = com_vy a b) /\
  (1 <= mass a + mass b ->
     Rabs (total_mass new - (mass a + mass b)) <= IZR N - 1).
Proof.
  intros N new. unfold new. rewrite pushed_by_explode. fold N.
  destruct (mean_velocity_fragments rnd a b drawn) as [Hx Hy]. fold N in Hx, Hy.
  pose proof (fragment_count_range a b) as HN. fold N in HN.
  split; [now rewrite _explode_unfold|].
  split; [rewrite length_fmap, length_seq; lia|].
  split; [exact Hx|]. split; [exact Hy|]. split.
  - intros Hrnd.
    destruct (kicks_cancel_without_jitter rnd a b drawn Hrnd) as [Hc Hs].
    fold N in Hc, Hs. rewrite Hx, Hy, Hc, Hs.
    pose proof (fragment_count_pos a b). fold N in H. split; field; lra.
  - intros HM. rewrite total_mass_fragments.
    unfold N. rewrite INR_to_nat_fragment_count.
    now apply fragment_mass_sum_bound.
Qed.

Lemma explode_conservation_witness :
  let a := {| id := 1; position := {| x := 0; y := 0 |};
              velocity := {| vx := 3; vy := 0 |}; mass := 50; radius := 6;
              color := "#4fc3f7"; type := planet; trail := [];
              acceleration := {| ax := 0; ay := 0 |};
              escaped := false; merged := false |} in
  let b := {| id := 2; position := {| x := 1; y := 0 |};
              velocity := {| vx := 1; vy := 2 |}; mass := 150; radius := 6;
              color := "#4fc3f7"; type := planet; trail := [];
              acceleration := {| ax := 0; ay := 0 |};
              escaped := false; merged := false |} in
  let new := drop 0 (fst (_explode (fun _ => 0.5) a b [] 0)) in
  (mean_vx new = com_vx a b /\ mean_vy new = com_vy a b) /\
  Rabs (total_mass new - 200) <= IZR (fragment_count a b) - 1.
Proof.
  intros a b new.
  destruct (explode_conservation (fun _ => 0.5) a b [] 0) as (_ & _ & _ & _ & Hv & Hm).
  split.
  - apply Hv. reflexivity.
  - replace 200 with (mass a + mass b) by (simpl; lra).
    apply Hm. simpl. lra.
Defined.

(** C4, the claim as stated fails.  First: two bodies at rest, of radius 6
    and mass 50, explode into 4 fragments at the angles 0, PI/2, PI and
    3 PI/2 (no angular jitter); when the kick draw of the first fragment is
    0 and the others are 1/2, the kicks are 5.6, 8, 8, 8 and the average
    fragment velocity is (-0.6, 0), not the centre-of-mass velocity (0, 0).
    Second: with masses 0.1 and 0.2 and radius 3, the 3 fragments have
    mass 1 each, 2.7 more than the combined mass 0.3, and 2.7 > N - 1 = 2. *)
Lemma explode_conservation_counterexample :
  let body := fun (n : nat) (px m r : R) =>
    {| id := n; position := {| x := px; y := 0 |};
       velocity := {| vx := 0; vy := 0 |}; mass := m; radius := r;
       color := "#4fc3f7"; type := planet; trail := [];
       acceleration := {| ax := 0; ay := 0 |};
       escaped := false; merged := false |} in
  let rnd := fun k : nat => if (k =? 1)%nat then 0 else 0.5 in
  (fragment_count (body 1%nat 0 50 6) (body 2%nat 1 50 6) = 4%Z /\
   com_vx (body 1%nat 0 50 6) (body 2%nat 1 50 6) = 0 /\
   mean_vx (fst (_explode rnd (body 1%nat 0 50 6) (body 2%nat 1 50 6) [] 0)) = - 0.6) /\
  (fragment_count (body 1%nat 0 0.1 3) (body 2%nat 1 0.2 3) = 3%Z /\
   total_mass (fst (_explode rnd (body 1%nat 0 0.1 3) (body 2%nat 1 0.2 3) [] 0)) - (0.1 + 0.2) = 2.7).
Proof.
  intros body rnd. split.
  - assert (HN : fragment_count (body 1%nat 0 50 6) (body 2%nat 1 50 6) = 4%Z).
    { unfold fragment_count. rewrite (round_eq 4); [reflexivity|]. simpl. lra. }
    assert (Hc : com_vx (body 1%nat 0 50 6) (body 2%nat 1 50 6) = 0) by (unfold com_vx; simpl; lra).
    split; [exact HN|]. split; [exact Hc|].
    rewrite _explode_unfold. cbn [fst app].
    destruct (mean_velocity_fragments rnd (body 1%nat 0 50 6) (body 2%nat 1 50 6) 0) as [Hx _].
    rewrite Hx, Hc, HN. clear Hx.
    assert (Hk : kick_speed (body 1%nat 0 50 6) (body 2%nat 1 50 6) = 8).
    { unfold kick_speed. simpl.
      replace ((0 - 0) * (0 - 0) + (0 - 0) * (0 - 0)) with 0 by ring.
      rewrite sqrt_0. apply Rmax_left. lra. }
    change (Z.to_nat 4) with 4%nat.
    cbn [seq fmap list_fmap Rsum].
    unfold fragment_angle, fragment_kick. rewrite HN, Hk.
    cbn [Nat.add Nat.mul rnd Nat.eqb INR].
    replace (0 / 4 * 2 * PI + (0.5 - 0.5) * (PI / 4)) with 0 by field.
    replace (1 / 4 * 2 * PI + (0.5 - 0.5) * (PI / 4)) with (PI / 2) by field.
    replace ((1 + 1) / 4 * 2 * PI + (0.5 - 0.5) * (PI / 4)) with PI by field.
    replace ((1 + 1 + 1) / 4 * 2 * PI + (0.5 - 0.5) * (PI / 4)) with (3 * (PI / 2)) by field.
    rewrite cos_0, cos_PI2, cos_PI, cos_3PI2. lra.
  - assert (HN : fragment_count (body 1%nat 0 0.1 3) (body 2%nat 1 0.2 3) = 3%Z).
    { unfold fragment_count. rewrite (round_eq 2); [reflexivity|]. simpl. lra. }
    split; [exact HN|].
    rewrite _explode_unfold. cbn [fst app].
    rewrite total_mass_fragments, HN.
    assert (Hm : fragment_mass (body 1%nat 0 0.1 3) (body 2%nat 1 0.2 3) = 1).
    { unfold fragment_mass. rewrite HN, (round_eq 0); [apply Rmax_left; lra|].
      simpl. lra. }
    rewrite Hm. simpl. lra.
Qed.

(** ** Flagged bodies within one pass *)

(** Under the explode policy the inner loop explodes the pair as soon as
    [bodies[j]] is not flagged and the pair overlaps: the flag of
    [bodies[i]] is not read. *)
Lemma collide_explodes (rnd : nat -> R) (i j : nat) (st : Pass)
    (a b : CelestialBody) (fr : list Fragment) :
  pass_bodies st !! i = Some a ->
  pass_bodies st !! j = Some b ->
  merged b = false ->
  sqrt ((x (position b) - x (position a)) * (x (position b) - x (position a))
        + (y (position b) - y (position a)) * (y (position b) - y (position a)))
    < radius a + radius b ->
  pass_fragments st = Some fr ->
  collide rnd i j st
  = {| pass_bodies := <[j := with_merged b true]>
                        (<[i := with_merged a true]> (pass_bodies st));
       pass_fragments :=
         Some (fr ++ (fragment_of rnd a b (pass_drawn st)
                        <$> seq 0 (Z.to_nat (fragment_count a b))));
       pass_drawn := (pass_drawn st + 2 * Z.to_nat (fragment_count a b))%nat |}.
Proof.
  intros Ha Hb Hmb Hov Hfr. unfold collide.
  rewrite Ha, Hb, Hmb, Hfr.
  destruct (Rlt_dec _ _) as [_|Hn]; [|contradiction].
  now rewrite _explode_unfold.
Qed.

(** Under the merge policy the body of the row is never flagged by a pair
    of its own row, so the test before the inner loop covers the whole row. *)
Lemma collide_merge_keeps_row_unflagged (rnd : nat -> R) (i j : nat) (st : Pass)
    (a : CelestialBody) :
  pass_fragments st = None -> i <> j ->
  pass_bodies st !! i = Some a -> merged a = false ->
  pass_fragments (collide rnd i j st) = None /\
  exists a', pass_bodies (collide rnd i j st) !! i = Some a' /\ merged a' = false.
Proof.
  intros Hfr Hij Ha Hm. unfold collide. rewrite Ha.
  destruct (pass_bodies st !! j) as [b|] eqn:Hb; [|now eauto].
  destruct (merged b); [now eauto|].
  destruct (Rlt_dec _ _); [|now eauto].
  rewrite Hfr. cbn [pass_fragments pass_bodies]. split; [reflexivity|].
  exists (merge_into a b). split; [|exact Hm].
  rewrite list_lookup_insert_ne by congruence.
  apply list_lookup_insert_eq. eapply lookup_lt_Some; eassumption.
Qed.

(** C2 fails under the explode policy.  Three bodies of mass 30 and radius 3
    at (0,0), (1,0) and (2,0), no attractor: the pass explodes the pair
    (0, 1), flags both, and then explodes the pair (0, 2) although body 0 is
    flagged by then.  Body 0 explodes twice in the pass: 6 fragments of
    mass 20 come out of three bodies of total mass 90. *)
Theorem flagged_body_explodes_again (rnd : nat -> R) :
  let body := fun (n : nat) (px : R) =>
    {| id := n; position := {| x := px; y := 0 |};
       velocity := {| vx := 0; vy := 0 |}; mass := 30; radius := 3;
       color := "#4fc3f7"; type := planet; trail := [];
       acceleration := {| ax := 0; ay := 0 |};
       escaped := false; merged := false |} in
  let p := _handleCollisions rnd [body 1%nat 0; body 2%nat 1; body 3%nat 2]
             None (Some []) 0 in
  pass_bodies p = [with_merged (body 1%nat 0) true; with_merged (body 2%nat 1) true;
                   with_merged (body 3%nat 2) true] /\
  pass_fragments p
  = Some ((fragment_of rnd (body 1%nat 0) (body 2%nat 1) 0 <$> seq 0 3)
          ++ (fragment_of rnd (with_merged (body 1%nat 0) true) (body 3%nat 2) 6
                <$> seq 0 3)) /\
  (forall fr, pass_fragments p = Some fr -> length fr = 6%nat /\ total_mass fr = 120).
Proof.
  intros body p.
  assert (HN : forall a b, radius a = 3 -> radius b = 3 -> fragment_count a b = 3%Z).
  { intros a b Ha Hb. unfold fragment_count. rewrite Ha, Hb, (round_eq 2); [reflexivity|]. lra. }
  assert (Hp : p = {| pass_bodies := [with_merged (body 1%nat 0) true;
                                      with_merged (body 2%nat 1) true;
                                      with_merged (body 3%nat 2) true];
                      pass_fragments :=
                        Some ((fragment_of rnd (body 1%nat 0) (body 2%nat 1) 0 <$> seq 0 3)
                              ++ (fragment_of rnd (with_merged (body 1%nat 0) true)
                                    (body 3%nat 2) 6 <$> seq 0 3));
                      pass_drawn := 12 |}).
  { unfold p, _handleCollisions.
    cbn [length seq fold_left].
    unfold collide_row at 3.
    cbn [pass_bodies lookup list_lookup merged body length Nat.sub seq fold_left].
    rewrite (collide_explodes rnd 0 1 _ (body 1%nat 0) (body 2%nat 1) []);
      [|reflexivity|reflexivity|reflexivity| |reflexivity].
    2:{ simpl. replace ((1 - 0) * (1 - 0) + (0 - 0) * (0 - 0)) with 1 by ring.
        rewrite sqrt_1. lra. }
    rewrite HN by reflexivity. cbn [pass_bodies pass_drawn insert list_insert app Nat.add Nat.mul Z.to_nat Pos.to_nat Pos.iter_op].
    rewrite (collide_explodes rnd 0 2 _ (with_merged (body 1%nat 0) true) (body 3%nat 2)
               (fragment_of rnd (body 1%nat 0) (body 2%nat 1) 0 <$> seq 0 3));
      [|reflexivity|reflexivity|reflexivity| |reflexivity].
    2:{ simpl. replace ((2 - 0) * (2 - 0) + (0 - 0) * (0 - 0)) with (2 * 2) by ring.
        rewrite sqrt_square; lra. }
    rewrite HN by reflexivity.
    reflexivity. }
  rewrite Hp. cbn [pass_bodies pass_fragments].
  split; [reflexivity|]. split; [reflexivity|].
  intros fr [= <-]. split; [reflexivity|].
  unfold total_mass. cbn [fmap list_fmap Rsum frag_mass fragment_of].
  assert (Hm : forall a b, fragment_count a b = 3%Z -> mass a + mass b = 60 ->
                           fragment_mass a b = 20).
  { intros a b Hc HM. unfold fragment_mass. rewrite Hc, HM, (round_eq 20); [|lra].
    apply Rmax_right. lra. }
  rewrite !Hm by (try apply HN; try reflexivity; simpl; lra).
  lra.
Qed.

(** ** The force accumulator *)

Lemma acceleration_eq (u v : Acceleration) : ax u = ax v -> ay u = ay v -> u = v.
Proof. destruct u, v; simpl; intros -> ->; reflexivity. Qed.

Lemma vadd_assoc (u v w : Acceleration) : vadd (vadd u v) w = vadd u (vadd v w).
Proof. apply acceleration_eq; simpl; ring. Qed.

Lemma vadd_zero_r (u : Acceleration) : vadd u vzero = u.
Proof. apply acceleration_eq; simpl; ring. Qed.

Lemma vadd_zero_l (u : Acceleration) : vadd vzero u = u.
Proof. apply acceleration_eq; simpl; ring. Qed.

Lemma vsum_app (l1 l2 : list Acceleration) : vsum (l1 ++ l2) = vadd (vsum l1) (vsum l2).
Proof.
  induction l1 as [|u l1 IH]; simpl; [now rewrite vadd_zero_l|].
  now rewrite IH, vadd_assoc.
Qed.

Lemma vsum_fmap_ext_in (f g : nat -> Acceleration) (l : list nat) :
  (forall i, In i l -> f i = g i) -> vsum (f <$> l) = vsum (g <$> l).
Proof.
  induction l as [|i l IH]; intros H; [reflexivity|].
  cbn [fmap list_fmap vsum] in *. rewrite H by (left; reflexivity).
  rewrite IH; [reflexivity|]. intros i' Hi'. apply H. now right.
Qed.

Lemma vsum_fmap_zero (l : list nat) : vsum ((fun _ => vzero) <$> l) = vzero.
Proof.
  induction l as [|i l IH]; [reflexivity|].
  cbn [fmap list_fmap vsum] in *. now rewrite IH, vadd_zero_l.
Qed.

Lemma softening_pos (dx dy : R) : 0 < dx * dx + dy * dy + SOFTENING_SQ.
Proof. unfold SOFTENING_SQ, SOFTENING. nra. Qed.

Lemma softening_sqrt_pos (dx dy : R) : 0 < sqrt (dx * dx + dy * dy + SOFTENING_SQ).
Proof. apply sqrt_lt_R0, softening_pos. Qed.

(** Newton's third law: the pulls of a pair, weighted by the masses they
    act on, are opposite. *)
Lemma softened_pull_opposite (m1 m2 : R) (p q : Position) :
  vscale m1 (softened_pull m2 p q) = vscale (- m2) (softened_pull m1 q p).
Proof.
  unfold softened_pull, vscale. cbn [ax ay].
  replace ((x p - x q) * (x p - x q) + (y p - y q) * (y p - y q))
    with ((x q - x p) * (x q - x p) + (y q - y p) * (y q - y p)) by ring.
  pose proof (softening_pos (x q - x p) (y q - y p)).
  pose proof (softening_sqrt_pos (x q - x p) (y q - y p)).
  apply acceleration_eq; cbn [ax ay]; field; lra.
Qed.

(** The body of the pairwise loop adds to each of the two bodies the
    softened pull of the other. *)
Lemma pair_pull_eq (i j : nat) (bs : list CelestialBody) (a b : CelestialBody) :
  bs !! i = Some a -> bs !! j = Some b ->
  pair_pull i j bs
  = <[j := with_acceleration b
             (vadd (acceleration b) (softened_pull (mass a) (position b) (position a)))]>
      (<[i := with_acceleration a
                (vadd (acceleration a) (softened_pull (mass b) (position a) (position b)))]>
         bs).
Proof.
  intros Ha Hb. unfold pair_pull. rewrite Ha, Hb.
  pose proof (softening_pos (x (position b) - x (position a))
                (y (position b) - y (position a))) as HD.
  pose proof (softening_sqrt_pos (x (position b) - x (position a))
                (y (position b) - y (position a))) as HS.
  f_equal; [|f_equal]; f_equal.
  - unfold softened_pull, vadd. cbn [ax ay].
    replace ((x (position a) - x (position b)) * (x (position a) - x (position b))
             + (y (position a) - y (position b)) * (y (position a) - y (position b)))
      with ((x (position b) - x (position a)) * (x (position b) - x (position a))
            + (y (position b) - y (position a)) * (y (position b) - y (position a)))
      by ring.
    apply acceleration_eq; cbn [ax ay]; field; lra.
  - unfold softened_pull, vadd. cbn [ax ay].
    apply acceleration_eq; cbn [ax ay]; field; lra.
Qed.

Lemma with_acceleration_twice (b : CelestialBody) (u v : Acceleration) :
  with_acceleration (with_acceleration b u) v = with_acceleration b v.
Proof. reflexivity. Qed.

Lemma accumulated_ext (bs0 bs : list CelestialBody) (e e' : nat -> Acceleration) :
  (forall k, e k = e' k) -> accumulated bs0 bs e -> accumulated bs0 bs e'.
Proof.
  intros Hext [Hlen H]. split; [assumption|].
  intros k b0 Hk. rewrite <- Hext. now apply H.
Qed.

Lemma accumulated_refl (bs0 : list CelestialBody) : accumulated bs0 bs0 (fun _ => vzero).
Proof.
  split; [reflexivity|]. intros k b0 Hk. rewrite Hk, vadd_zero_r.
  now destruct b0.
Qed.

(** One pair of the pairwise loop. *)
Lemma accumulated_pair (bs0 bs : list CelestialBody) (e : nat -> Acceleration) (i j : nat) :
  accumulated bs0 bs e -> i <> j ->
  (i < length bs0)%nat -> (j < length bs0)%nat ->
  accumulated bs0 (pair_pull i j bs) (fun k => vadd (e k) (pair_term bs0 k i j)).
Proof.
  intros [Hlen H] Hij Hi Hj.
  destruct (lookup_lt_is_Some_2 bs0 i Hi) as [a0 Ha0].
  destruct (lookup_lt_is_Some_2 bs0 j Hj) as [b0 Hb0].
  pose proof (H i a0 Ha0) as Ha. pose proof (H j b0 Hb0) as Hb.
  rewrite (pair_pull_eq i j bs _ _ Ha Hb).
  split; [now rewrite !length_insert|].
  intros k c0 Hk. unfold pair_term, pull_between.
  destruct (Nat.eqb_spec k i) as [->|Hki].
  - rewrite list_lookup_insert_ne by congruence.
    rewrite list_lookup_insert_eq by lia.
    rewrite Ha0 in Hk. injection Hk as <-. rewrite Ha0, Hb0.
    rewrite with_acceleration_twice. f_equal. cbn [acceleration with_acceleration mass position].
    now rewrite vadd_assoc.
  - destruct (Nat.eqb_spec k j) as [->|Hkj].
    + rewrite list_lookup_insert_eq by (rewrite length_insert; lia).
      rewrite Hb0 in Hk. injection Hk as <-. rewrite Ha0, Hb0.
      rewrite with_acceleration_twice. f_equal.
      cbn [acceleration with_acceleration mass position].
      now rewrite vadd_assoc.
    + rewrite !list_lookup_insert_ne by congruence.
      rewrite vadd_zero_r. now apply H.
Qed.

(** One row of the pairwise loop. *)
Lemma accumulated_row (bs0 : list CelestialBody) (i : nat) (js : list nat) :
  (i < length bs0)%nat ->
  Forall (fun j => i <> j /\ (j < length bs0)%nat) js ->
  forall bs e, accumulated bs0 bs e ->
  accumulated bs0 (fold_left (fun bs j => pair_pull i j bs) js bs)
    (fun k => vadd (e k) (vsum ((fun j => pair_term bs0 k i j) <$> js))).
Proof.
  intros Hi Hjs. induction Hjs as [|j js [Hij Hj] _ IH]; intros bs e Hacc.
  - cbn [fold_left fmap list_fmap vsum].
    eapply accumulated_ext; [|exact Hacc]. intros k. now rewrite vadd_zero_r.
  - cbn [fold_left fmap list_fmap vsum].
    eapply accumulated_ext;
      [|exact (IH _ _ (accumulated_pair bs0 bs e i j Hacc Hij Hi Hj))].
    intros k. cbn beta. now rewrite vadd_assoc.
Qed.

Lemma pull_row_accumulated (bs0 bs : list CelestialBody) (e : nat -> Acceleration) (i : nat) :
  (i < length bs0)%nat ->
  accumulated bs0 bs e ->
  accumulated bs0 (pull_row i bs)
    (fun k => vadd (e k)
                (vsum ((fun j => pair_term bs0 k i j) <$> seq (S i) (length bs0 - S i)))).
Proof.
  intros Hi Hacc. unfold pull_row. rewrite (proj1 Hacc).
  refine (accumulated_row bs0 i _ Hi _ bs e Hacc).
  apply Forall_forall. intros j Hj. apply list_elem_of_In, in_seq in Hj. lia.
Qed.

(** All the rows. *)
Lemma accumulated_rows (bs0 : list CelestialBody) (rows : list nat) :
  Forall (fun i => (i < length bs0)%nat) rows ->
  forall bs e, accumulated bs0 bs e ->
  accumulated bs0 (fold_left (fun bs i => pull_row i bs) rows bs)
    (fun k => vadd (e k)
                (vsum ((fun i => vsum ((fun j => pair_term bs0 k i j)
                                         <$> seq (S i) (length bs0 - S i)))
                         <$> rows))).
Proof.
  intros Hrows. induction Hrows as [|i rows Hi _ IH]; intros bs e Hacc.
  - cbn [fold_left fmap list_fmap vsum].
    eapply accumulated_ext; [|exact Hacc]. intros k. now rewrite vadd_zero_r.
  - cbn [fold_left fmap list_fmap vsum].
    eapply accumulated_ext;
      [|exact (IH _ _ (pull_row_accumulated bs0 bs e i Hi Hacc))].
    intros k. cbn beta. now rewrite vadd_assoc.
Qed.

(** Regrouping the pairs by the slot they act on. *)

Lemma vsum_indicator_out (k : nat) (v : Acceleration) (c a : nat) :
  (k < a)%nat \/ (a + c <= k)%nat ->
  vsum ((fun j => if (k =? j)%nat then v else vzero) <$> seq a c) = vzero.
Proof.
  intros Hk. rewrite (vsum_fmap_ext_in _ (fun _ => vzero)); [apply vsum_fmap_zero|].
  intros j Hj. apply in_seq in Hj.
  destruct (Nat.eqb_spec k j); [lia|reflexivity].
Qed.

Lemma vsum_indicator_in (k : nat) (v : Acceleration) (c a : nat) :
  (a <= k < a + c)%nat ->
  vsum ((fun j => if (k =? j)%nat then v else vzero) <$> seq a c) = v.
Proof.
  intros Hk.
  replace c with ((k - a) + S (a + c - S k))%nat by lia.
  rewrite seq_app, fmap_app, vsum_app.
  replace (a + (k - a))%nat with k by lia.
  cbn [seq fmap list_fmap vsum]. rewrite Nat.eqb_refl.
  rewrite (vsum_indicator_out k v (k - a) a) by lia.
  rewrite (vsum_indicator_out k v (a + c - S k) (S k)) by lia.
  now rewrite vadd_zero_l, vadd_zero_r.
Qed.

Lemma pair_terms_regroup (bs0 : list CelestialBody) (k : nat) :
  (k < length bs0)%nat ->
  vsum ((fun i => vsum ((fun j => pair_term bs0 k i j)
                          <$> seq (S i) (length bs0 - S i)))
          <$> seq 0 (length bs0))
  = vsum ((fun j => if (j =? k)%nat then vzero else pull_between bs0 k j)
            <$> seq 0 (length bs0)).
Proof.
  intros Hk. set (n := length bs0) in *.
  assert (Hsplit : seq 0 n = seq 0 k ++ k :: seq (S k) (n - S k)).
  { replace n with (k + S (n - S k))%nat at 1 by lia. now rewrite seq_app. }
  rewrite Hsplit, !fmap_app, !vsum_app.
  cbn [fmap list_fmap vsum]. rewrite Nat.eqb_refl.
  (* rows above k contribute the pull of their own slot *)
  rewrite (vsum_fmap_ext_in _ (fun i => pull_between bs0 k i) (seq 0 k)).
  2:{ intros i Hi. apply in_seq in Hi.
      rewrite (vsum_fmap_ext_in _ (fun j => if (k =? j)%nat then pull_between bs0 k i
                                            else vzero)).
      - apply vsum_indicator_in. lia.
      - intros j Hj. apply in_seq in Hj. unfold pair_term.
        destruct (Nat.eqb_spec k i); [lia|].
        destruct (Nat.eqb_spec k j) as [->|]; reflexivity. }
  rewrite (vsum_fmap_ext_in (fun j => if (j =? k)%nat then vzero else pull_between bs0 k j)
             (fun i => pull_between bs0 k i) (seq 0 k)).
  2:{ intros j Hj. apply in_seq in Hj. destruct (Nat.eqb_spec j k); [lia|reflexivity]. }
  f_equal.
  (* row k contributes the pulls of the slots after k *)
  rewrite (vsum_fmap_ext_in (fun j => pair_term bs0 k k j)
             (fun j => pull_between bs0 k j) (seq (S k) (n - S k))).
  2:{ intros j _. unfold pair_term. now rewrite Nat.eqb_refl. }
  (* rows below k contribute nothing *)
  rewrite (vsum_fmap_ext_in
             (fun i => vsum ((fun j => pair_term bs0 k i j) <$> seq (S i) (n - S i)))
             (fun _ => vzero) (seq (S k) (n - S k))).
  2:{ intros i Hi. apply in_seq in Hi.
      rewrite (vsum_fmap_ext_in _ (fun _ => vzero)); [apply vsum_fmap_zero|].
      intros j Hj. apply in_seq in Hj. unfold pair_term.
      destruct (Nat.eqb_spec k i); [lia|]. destruct (Nat.eqb_spec k j); [lia|reflexivity]. }
  rewrite vsum_fmap_zero, vadd_zero_r, vadd_zero_l.
  apply vsum_fmap_ext_in. intros j Hj. apply in_seq in Hj.
  destruct (Nat.eqb_spec j k); [lia|reflexivity].
Qed.

Lemma pull_between_fmap (f : CelestialBody -> CelestialBody) (bodies : list CelestialBody)
    (k j : nat) :
  (forall b, position (f b) = position b /\ mass (f b) = mass b) ->
  pull_between (f <$> bodies) k j = pull_between bodies k j.
Proof.
  intros Hf. unfold pull_between. rewrite !list_lookup_fmap.
  destruct (bodies !! k) as [bk|]; [|reflexivity].
  destruct (bodies !! j) as [bj|]; [|reflexivity].
  cbn [fmap option_fmap option_map].
  destruct (Hf bk) as [-> _]. destruct (Hf bj) as [-> ->]. reflexivity.
Qed.

Lemma star_phase_eq (star : option Star) (b : CelestialBody) :
  star_phase star b
  = with_acceleration b
      (match star with
       | Some s => softened_pull (star_mass s) (position b) (star_position s)
       | None => vzero
       end).
Proof.
  destruct star as [s|]; [|reflexivity].
  unfold star_phase, star_pull, reset_acceleration.
  rewrite with_acceleration_twice. f_equal.
  pose proof (softening_pos (x (star_position s) - x (position b))
                (y (star_position s) - y (position b))).
  pose proof (softening_sqrt_pos (x (star_position s) - x (position b))
                (y (star_position s) - y (position b))).
  unfold softened_pull. apply acceleration_eq; cbn [ax ay acceleration with_acceleration position];
    field; lra.
Qed.

Lemma _computeAccelerations_star_phase (bodies : list CelestialBody) (star : option Star) :
  _computeAccelerations bodies star
  = fold_left (fun bs i => pull_row i bs) (seq 0 (length bodies))
      (star_phase star <$> bodies).
Proof.
  unfold _computeAccelerations.
  destruct star as [s|]; cbn [star_phase].
  - rewrite <- list_fmap_compose, !length_fmap. reflexivity.
  - rewrite length_fmap. reflexivity.
Qed.

(** What the force accumulator leaves in every slot. *)
Lemma _computeAccelerations_lookup (bodies : list CelestialBody) (star : option Star)
    (k : nat) (b : CelestialBody) :
  bodies !! k = Some b ->
  _computeAccelerations bodies star !! k
  = Some (with_acceleration b (net_pull bodies star k b)).
Proof.
  intros Hk. rewrite _computeAccelerations_star_phase.
  set (bs0 := star_phase star <$> bodies).
  assert (Hlen : length bs0 = length bodies) by apply length_fmap.
  rewrite <- Hlen.
  assert (Hrows : Forall (fun i => (i < length bs0)%nat) (seq 0 (length bs0))).
  { apply Forall_forall. intros i Hi. apply list_elem_of_In, in_seq in Hi. lia. }
  destruct (accumulated_rows bs0 _ Hrows bs0 _ (accumulated_refl bs0)) as [_ H].
  assert (Hk0 : bs0 !! k = Some (star_phase star b)).
  { unfold bs0. now rewrite list_lookup_fmap, Hk. }
  rewrite (H k _ Hk0). f_equal.
  rewrite vadd_zero_l, pair_terms_regroup by (eapply lookup_lt_Some; eassumption).
  rewrite star_phase_eq, with_acceleration_twice. f_equal.
  cbn [acceleration with_acceleration]. unfold net_pull. f_equal.
  rewrite Hlen. apply vsum_fmap_ext_in. intros j _.
  destruct (j =? k)%nat; [reflexivity|].
  unfold bs0. apply pull_between_fmap.
  intros b'. rewrite star_phase_eq. split; reflexivity.
Qed.

Lemma _computeAccelerations_length (bodies : list CelestialBody) (star : option Star) :
  length (_computeAccelerations bodies star) = length bodies.
Proof.
  rewrite _computeAccelerations_star_phase.
  set (bs0 := star_phase star <$> bodies).
  assert (Hlen : length bs0 = length bodies) by apply length_fmap.
  rewrite <- Hlen.
  assert (Hrows : Forall (fun i => (i < length bs0)%nat) (seq 0 (length bs0))).
  { apply Forall_forall. intros i Hi. apply list_elem_of_In, in_seq in Hi. lia. }
  exact (proj1 (accumulated_rows bs0 _ Hrows bs0 _ (accumulated_refl bs0))).
Qed.

Lemma softened_pull_magnitude (m : R) (p q : Position) :
  let d2 := (x q - x p) * (x q - x p) + (y q - y p) * (y q - y p) in
  ax (softened_pull m p q) * ax (softened_pull m p q)
  + ay (softened_pull m p q) * ay (softened_pull m p q)
  = (G * m / (d2 + SOFTENING_SQ)) * (G * m / (d2 + SOFTENING_SQ))
    * (d2 / (d2 + SOFTENING_SQ)).
Proof.
  intros d2. unfold softened_pull. cbn [ax ay]. fold d2.
  pose proof (softening_pos (x q - x p) (y q - y p)) as HD. fold d2 in HD.
  assert (Hs : sqrt (d2 + SOFTENING_SQ) * sqrt (d2 + SOFTENING_SQ) = d2 + SOFTENING_SQ)
    by (apply sqrt_sqrt; lra).
  pose proof (softening_sqrt_pos (x q - x p) (y q - y p)) as HS. fold d2 in HS.
  set (s := sqrt (d2 + SOFTENING_SQ)) in *.
  assert (Hinv : / s * / s = / (d2 + SOFTENING_SQ)).
  { rewrite <- Rinv_mult, Hs. reflexivity. }
  transitivity ((G * m / (d2 + SOFTENING_SQ)) * (G * m / (d2 + SOFTENING_SQ))
                * d2 * (/ s * / s)).
  - unfold d2, Rdiv. ring.
  - rewrite Hinv. field. lra.
Qed.

Lemma net_pull_reads_positions_and_masses (bodies bodies' : list CelestialBody)
    (star : option Star) (k : nat) (b b' : CelestialBody) :
  position <$> bodies = position <$> bodies' ->
  mass <$> bodies = mass <$> bodies' ->
  bodies !! k = Some b -> bodies' !! k = Some b' ->
  net_pull bodies star k b = net_pull bodies' star k b'.
Proof.
  intros Hp Hm Hk Hk'.
  assert (Hlen : length bodies = length bodies').
  { rewrite <- (length_fmap position bodies), Hp. apply length_fmap. }
  assert (Hpos : forall j c c', bodies !! j = Some c -> bodies' !! j = Some c' ->
                                position c = position c' /\ mass c = mass c').
  { intros j c c' Hc Hc'. split.
    - assert (H : (position <$> bodies) !! j = (position <$> bodies') !! j) by now rewrite Hp.
      rewrite !list_lookup_fmap, Hc, Hc' in H. now injection H.
    - assert (H : (mass <$> bodies) !! j = (mass <$> bodies') !! j) by now rewrite Hm.
      rewrite !list_lookup_fmap, Hc, Hc' in H. now injection H. }
  unfold net_pull. destruct (Hpos _ _ _ Hk Hk') as [-> _]. f_equal.
  rewrite Hlen. apply vsum_fmap_ext_in. intros j Hj. apply in_seq in Hj.
  destruct (j =? k)%nat; [reflexivity|].
  unfold pull_between. rewrite Hk, Hk'.
  assert (Hj1 : (j < length bodies)%nat) by lia.
  assert (Hj2 : (j < length bodies')%nat) by lia.
  destruct (lookup_lt_is_Some_2 bodies j Hj1) as [c Hc].
  destruct (lookup_lt_is_Some_2 bodies' j Hj2) as [c' Hc'].
  rewrite Hc, Hc'.
  destruct (Hpos _ _ _ Hk Hk') as [-> _]. destruct (Hpos _ _ _ Hc Hc') as [-> ->].
  reflexivity.
Qed.

(** C6 (as the code has it). After a force-accumulation pass the array has
    the same length, and the body of every slot is the body it was with its
    acceleration overwritten by the net pull: the softened pull of the
    attractor (when present) plus the sum, over all other slots, of the
    softened pull of the body there.  The softened pull of a mass [m] is the
    vector [G m / (d^2 + eps^2) * (dx, dy) / sqrt (d^2 + eps^2)]: it points
    at the source, and its squared magnitude is
    [(G m / (d^2 + eps^2))^2 * d^2 / (d^2 + eps^2)].  Position, velocity,
    mass and all other fields are unchanged; the net pull of a slot is the
    same for any two arrays that agree on positions and masses; and the
    pulls of a pair, weighted by the masses they act on, are opposite. *)
Theorem accelerations_are_net_pulls (bodies : list CelestialBody) (star : option Star) :
  length (_computeAccelerations bodies star) = length bodies /\
  (forall k b, bodies !! k = Some b ->
     _computeAccelerations bodies star !! k
     = Some (with_acceleration b (net_pull bodies star k b))) /\
  (forall bodies' k b b' c c',
     position <$> bodies = position <$> bodies' ->
     mass <$> bodies = mass <$> bodies' ->
     bodies !! k = Some b -> bodies' !! k = Some b' ->
     _computeAccelerations bodies star !! k = Some c ->
     _computeAccelerations bodies' star !! k = Some c' ->
     acceleration c = acceleration c') /\
  (forall k j bk bj, bodies !! k = Some bk -> bodies !! j = Some bj ->
     pull_between bodies k j = softened_pull (mass bj) (position bk) (position bj) /\
     vscale (mass bk) (pull_between bodies k j)
     = vscale (- mass bj) (pull_between bodies j k)) /\
  (forall m p q,
     let d2 := (x q - x p) * (x q - x p) + (y q - y p) * (y q - y p) in
     ax (softened_pull m p q) * ax (softened_pull m p q)
     + ay (softened_pull m p q) * ay (softened_pull m p q)
     = (G * m / (d2 + SOFTENING_SQ)) * (G * m / (d2 + SOFTENING_SQ))
       * (d2 / (d2 + SOFTENING_SQ))).
Proof.
  split; [apply _computeAccelerations_length|].
  split; [intros k b; apply _computeAccelerations_lookup|].
  split.
  { intros bodies' k b b' c c' Hp Hm Hk Hk' Hc Hc'.
    rewrite (_computeAccelerations_lookup _ _ _ _ Hk) in Hc.
    rewrite (_computeAccelerations_lookup _ _ _ _ Hk') in Hc'.
    injection Hc as <-. injection Hc' as <-. cbn [acceleration with_acceleration].
    now apply net_pull_reads_positions_and_masses. }
  split.
  { intros k j bk bj Hk Hj. unfold pull_between. rewrite Hk, Hj.
    split; [reflexivity|]. apply softened_pull_opposite. }
  intros m p q. apply softened_pull_magnitude.
Qed.

Lemma accelerations_are_net_pulls_witness :
  let b0 := {| id := 1; position := {| x := 0; y := 0 |};
               velocity := {| vx := 0; vy := 1 |}; mass := 100; radius := 3;
               color := "#4fc3f7"; type := planet; trail := [];
               acceleration := {| ax := 7; ay := 7 |};
               escaped := false; merged := false |} in
  let b1 := {| id := 2; position := {| x := 12; y := 0 |};
               velocity := {| vx := 0; vy := 0 |}; mass := 169; radius := 3;
               color := "#4fc3f7"; type := planet; trail := [];
               acceleration := {| ax := 0; ay := 0 |};
               escaped := false; merged := false |} in
  _computeAccelerations [b0; b1] None !! 0%nat
  = Some (with_acceleration b0 (net_pull [b0; b1] None 0 b0)) /\
  vscale (mass b0) (pull_between [b0; b1] 0 1)
  = vscale (- mass b1) (pull_between [b0; b1] 1 0).
Proof.
  intros b0 b1.
  destruct (accelerations_are_net_pulls [b0; b1] None) as (_ & Hlook & _ & Hopp & _).
  split.
  - apply Hlook. reflexivity.
  - apply (Hopp 0%nat 1%nat b0 b1); reflexivity.
Defined.

(** C6, the claim as stated fails: the pull does not have the magnitude
    [G m / (d^2 + eps^2)].  Two bodies 12 apart, the second of mass 169, no
    attractor: [G m / (d^2 + eps^2) = 2 * 169 / (144 + 25) = 2], but the
    first body's acceleration is (24/13, 0), of magnitude 24/13. *)
Lemma pull_magnitude_counterexample :
  let b0 := {| id := 1; position := {| x := 0; y := 0 |};
               velocity := {| vx := 0; vy := 0 |}; mass := 100; radius := 3;
               color := "#4fc3f7"; type := planet; trail := [];
               acceleration := {| ax := 0; ay := 0 |};
               escaped := false; merged := false |} in
  let b1 := {| id := 2; position := {| x := 12; y := 0 |};
               velocity := {| vx := 0; vy := 0 |}; mass := 169; radius := 3;
               color := "#4fc3f7"; type := planet; trail := [];
               acceleration := {| ax := 0; ay := 0 |};
               escaped := false; merged := false |} in
  exists b0',
    _computeAccelerations [b0; b1] None !! 0%nat = Some b0' /\
    acceleration b0' = {| ax := 24 / 13; ay := 0 |} /\
    G * mass b1 / (12 * 12 + SOFTENING * SOFTENING) = 2 /\
    sqrt (ax (acceleration b0') * ax (acceleration b0')
          + ay (acceleration b0') * ay (acceleration b0'))
    <> G * mass b1 / (12 * 12 + SOFTENING * SOFTENING).
Proof.
  intros b0 b1.
  assert (Hacc : net_pull [b0; b1] None 0 b0 = {| ax := 24 / 13; ay := 0 |}).
  { unfold net_pull. cbn [length seq fmap list_fmap vsum Nat.eqb].
    unfold pull_between. cbn [lookup list_lookup].
    unfold softened_pull. cbn [position mass x y b0 b1].
    replace ((12 - 0) * (12 - 0) + (0 - 0) * (0 - 0) + SOFTENING_SQ) with (13 * 13)
      by (unfold SOFTENING_SQ, SOFTENING; ring).
    rewrite sqrt_square by lra.
    apply acceleration_eq; cbn [ax ay vadd vzero]; unfold G; field. }
  exists (with_acceleration b0 (net_pull [b0; b1] None 0 b0)).
  split; [now apply _computeAccelerations_lookup|].
  cbn [acceleration with_acceleration]. rewrite Hacc. cbn [ax ay mass b1].
  split; [reflexivity|].
  assert (HG : G * 169 / (12 * 12 + SOFTENING * SOFTENING) = 2)
    by (unfold G, SOFTENING; field).
  split; [exact HG|]. rewrite HG.
  replace (24 / 13 * (24 / 13) + 0 * 0) with ((24 / 13) * (24 / 13)) by ring.
  rewrite sqrt_square; lra.
Qed.

(** ** The integrator *)

Lemma kick_drift_staged (delta : R) (b : CelestialBody) :
  kick_drift delta b = drift delta (half_kick delta b).
Proof. reflexivity. Qed.

Lemma kick_is_half_kick (delta : R) (b : CelestialBody) : kick delta b = half_kick delta b.
Proof. reflexivity. Qed.

Lemma substep_staged (rnd : nat -> R) (star : option Star) (delta : R)
    (options : Options) (w : World) :
  substep rnd star delta options w
  = fold_left (run_phase rnd star delta options) substep_schedule w.
Proof.
  unfold substep, substep_schedule. cbn [fold_left run_phase with_bodies bodies fragments drawn].
  rewrite (list_fmap_ext (kick_drift delta) (fun b => drift delta (half_kick delta b)))
    by (intros; apply kick_drift_staged).
  rewrite (list_fmap_compose (half_kick delta) (drift delta)).
  reflexivity.
Qed.

(** C7. A call to [step] runs, with [delta = frameTimeSec / 4], four times
    the schedule: accelerations at the current positions, half-kick
    [v += 0.5 a delta], drift [p += v delta], accelerations at the new
    positions, second half-kick, (trail recording,) one collision pass.  So
    the schedule of a step holds 4 collision passes, one at the end of each
    substep, and 8 acceleration computations, two per substep. *)
Theorem step_schedule_refines (rnd : nat -> R) (bodies0 : list CelestialBody)
    (star : option Star) (frameTimeSec : R) (options : Options) (drawn0 : nat) :
  step rnd bodies0 star frameTimeSec options drawn0
  = fold_left (run_phase rnd star (frameTimeSec / 4) options) step_schedule
      {| bodies := bodies0; fragments := []; drawn := drawn0 |}
  /\ step_schedule
     = [Accelerate; HalfKick; Drift; Accelerate; HalfKick; RecordTrail; Collide;
        Accelerate; HalfKick; Drift; Accelerate; HalfKick; RecordTrail; Collide;
        Accelerate; HalfKick; Drift; Accelerate; HalfKick; RecordTrail; Collide;
        Accelerate; HalfKick; Drift; Accelerate; HalfKick; RecordTrail; Collide]
  /\ length (filter (fun ph => phase_eqb ph Collide = true) step_schedule) = 4%nat
  /\ length (filter (fun ph => phase_eqb ph Accelerate = true) step_schedule) = 8%nat
  /\ (forall delta b,
        velocity (half_kick delta b)
        = {| vx := vx (velocity b) + 0.5 * ax (acceleration b) * delta;
             vy := vy (velocity b) + 0.5 * ay (acceleration b) * delta |}
        /\ position (drift delta b)
           = {| x := x (position b) + vx (velocity b) * delta;
                y := y (position b) + vy (velocity b) * delta |}).
Proof.
  split.
  - unfold step, step_schedule. cbn [replicate concat].
    rewrite !fold_left_app, <- !substep_staged.
    replace (frameTimeSec / INR SUBSTEPS) with (frameTimeSec / 4)
      by (unfold SUBSTEPS; simpl; field).
    reflexivity.
  - repeat split; reflexivity.
Qed.

(** ** Frame properties of a substep *)

Lemma fmap_insert_same {A B : Type} (f : A -> B) (l : list A) (i : nat) (a a' : A) :
  l !! i = Some a -> f a' = f a -> f <$> <[i := a']> l = f <$> l.
Proof.
  intros Hi Hf. rewrite list_fmap_insert, Hf.
  apply list_insert_id. now rewrite list_lookup_fmap, Hi.
Qed.

Lemma fmap_insert2_same {A B : Type} (f : A -> B) (l : list A) (i j : nat) (a a' b b' : A) :
  l !! i = Some a -> l !! j = Some b -> f a' = f a -> f b' = f b ->
  f <$> <[j := b']> (<[i := a']> l) = f <$> l.
Proof.
  intros Hi Hj Ha Hb.
  rewrite list_fmap_insert, (fmap_insert_same f l i a a' Hi Ha), Hb.
  apply list_insert_id. now rewrite list_lookup_fmap, Hj.
Qed.

(** The resolver changes a body by [merge_into] or by flagging it; a field
    that neither changes is the same after the pass. *)
Section ResolverFrame.
Context {B : Type} (f : CelestialBody -> B).
Hypothesis f_merged : forall b m, f (with_merged b m) = f b.
Hypothesis f_merge_into : forall a b, f (merge_into a b) = f a.

Lemma collide_frame (rnd : nat -> R) (i j : nat) (st : Pass) :
  f <$> pass_bodies (collide rnd i j st) = f <$> pass_bodies st.
Proof using f_merged f_merge_into.
  unfold collide.
  destruct (pass_bodies st !! i) as [a|] eqn:Ha; [|reflexivity].
  destruct (pass_bodies st !! j) as [b|] eqn:Hb; [|reflexivity].
  destruct (merged b); [reflexivity|].
  destruct (Rlt_dec _ _); [|reflexivity].
  destruct (pass_fragments st); cbn [pass_bodies];
    eapply fmap_insert2_same; eauto.
Qed.

Lemma collide_row_frame (rnd : nat -> R) (i : nat) (st : Pass) :
  f <$> pass_bodies (collide_row rnd i st) = f <$> pass_bodies st.
Proof using f_merged f_merge_into.
  unfold collide_row.
  destruct (pass_bodies st !! i) as [a|]; [|reflexivity].
  destruct (merged a); [reflexivity|].
  apply (fold_left_inv (fun st' => f <$> pass_bodies st' = f <$> pass_bodies st));
    [reflexivity|].
  intros st' j H. now rewrite collide_frame.
Qed.

Lemma _handleCollisions_frame (rnd : nat -> R) (bs : list CelestialBody)
    (star : option Star) (fr : option (list Fragment)) (k : nat) :
  f <$> pass_bodies (_handleCollisions rnd bs star fr k) = f <$> bs.
Proof using f_merged f_merge_into.
  unfold _handleCollisions.
  set (bs' := match star with Some s => absorb s <$> bs | None => bs end).
  assert (Hbs : f <$> bs' = f <$> bs).
  { subst bs'. destruct star as [s|]; [|reflexivity].
    rewrite <- list_fmap_compose. apply list_fmap_ext. intros _ b _.
    cbn. unfold absorb. destruct (Rlt_dec _ _); [apply f_merged|reflexivity]. }
  rewrite <- Hbs.
  apply (fold_left_inv (fun st' => f <$> pass_bodies st' = f <$> bs'));
    [reflexivity|].
  intros st' i H. now rewrite collide_row_frame.
Qed.
End ResolverFrame.

Lemma _computeAccelerations_frame {B : Type} (f : CelestialBody -> B)
    (bs : list CelestialBody) (star : option Star) :
  (forall b u, f (with_acceleration b u) = f b) ->
  f <$> _computeAccelerations bs star = f <$> bs.
Proof.
  intros Hf. apply list_eq. intros k. rewrite !list_lookup_fmap.
  destruct (bs !! k) as [b|] eqn:Hk.
  - rewrite (_computeAccelerations_lookup bs star k b Hk). cbn. now rewrite Hf.
  - rewrite (lookup_ge_None_2 (_computeAccelerations bs star) k); [reflexivity|].
    rewrite _computeAccelerations_length. now apply lookup_ge_None.
Qed.

(** ** Trails *)

Lemma record_trail_length (b : CelestialBody) :
  length (trail (record_trail b)) = grow (length (trail b)).
Proof.
  unfold record_trail, grow. cbn [trail with_trail].
  rewrite length_app. cbn [length]. rewrite Nat.add_1_r.
  destruct (TRAIL_MAX_LENGTH <? S (length (trail b)))%nat; [|now rewrite length_app, Nat.add_1_r].
  destruct (trail b) as [|p t]; [reflexivity|].
  cbn [app tail length]. now rewrite length_app, Nat.add_1_r.
Qed.

(** A push goes at the end; over the cap the oldest entry goes. *)
Lemma record_trail_push (b : CelestialBody) :
  let p := {| x := x (position b); y := y (position b) |} in
  ((length (trail b) < TRAIL_MAX_LENGTH)%nat -> trail (record_trail b) = trail b ++ [p]) /\
  ((TRAIL_MAX_LENGTH <= length (trail b))%nat ->
     trail (record_trail b) = tail (trail b) ++ [p]).
Proof.
  intros p. unfold record_trail. cbn [trail with_trail]. fold p.
  rewrite length_app. cbn [length]. rewrite Nat.add_1_r. split; intros H.
  - destruct (Nat.ltb_spec TRAIL_MAX_LENGTH (S (length (trail b)))); [lia|reflexivity].
  - destruct (Nat.ltb_spec TRAIL_MAX_LENGTH (S (length (trail b)))); [|lia].
    destruct (trail b) as [|q t]; [unfold TRAIL_MAX_LENGTH in H; simpl in H; lia|reflexivity].
Qed.

Lemma grow_iter (m n : nat) :
  (n <= TRAIL_MAX_LENGTH)%nat ->
  Nat.iter m grow n = Nat.min (n + m) TRAIL_MAX_LENGTH.
Proof.
  intros Hn. induction m as [|m IH].
  - simpl. lia.
  - rewrite Nat.iter_succ, IH. unfold grow.
    destruct (Nat.ltb_spec TRAIL_MAX_LENGTH (S (Nat.min (n + m) TRAIL_MAX_LENGTH))); lia.
Qed.

Lemma fmap_fmap_ext {A B C : Type} (f : B -> C) (g : A -> B) (h : A -> C) (l : list A) :
  (forall a, f (g a) = h a) -> f <$> (g <$> l) = h <$> l.
Proof.
  intros H. rewrite <- list_fmap_compose. apply list_fmap_ext. intros _ a _. apply H.
Qed.

Lemma substep_trail_lengths (rnd : nat -> R) (star : option Star) (dt : R)
    (options : Options) (w : World) :
  (fun b => length (trail b)) <$> bodies (substep rnd star dt options w)
  = (fun b => grow (length (trail b))) <$> bodies w.
Proof.
  unfold substep. cbn [bodies].
  rewrite (_handleCollisions_frame (fun b => length (trail b))) by reflexivity.
  rewrite (fmap_fmap_ext _ record_trail (fun b => grow (length (trail b))))
    by apply record_trail_length.
  rewrite (fmap_fmap_ext _ (kick dt) (fun b => grow (length (trail b)))) by reflexivity.
  rewrite (_computeAccelerations_frame (fun b => grow (length (trail b)))) by reflexivity.
  rewrite (fmap_fmap_ext _ (kick_drift dt) (fun b => grow (length (trail b)))) by reflexivity.
  now rewrite (_computeAccelerations_frame (fun b => grow (length (trail b)))) by reflexivity.
Qed.

Lemma substep_trail_lengths_under (h : nat -> nat) (rnd : nat -> R) (star : option Star)
    (dt : R) (options : Options) (w : World) :
  (fun b => h (length (trail b))) <$> bodies (substep rnd star dt options w)
  = (fun b => h (grow (length (trail b)))) <$> bodies w.
Proof.
  rewrite <- (fmap_fmap_ext h (fun b => length (trail b)) (fun b => h (length (trail b))))
    by reflexivity.
  rewrite substep_trail_lengths. now apply fmap_fmap_ext.
Qed.

Lemma step_trail_lengths (rnd : nat -> R) (bs : list CelestialBody) (star : option Star)
    (t : R) (options : Options) (k : nat) :
  (fun b => length (trail b)) <$> bodies (step rnd bs star t options k)
  = (fun b => Nat.iter 4 grow (length (trail b))) <$> bs.
Proof.
  unfold step, SUBSTEPS. cbn [seq fold_left].
  rewrite substep_trail_lengths.
  rewrite (substep_trail_lengths_under grow).
  rewrite (substep_trail_lengths_under (fun n => grow (grow n))).
  rewrite (substep_trail_lengths_under (fun n => grow (grow (grow n)))).
  reflexivity.
Qed.

Lemma fold_step_trail_lengths (rnd : nat -> R) (star : option Star) (options : Options)
    (frames : list R) (w0 : World) :
  (fun b => length (trail b))
    <$> bodies (fold_left (fun w t => step rnd (bodies w) star t options (drawn w)) frames w0)
  = (fun b => Nat.iter (4 * length frames) grow (length (trail b))) <$> bodies w0.
Proof.
  induction frames as [|t frames IH] using rev_ind.
  - cbn. apply list_fmap_ext. intros _ b _. reflexivity.
  - rewrite fold_left_app. cbn [fold_left].
    rewrite step_trail_lengths.
    rewrite <- (fmap_fmap_ext (Nat.iter 4 grow) (fun b => length (trail b))
                  (fun b => Nat.iter 4 grow (length (trail b)))) by reflexivity.
    rewrite IH. apply fmap_fmap_ext. intros b.
    rewrite length_app. cbn [length].
    replace (4 * (length frames + 1))%nat with (4 + 4 * length frames)%nat by lia.
    now rewrite Nat.iter_add.
Qed.

Lemma run_trail_lengths (rnd : nat -> R) (star : option Star) (options : Options)
    (frames : list R) (bs : list CelestialBody) (k : nat) :
  (fun b => length (trail b)) <$> bodies (run rnd star options frames bs k)
  = (fun b => Nat.iter (4 * length frames) grow (length (trail b))) <$> bs.
Proof. unfold run. now rewrite fold_step_trail_lengths. Qed.

(** C9 (as the code has it). A push appends the current position at the
    end of the trail and, when that makes more than 300 entries, drops the
    oldest.  A trail of at most 300 entries of a body that stays in the
    array through a number of calls to [step] has afterwards
    [min (entries + 4 * calls) 300] entries - every call records 4
    positions, one per substep; in particular it never holds more than 300,
    and a trail that was empty holds [min (4 * calls) 300]. *)
Theorem trail_length_after_steps (rnd : nat -> R) (star : option Star)
    (options : Options) (frames : list R) (bs : list CelestialBody) (drawn0 : nat)
    (k : nat) (b : CelestialBody) :
  bs !! k = Some b ->
  (length (trail b) <= 300)%nat ->
  (exists b',
     bodies (run rnd star options frames bs drawn0) !! k = Some b' /\
     length (trail b') = Nat.min (length (trail b) + 4 * length frames) 300 /\
     (length (trail b') <= 300)%nat /\
     (trail b = [] -> length (trail b') = Nat.min (4 * length frames) 300)) /\
  (forall c : CelestialBody,
     let p := {| x := x (position c); y := y (position c) |} in
     ((length (trail c) < 300)%nat -> trail (record_trail c) = trail c ++ [p]) /\
     ((300 <= length (trail c))%nat -> trail (record_trail c) = tail (trail c) ++ [p])).
Proof.
  intros Hk Hlen. split; [|intros c; apply record_trail_push].
  pose proof (run_trail_lengths rnd star options frames bs drawn0) as H.
  assert (Hk' : ((fun b => length (trail b)) <$> bodies (run rnd star options frames bs drawn0))
                !! k = Some (Nat.iter (4 * length frames) grow (length (trail b)))).
  { rewrite H, list_lookup_fmap, Hk. reflexivity. }
  rewrite list_lookup_fmap in Hk'.
  destruct (bodies (run rnd star options frames bs drawn0) !! k) as [b'|]; [|discriminate].
  injection Hk' as Hb'. rewrite grow_iter in Hb' by exact Hlen.
  unfold TRAIL_MAX_LENGTH in Hb'.
  exists b'. split; [reflexivity|]. split; [exact Hb'|]. split; [lia|].
  intros Hnil. rewrite Hb', Hnil. reflexivity.
Qed.

Lemma trail_length_after_steps_witness :
  let b := {| id := 1; position := {| x := 100; y := 0 |};
              velocity := {| vx := 0; vy := 10 |}; mass := 100; radius := 8;
              color := "#4fc3f7"; type := planet; trail := [];
              acceleration := {| ax := 0; ay := 0 |};
              escaped := false; merged := false |} in
  exists b',
    bodies (run (fun _ => 0.5) None {| explosions := false |} [0.016; 0.016; 0.016] [b] 0)
      !! 0%nat = Some b' /\
    length (trail b') = 12%nat.
Proof.
  intros b.
  destruct (trail_length_after_steps (fun _ => 0.5) None {| explosions := false |}
              [0.016; 0.016; 0.016] [b] 0 0 b) as [(b' & Hb' & Hl & _) _].
  - reflexivity.
  - simpl. lia.
  - exists b'. split; [exact Hb'|]. rewrite Hl. reflexivity.
Defined.

(** C9, the claim as stated fails: after one call to [step] the trail of a
    body created with an empty trail holds 4 entries, not [min 1 300 = 1]. *)
Lemma trail_length_counterexample :
  let b := {| id := 1; position := {| x := 100; y := 0 |};
              velocity := {| vx := 0; vy := 10 |}; mass := 100; radius := 8;
              color := "#4fc3f7"; type := planet; trail := [];
              acceleration := {| ax := 0; ay := 0 |};
              escaped := false; merged := false |} in
  exists b',
    bodies (step (fun _ => 0.5) [b] None 0.016 {| explosions := false |} 0) !! 0%nat
    = Some b' /\
    length (trail b') = 4%nat /\
    length (trail b') <> Nat.min 1 300.
Proof.
  intros b.
  pose proof (step_trail_lengths (fun _ => 0.5) [b] None 0.016 {| explosions := false |} 0) as H.
  destruct (bodies (step (fun _ => 0.5) [b] None 0.016 {| explosions := false |} 0))
    as [|b' l]; [discriminate|].
  injection H as Hl _. exists b'. split; [reflexivity|].
  assert (Hl4 : length (trail b') = 4%nat) by (rewrite Hl; reflexivity).
  split; [exact Hl4|]. rewrite Hl4. simpl. lia.
Qed.

(** ** The zero-time step *)



Lemma fmap_fixed {A : Type} (f : A -> A) (l : list A) :
  (forall k a, l !! k = Some a -> f a = a) -> f <$> l = l.
Proof.
  intros H. rewrite <- (list_fmap_id l) at 2.
  apply list_fmap_ext. intros k a Hk. exact (H k a Hk).
Qed.

Lemma fold_left_fixed {A B : Type} (f : A -> B -> A) (l : list B) (a : A) :
  (forall b, In b l -> f a b = a) -> fold_left f l a = a.
Proof.
  induction l as [|b l IH]; intros H; [reflexivity|].
  cbn [fold_left]. rewrite H by (left; reflexivity).
  apply IH. intros b' Hb'. apply H. now right.
Qed.

Lemma with_merged_same (b : CelestialBody) : merged b = true -> with_merged b true = b.
Proof. destruct b. cbn. intros ->. reflexivity. Qed.

(** With nothing in contact the resolver changes nothing. *)
Lemma _handleCollisions_no_contact (rnd : nat -> R) (bs : list CelestialBody)
    (star : option Star) (fr : option (list Fragment)) (k : nat) :
  no_contact star bs ->
  _handleCollisions rnd bs star fr k
  = {| pass_bodies := bs; pass_fragments := fr; pass_drawn := k |}.
Proof.
  intros [Hstar Hpair]. unfold _handleCollisions.
  assert (Habs : match star with Some s => absorb s <$> bs | None => bs end = bs).
  { destruct star as [s|]; [|reflexivity].
    apply fmap_fixed. intros i b Hi. unfold absorb.
    destruct (Rlt_dec _ _) as [Hlt|]; [|reflexivity].
    destruct (merged b) eqn:Hm; [now apply with_merged_same|].
    exfalso. exact (Hstar s i b eq_refl Hi Hm Hlt). }
  rewrite Habs.
  apply fold_left_fixed. intros i _. unfold collide_row. cbn [pass_bodies].
  destruct (bs !! i) as [a|] eqn:Ha; [|reflexivity].
  destruct (merged a) eqn:Hma; [reflexivity|].
  apply fold_left_fixed. intros j Hj. apply in_seq in Hj.
  unfold collide. cbn [pass_bodies]. rewrite Ha.
  destruct (bs !! j) as [b|] eqn:Hb; [|reflexivity].
  destruct (merged b) eqn:Hmb; [reflexivity|].
  destruct (Rlt_dec _ _) as [Hlt|]; [|reflexivity].
  exfalso. apply (Hpair i j a b); try assumption. lia.
Qed.










(** * Further properties of the engine *)

(** ** Sums over an array updated in place *)

Lemma fold_left_inv_in {A B : Type} (P : A -> Prop) (f : A -> B -> A) (l : list B) (a : A) :
  P a -> (forall a' b, In b l -> P a' -> P (f a' b)) -> P (fold_left f l a).
Proof.
  revert a. induction l as [|b l IH]; intros a Ha Hstep; simpl; [assumption|].
  apply IH.
  - apply Hstep; [now left|assumption].
  - intros a' b' Hb'. apply Hstep. now right.
Qed.

Lemma Rsum_insert {A : Type} (f : A -> R) (l : list A) (i : nat) (a a' : A) :
  l !! i = Some a -> Rsum (f <$> <[i := a']> l) = Rsum (f <$> l) - f a + f a'.
Proof.
  revert i. induction l as [|c l IH]; intros i Hi; [discriminate Hi|].
  destruct i as [|i].
  - injection Hi as ->. change (<[0%nat := a']> (a :: l)) with (a' :: l).
    rewrite !fmap_cons. cbn [Rsum]. lra.
  - change (<[S i := a']> (c :: l)) with (c :: <[i := a']> l).
    change ((c :: l) !! S i) with (l !! i) in Hi.
    rewrite !fmap_cons. cbn [Rsum]. rewrite (IH i Hi). lra.
Qed.

Lemma Rsum_insert2 {A : Type} (f : A -> R) (l : list A) (i j : nat) (a a' b b' : A) :
  i <> j -> l !! i = Some a -> l !! j = Some b ->
  Rsum (f <$> <[j := b']> (<[i := a']> l))
  = Rsum (f <$> l) + (f a' - f a) + (f b' - f b).
Proof.
  intros Hij Hi Hj.
  rewrite (Rsum_insert f (<[i := a']> l) j b b')
    by (rewrite list_lookup_insert_ne by exact Hij; exact Hj).
  rewrite (Rsum_insert f l i a a' Hi). lra.
Qed.

(** ** The total force *)

Lemma pair_pull_total_force (i j : nat) (bs : list CelestialBody) :
  i <> j ->
  total_force_x (pair_pull i j bs) = total_force_x bs /\
  total_force_y (pair_pull i j bs) = total_force_y bs.
Proof.
  intros Hij.
  destruct (bs !! i) as [a|] eqn:Ha;
    [|unfold pair_pull; rewrite Ha; split; reflexivity].
  destruct (bs !! j) as [b|] eqn:Hb;
    [|unfold pair_pull; rewrite Ha, Hb; split; reflexivity].
  rewrite (pair_pull_eq i j bs a b Ha Hb).
  pose proof (softened_pull_opposite (mass a) (mass b) (position a) (position b)) as Hopp.
  assert (Hx : mass a * ax (softened_pull (mass b) (position a) (position b))
               = - mass b * ax (softened_pull (mass a) (position b) (position a)))
    by exact (f_equal ax Hopp).
  assert (Hy : mass a * ay (softened_pull (mass b) (position a) (position b))
               = - mass b * ay (softened_pull (mass a) (position b) (position a)))
    by exact (f_equal ay Hopp).
  unfold total_force_x, total_force_y.
  rewrite !(Rsum_insert2 _ bs i j a _ b _ Hij Ha Hb).
  cbn [mass acceleration with_acceleration vadd ax ay]. split; lra.
Qed.

Lemma pull_rows_total_force (bs : list CelestialBody) (rows : list nat) :
  total_force_x (fold_left (fun bs i => pull_row i bs) rows bs) = total_force_x bs /\
  total_force_y (fold_left (fun bs i => pull_row i bs) rows bs) = total_force_y bs.
Proof.
  apply (fold_left_inv (fun bs' => total_force_x bs' = total_force_x bs /\
                                   total_force_y bs' = total_force_y bs));
    [split; reflexivity|].
  intros bs' i [Hx Hy]. unfold pull_row.
  apply (fold_left_inv_in (fun bs'' => total_force_x bs'' = total_force_x bs /\
                                       total_force_y bs'' = total_force_y bs));
    [split; assumption|].
  intros bs'' j Hj [Hx' Hy']. apply in_seq in Hj.
  destruct (pair_pull_total_force i j bs'') as [-> ->]; [lia|]. split; assumption.
Qed.

Lemma _computeAccelerations_total_force (bs : list CelestialBody) (star : option Star) :
  total_force_x (_computeAccelerations bs star)
  = Rsum ((fun b => mass b * ax (star_term star b)) <$> bs) /\
  total_force_y (_computeAccelerations bs star)
  = Rsum ((fun b => mass b * ay (star_term star b)) <$> bs).
Proof.
  rewrite _computeAccelerations_star_phase.
  destruct (pull_rows_total_force (star_phase star <$> bs) (seq 0 (length bs))) as [-> ->].
  unfold total_force_x, total_force_y.
  split; f_equal; apply fmap_fmap_ext; intros b; rewrite star_phase_eq; reflexivity.
Qed.

(** X1. Internal forces cancel: after a force-accumulation pass the total
    force, the sum of mass times acceleration over all bodies, is the sum of
    the star's pulls alone: the body-body pulls cancel pair by pair.  With
    no star the total force is zero. *)
Theorem internal_forces_cancel (bs : list CelestialBody) (star : option Star) :
  total_force_x (_computeAccelerations bs star)
  = Rsum ((fun b => mass b * ax (star_term star b)) <$> bs) /\
  total_force_y (_computeAccelerations bs star)
  = Rsum ((fun b => mass b * ay (star_term star b)) <$> bs) /\
  total_force_x (_computeAccelerations bs None) = 0 /\
  total_force_y (_computeAccelerations bs None) = 0.
Proof.
  destruct (_computeAccelerations_total_force bs star) as [Hx Hy].
  destruct (_computeAccelerations_total_force bs None) as [Hx0 Hy0].
  split; [exact Hx|]. split; [exact Hy|].
  rewrite Hx0, Hy0. cbn [star_term vzero ax ay].
  rewrite !(Rsum_fmap_ext _ (fun _ => 0)) by (intros; lra).
  rewrite !Rsum_fmap_const. split; lra.
Qed.

(** ** Momentum through the integration phases *)

Lemma Rsum_fmap_affine {A : Type} (f g : A -> R) (c : R) (l : list A) :
  Rsum ((fun a => f a + c * g a) <$> l) = Rsum (f <$> l) + c * Rsum (g <$> l).
Proof. now rewrite Rsum_fmap_plus, Rsum_fmap_scale. Qed.

Lemma half_kick_totals (delta : R) (bs : list CelestialBody) :
  total_momentum_x (half_kick delta <$> bs)
  = total_momentum_x bs + 0.5 * delta * total_force_x bs /\
  total_momentum_y (half_kick delta <$> bs)
  = total_momentum_y bs + 0.5 * delta * total_force_y bs /\
  mass_moment_x (half_kick delta <$> bs) = mass_moment_x bs /\
  mass_moment_y (half_kick delta <$> bs) = mass_moment_y bs.
Proof.
  unfold total_momentum_x, total_momentum_y, total_force_x, total_force_y,
    mass_moment_x, mass_moment_y.
  repeat split.
  - rewrite <- Rsum_fmap_affine. f_equal. apply fmap_fmap_ext. intros b.
    cbn [half_kick mass velocity with_velocity vx vy]. ring.
  - rewrite <- Rsum_fmap_affine. f_equal. apply fmap_fmap_ext. intros b.
    cbn [half_kick mass velocity with_velocity vx vy]. ring.
  - f_equal. now apply fmap_fmap_ext.
  - f_equal. now apply fmap_fmap_ext.
Qed.

Lemma drift_totals (delta : R) (bs : list CelestialBody) :
  total_momentum_x (drift delta <$> bs) = total_momentum_x bs /\
  total_momentum_y (drift delta <$> bs) = total_momentum_y bs /\
  mass_moment_x (drift delta <$> bs) = mass_moment_x bs + delta * total_momentum_x bs /\
  mass_moment_y (drift delta <$> bs) = mass_moment_y bs + delta * total_momentum_y bs.
Proof.
  unfold total_momentum_x, total_momentum_y, mass_moment_x, mass_moment_y.
  repeat split.
  - f_equal. now apply fmap_fmap_ext.
  - f_equal. now apply fmap_fmap_ext.
  - rewrite <- Rsum_fmap_affine. f_equal. apply fmap_fmap_ext. intros b.
    cbn [drift mass position with_position x y]. ring.
  - rewrite <- Rsum_fmap_affine. f_equal. apply fmap_fmap_ext. intros b.
    cbn [drift mass position with_position x y]. ring.
Qed.

Lemma _computeAccelerations_totals (bs : list CelestialBody) (star : option Star) :
  total_momentum_x (_computeAccelerations bs star) = total_momentum_x bs /\
  total_momentum_y (_computeAccelerations bs star) = total_momentum_y bs /\
  mass_moment_x (_computeAccelerations bs star) = mass_moment_x bs /\
  mass_moment_y (_computeAccelerations bs star) = mass_moment_y bs.
Proof.
  unfold total_momentum_x, total_momentum_y, mass_moment_x, mass_moment_y.
  repeat split; f_equal; now apply _computeAccelerations_frame.
Qed.

Lemma record_trail_totals (bs : list CelestialBody) :
  total_momentum_x (record_trail <$> bs) = total_momentum_x bs /\
  total_momentum_y (record_trail <$> bs) = total_momentum_y bs /\
  mass_moment_x (record_trail <$> bs) = mass_moment_x bs /\
  mass_moment_y (record_trail <$> bs) = mass_moment_y bs.
Proof.
  unfold total_momentum_x, total_momentum_y, mass_moment_x, mass_moment_y.
  repeat split; f_equal; now apply fmap_fmap_ext.
Qed.

(** X2. With no star, the integration phases of a substep (accelerations,
    half-kick, drift, accelerations, half-kick, trail) conserve the total
    momentum of the bodies and move their mass moment (total mass times
    centre of mass) by [delta] times the total momentum: the centre of mass
    moves uniformly.  The substep is these phases followed by the collision
    pass. *)
Theorem integration_conserves_momentum (rnd : nat -> R) (delta : R) (options : Options)
    (w : World) :
  let w' := fold_left (run_phase rnd None delta options) integration_schedule w in
  total_momentum_x (bodies w') = total_momentum_x (bodies w) /\
  total_momentum_y (bodies w') = total_momentum_y (bodies w) /\
  mass_moment_x (bodies w') = mass_moment_x (bodies w) + delta * total_momentum_x (bodies w) /\
  mass_moment_y (bodies w') = mass_moment_y (bodies w) + delta * total_momentum_y (bodies w) /\
  substep rnd None delta options w = run_phase rnd None delta options w' Collide.
Proof.
  intros w'.
  assert (Hsub : substep rnd None delta options w = run_phase rnd None delta options w' Collide).
  { rewrite substep_staged. unfold w', substep_schedule, integration_schedule.
    reflexivity. }
  unfold w', integration_schedule.
  cbn [fold_left run_phase with_bodies bodies].
  set (B1 := _computeAccelerations (bodies w) None).
  set (B2 := half_kick delta <$> B1).
  set (B3 := drift delta <$> B2).
  set (B4 := _computeAccelerations B3 None).
  set (B5 := half_kick delta <$> B4).
  destruct (_computeAccelerations_totals (bodies w) None) as (P1x & P1y & Q1x & Q1y).
  destruct (_computeAccelerations_total_force (bodies w) None) as (F1x & F1y).
  destruct (half_kick_totals delta B1) as (P2x & P2y & Q2x & Q2y).
  destruct (drift_totals delta B2) as (P3x & P3y & Q3x & Q3y).
  destruct (_computeAccelerations_totals B3 None) as (P4x & P4y & Q4x & Q4y).
  destruct (_computeAccelerations_total_force B3 None) as (F4x & F4y).
  destruct (half_kick_totals delta B4) as (P5x & P5y & Q5x & Q5y).
  destruct (record_trail_totals B5) as (P6x & P6y & Q6x & Q6y).
  fold B1 in P1x, P1y, Q1x, Q1y, F1x, F1y.
  fold B2 in P2x, P2y, Q2x, Q2y.
  fold B3 in P3x, P3y, Q3x, Q3y.
  fold B4 in P4x, P4y, Q4x, Q4y, F4x, F4y.
  fold B5 in P5x, P5y, Q5x, Q5y.
  cbn [star_term vzero ax ay] in F1x, F1y, F4x, F4y.
  rewrite !(Rsum_fmap_ext _ (fun _ => 0)) in F1x, F1y, F4x, F4y by (intros; lra).
  rewrite !Rsum_fmap_const in F1x, F1y, F4x, F4y.
  rewrite Rmult_0_r in F1x, F1y, F4x, F4y.
  rewrite F1x in P2x. rewrite F1y in P2y. rewrite F4x in P5x. rewrite F4y in P5y.
  assert (E2x : total_momentum_x B2 = total_momentum_x (bodies w)) by lra.
  assert (E2y : total_momentum_y B2 = total_momentum_y (bodies w)) by lra.
  rewrite E2x in Q3x. rewrite E2y in Q3y.
  split; [|split; [|split; [|split; [|exact Hsub]]]]; lra.
Qed.

(** ** The merge policy over a whole pass *)

Lemma collide_merge_no_draw (rnd : nat -> R) (i j : nat) (st : Pass) :
  pass_fragments st = None ->
  pass_fragments (collide rnd i j st) = None /\
  pass_drawn (collide rnd i j st) = pass_drawn st.
Proof.
  intros Hfr. unfold collide.
  destruct (pass_bodies st !! i) as [a|]; [|now split].
  destruct (pass_bodies st !! j) as [b|]; [|now split].
  destruct (merged b); [now split|].
  destruct (Rlt_dec _ _); [|now split].
  rewrite Hfr. split; reflexivity.
Qed.

Lemma _handleCollisions_merge_no_draw (rnd : nat -> R) (bs : list CelestialBody)
    (star : option Star) (drawn0 : nat) :
  pass_fragments (_handleCollisions rnd bs star None drawn0) = None /\
  pass_drawn (_handleCollisions rnd bs star None drawn0) = drawn0.
Proof.
  unfold _handleCollisions.
  apply (fold_left_inv (fun st => pass_fragments st = None /\ pass_drawn st = drawn0));
    [split; reflexivity|].
  intros st i [Hfr Hdr]. unfold collide_row.
  destruct (pass_bodies st !! i) as [a|]; [|now split].
  destruct (merged a); [now split|].
  apply (fold_left_inv (fun st' => pass_fragments st' = None /\ pass_drawn st' = drawn0));
    [now split|].
  intros st' j [Hfr' Hdr'].
  destruct (collide_merge_no_draw rnd i j st' Hfr') as [-> ->]. now split.
Qed.

Lemma collide_merge_live (rnd : nat -> R) (i j : nat) (st : Pass) (a : CelestialBody) :
  pass_fragments st = None ->
  Forall (fun b => 0 < mass b) (pass_bodies st) ->
  i <> j ->
  pass_bodies st !! i = Some a -> merged a = false ->
  Forall (fun b => 0 < mass b) (pass_bodies (collide rnd i j st)) /\
  live_mass (pass_bodies (collide rnd i j st)) = live_mass (pass_bodies st) /\
  live_momentum_x (pass_bodies (collide rnd i j st)) = live_momentum_x (pass_bodies st) /\
  live_momentum_y (pass_bodies (collide rnd i j st)) = live_momentum_y (pass_bodies st).
Proof.
  intros Hfr Hpos Hij Ha Hma. unfold collide. rewrite Ha.
  destruct (pass_bodies st !! j) as [b|] eqn:Hb; [|now repeat split].
  destruct (merged b) eqn:Hmb; [now repeat split|].
  destruct (Rlt_dec _ _); [|now repeat split].
  rewrite Hfr. cbn [pass_bodies].
  assert (Hpa : 0 < mass a) by exact (Forall_lookup_1 _ _ _ _ Hpos Ha).
  assert (Hpb : 0 < mass b) by exact (Forall_lookup_1 _ _ _ _ Hpos Hb).
  destruct (merge_into_fields a b) as (_ & Hv & _ & Hm & Hmg & _).
  split.
  { apply Forall_insert; [apply Forall_insert; [exact Hpos|]|].
    - rewrite Hm. lra.
    - exact Hpb. }
  unfold live_mass, live_momentum_x, live_momentum_y.
  change (fun b0 : CelestialBody => if merged b0 then 0 else mass b0) with live_mass_of.
  change (fun b0 : CelestialBody => if merged b0 then 0 else mass b0 * vx (velocity b0))
    with live_px_of.
  change (fun b0 : CelestialBody => if merged b0 then 0 else mass b0 * vy (velocity b0))
    with live_py_of.
  rewrite !(Rsum_insert2 _ (pass_bodies st) i j a _ b _ Hij Ha Hb).
  unfold live_mass_of, live_px_of, live_py_of.
  rewrite Hmg, Hma, Hmb, Hm, Hv. cbn [merged with_merged vx vy].
  repeat split; field; lra.
Qed.

Lemma collide_row_merge_live (rnd : nat -> R) (i : nat) (st : Pass) :
  pass_fragments st = None ->
  Forall (fun b => 0 < mass b) (pass_bodies st) ->
  pass_fragments (collide_row rnd i st) = None /\
  Forall (fun b => 0 < mass b) (pass_bodies (collide_row rnd i st)) /\
  live_mass (pass_bodies (collide_row rnd i st)) = live_mass (pass_bodies st) /\
  live_momentum_x (pass_bodies (collide_row rnd i st)) = live_momentum_x (pass_bodies st) /\
  live_momentum_y (pass_bodies (collide_row rnd i st)) = live_momentum_y (pass_bodies st).
Proof.
  intros Hfr Hpos. unfold collide_row.
  destruct (pass_bodies st !! i) as [a|] eqn:Ha; [|now repeat split].
  destruct (merged a) eqn:Hma; [now repeat split|].
  set (Inv := fun st' : Pass =>
    (pass_fragments st' = None /\
     exists a', pass_bodies st' !! i = Some a' /\ merged a' = false) /\
    Forall (fun b => 0 < mass b) (pass_bodies st') /\
    live_mass (pass_bodies st') = live_mass (pass_bodies st) /\
    live_momentum_x (pass_bodies st') = live_momentum_x (pass_bodies st) /\
    live_momentum_y (pass_bodies st') = live_momentum_y (pass_bodies st)).
  assert (H : Inv (fold_left (fun st' j => collide rnd i j st')
                     (seq (S i) (length (pass_bodies st) - S i)) st)).
  { apply fold_left_inv_in.
    - unfold Inv. repeat split; eauto.
    - intros st' j Hj ((Hfr' & a' & Ha' & Hma') & Hpos' & Hm & Hx & Hy).
      apply in_seq in Hj. assert (Hij : i <> j) by lia.
      destruct (collide_merge_live rnd i j st' a' Hfr' Hpos' Hij Ha' Hma')
        as (Hpos'' & Hm' & Hx' & Hy').
      unfold Inv. split; [exact (collide_merge_keeps_row_unflagged rnd i j st' a' Hfr' Hij Ha' Hma')|].
      split; [exact Hpos''|]. rewrite Hm', Hx', Hy'. now repeat split. }
  destruct H as ((Hfr' & _) & Hpos' & Hm & Hx & Hy). now repeat split.
Qed.

(** X3. Under the merge policy, with positive masses, the pair loops of a
    collision pass conserve the total mass and the total momentum of the
    live (unflagged) bodies: the live totals after the pass are those after
    the star loop; with no star, those of the bodies that entered.  Masses
    stay positive, no fragment is made and no random number is drawn. *)
Theorem merge_pass_conserves (rnd : nat -> R) (bs : list CelestialBody)
    (star : option Star) (drawn0 : nat) :
  Forall (fun b => 0 < mass b) bs ->
  let p := _handleCollisions rnd bs star None drawn0 in
  live_mass (pass_bodies p) = live_mass (after_star_loop star bs) /\
  live_momentum_x (pass_bodies p) = live_momentum_x (after_star_loop star bs) /\
  live_momentum_y (pass_bodies p) = live_momentum_y (after_star_loop star bs) /\
  after_star_loop None bs = bs /\
  Forall (fun b => 0 < mass b) (pass_bodies p) /\
  pass_fragments p = None /\ pass_drawn p = drawn0.
Proof.
  intros Hpos p.
  destruct (_handleCollisions_merge_no_draw rnd bs star drawn0) as [Hfr Hdr].
  fold p in Hfr, Hdr.
  assert (Hpos' : Forall (fun b => 0 < mass b) (after_star_loop star bs)).
  { destruct star as [s|]; [|exact Hpos]. cbn [after_star_loop].
    apply Forall_fmap. eapply Forall_impl; [exact Hpos|].
    intros b Hb. cbn. unfold absorb. destruct (Rlt_dec _ _); exact Hb. }
  assert (H : pass_fragments p = None /\
              Forall (fun b => 0 < mass b) (pass_bodies p) /\
              live_mass (pass_bodies p) = live_mass (after_star_loop star bs) /\
              live_momentum_x (pass_bodies p) = live_momentum_x (after_star_loop star bs) /\
              live_momentum_y (pass_bodies p) = live_momentum_y (after_star_loop star bs)).
  { unfold p, _handleCollisions. fold (after_star_loop star bs).
    apply (fold_left_inv (fun st =>
             pass_fragments st = None /\
             Forall (fun b => 0 < mass b) (pass_bodies st) /\
             live_mass (pass_bodies st) = live_mass (after_star_loop star bs) /\
             live_momentum_x (pass_bodies st) = live_momentum_x (after_star_loop star bs) /\
             live_momentum_y (pass_bodies st) = live_momentum_y (after_star_loop star bs))).
    - now repeat split.
    - intros st i (Hfr' & Hp & Hm & Hx & Hy).
      destruct (collide_row_merge_live rnd i st Hfr' Hp) as (Hfr'' & Hp' & Hm' & Hx' & Hy').
      rewrite Hm', Hx', Hy'. now repeat split. }
  destruct H as (_ & Hp & Hm & Hx & Hy).
  repeat split; assumption.
Qed.

Lemma merge_pass_conserves_witness :
  let body := fun (n : nat) (px pvx m : R) =>
    {| id := n; position := {| x := px; y := 0 |};
       velocity := {| vx := pvx; vy := 0 |}; mass := m; radius := 3;
       color := "#4fc3f7"; type := planet; trail := [];
       acceleration := {| ax := 0; ay := 0 |};
       escaped := false; merged := false |} in
  let p := _handleCollisions (fun _ => 0.5) [body 1%nat 0 2 30; body 2%nat 1 (-1) 60]
             None None 0 in
  live_mass (pass_bodies p) = 30 + (60 + 0) /\
  live_momentum_x (pass_bodies p) = 30 * 2 + (60 * -1 + 0).
Proof.
  intros body p.
  destruct (merge_pass_conserves (fun _ => 0.5)
              [body 1%nat 0 2 30; body 2%nat 1 (-1) 60] None 0) as (Hm & Hx & _).
  - repeat constructor; simpl; lra.
  - split; [exact Hm|exact Hx].
Defined.

(** ** What a step leaves alone *)

Section SubstepFrame.
Context {B : Type} (f : CelestialBody -> B).
Hypothesis f_acceleration : forall b u, f (with_acceleration b u) = f b.
Hypothesis f_velocity : forall b v, f (with_velocity b v) = f b.
Hypothesis f_position : forall b p, f (with_position b p) = f b.
Hypothesis f_trail : forall b t, f (with_trail b t) = f b.

Lemma integration_frame (star : option Star) (dt : R) (bs : list CelestialBody) :
  f <$> (record_trail
           <$> (kick dt
                  <$> _computeAccelerations
                        (kick_drift dt <$> _computeAccelerations bs star) star))
  = f <$> bs.
Proof using f_acceleration f_velocity f_position f_trail.
  rewrite (fmap_fmap_ext f record_trail f) by (intros b; apply f_trail).
  rewrite (fmap_fmap_ext f (kick dt) f)
    by (intros b; unfold kick; now rewrite !f_velocity).
  rewrite (_computeAccelerations_frame f) by exact f_acceleration.
  rewrite (fmap_fmap_ext f (kick_drift dt) f)
    by (intros b; unfold kick_drift; now rewrite !f_position, !f_velocity).
  now rewrite (_computeAccelerations_frame f) by exact f_acceleration.
Qed.

Hypothesis f_merged : forall b m, f (with_merged b m) = f b.
Hypothesis f_merge_into : forall a b, f (merge_into a b) = f a.

Lemma substep_frame (rnd : nat -> R) (star : option Star) (dt : R)
    (options : Options) (w : World) :
  f <$> bodies (substep rnd star dt options w) = f <$> bodies w.
Proof using f_acceleration f_velocity f_position f_trail f_merged f_merge_into.
  unfold substep. cbn [bodies].
  rewrite (_handleCollisions_frame f f_merged f_merge_into).
  apply integration_frame.
Qed.

Lemma step_frame (rnd : nat -> R) (bs : list CelestialBody) (star : option Star)
    (t : R) (options : Options) (k : nat) :
  f <$> bodies (step rnd bs star t options k) = f <$> bs.
Proof using f_acceleration f_velocity f_position f_trail f_merged f_merge_into.
  unfold step, SUBSTEPS. cbn [seq fold_left].
  now rewrite !substep_frame.
Qed.
End SubstepFrame.

Lemma _handleCollisions_flagged_stays (rnd : nat -> R) (bs : list CelestialBody)
    (star : option Star) (fr : option (list Fragment)) (drawn0 : nat)
    (k : nat) (c : CelestialBody) :
  bs !! k = Some c -> merged c = true ->
  pass_bodies (_handleCollisions rnd bs star fr drawn0) !! k = Some c.
Proof.
  intros Hk Hm. unfold _handleCollisions.
  apply (fold_left_inv (fun st => pass_bodies st !! k = Some c)).
  - cbn [pass_bodies]. destruct star as [s|]; [|exact Hk].
    rewrite (absorb_lookup s bs k c Hk). f_equal. unfold absorb.
    destruct (Rlt_dec _ _); [now apply with_merged_same|reflexivity].
  - intros st i H. now apply collide_row_flagged_stays.
Qed.

Lemma substep_flag_stays (rnd : nat -> R) (star : option Star) (dt : R)
    (options : Options) (w : World) (k : nat) (b : CelestialBody) :
  bodies w !! k = Some b -> merged b = true ->
  exists b', bodies (substep rnd star dt options w) !! k = Some b' /\ merged b' = true.
Proof.
  intros Hk Hm. unfold substep. cbn [bodies].
  set (L := record_trail
              <$> (kick dt
                     <$> _computeAccelerations
                           (kick_drift dt <$> _computeAccelerations (bodies w) star) star)).
  assert (HL : merged <$> L = merged <$> bodies w)
    by (apply integration_frame; reflexivity).
  assert (HLk : (merged <$> L) !! k = Some true)
    by (rewrite HL, list_lookup_fmap, Hk; cbn; now rewrite Hm).
  rewrite list_lookup_fmap in HLk.
  destruct (L !! k) as [c|] eqn:Hc; [|discriminate HLk].
  injection HLk as Hmc.
  exists c. split; [|exact Hmc].
  now apply _handleCollisions_flagged_stays.
Qed.

Lemma step_flag_stays (rnd : nat -> R) (bs : list CelestialBody) (star : option Star)
    (t : R) (options : Options) (drawn0 : nat) (k : nat) (b : CelestialBody) :
  bs !! k = Some b -> merged b = true ->
  exists b', bodies (step rnd bs star t options drawn0) !! k = Some b' /\ merged b' = true.
Proof.
  intros Hk Hm. unfold step, SUBSTEPS. cbn [seq fold_left].
  set (w0 := {| bodies := bs; fragments := []; drawn := drawn0 |}).
  destruct (substep_flag_stays rnd star (t / INR 4) options w0 k b Hk Hm) as (b1 & H1 & M1).
  destruct (substep_flag_stays rnd star (t / INR 4) options _ k b1 H1 M1) as (b2 & H2 & M2).
  destruct (substep_flag_stays rnd star (t / INR 4) options _ k b2 H2 M2) as (b3 & H3 & M3).
  exact (substep_flag_stays rnd star (t / INR 4) options _ k b3 H3 M3).
Qed.

(** X4. A call to [step] keeps the number of bodies and, slot by slot,
    every body's id, colour, kind and [escaped] flag (the engine never flags
    an escape); and it never clears a [merged] flag. *)
Theorem step_keeps_identity (rnd : nat -> R) (bs : list CelestialBody)
    (star : option Star) (t : R) (options : Options) (drawn0 : nat) :
  let w := step rnd bs star t options drawn0 in
  length (bodies w) = length bs /\
  forall k b, bs !! k = Some b ->
    exists b',
      bodies w !! k = Some b' /\
      id b' = id b /\ color b' = color b /\ type b' = type b /\
      escaped b' = escaped b /\
      (merged b = true -> merged b' = true).
Proof.
  intros w.
  pose proof (step_frame (fun b => (id b, color b, type b, escaped b))
                ltac:(reflexivity) ltac:(reflexivity) ltac:(reflexivity)
                ltac:(reflexivity) ltac:(reflexivity) ltac:(reflexivity)
                rnd bs star t options drawn0) as Hf.
  fold w in Hf.
  split.
  { rewrite <- (length_fmap (fun b => (id b, color b, type b, escaped b))), Hf.
    apply length_fmap. }
  intros k b Hk.
  assert (Hk' : ((fun b => (id b, color b, type b, escaped b)) <$> bodies w) !! k
                = Some (id b, color b, type b, escaped b))
    by (rewrite Hf, list_lookup_fmap, Hk; reflexivity).
  rewrite list_lookup_fmap in Hk'.
  destruct (bodies w !! k) as [b'|] eqn:Hb'; [|discriminate Hk'].
  injection Hk' as Hid Hc Hty He.
  exists b'. split; [reflexivity|]. split; [exact Hid|]. split; [exact Hc|].
  split; [exact Hty|]. split; [exact He|].
  intros Hm.
  destruct (step_flag_stays rnd bs star t options drawn0 k b Hk Hm) as (b'' & Hb'' & Hm'').
  fold w in Hb''. rewrite Hb' in Hb''. injection Hb'' as <-. exact Hm''.
Qed.

Lemma step_keeps_identity_witness :
  let b := {| id := 7; position := {| x := 100; y := 0 |};
              velocity := {| vx := 0; vy := 10 |}; mass := 100; radius := 8;
              color := "#4fc3f7"; type := planet; trail := [];
              acceleration := {| ax := 0; ay := 0 |};
              escaped := false; merged := true |} in
  exists b',
    bodies (step (fun _ => 0.5) [b] None 0.016 {| explosions := true |} 0) !! 0%nat = Some b' /\
    id b' = 7%nat /\ merged b' = true.
Proof.
  intros b.
  destruct (step_keeps_identity (fun _ => 0.5) [b] None 0.016 {| explosions := true |} 0)
    as (_ & H).
  destruct (H 0%nat b eq_refl) as (b' & Hb' & Hid & _ & _ & _ & Hm).
  exists b'. split; [exact Hb'|]. split; [exact Hid|]. apply Hm. reflexivity.
Defined.

(** ** Steps under the merge policy *)

Lemma substep_merge_no_fragments (rnd : nat -> R) (star : option Star) (dt : R)
    (options : Options) (w : World) :
  explosions options = false ->
  fragments (substep rnd star dt options w) = fragments w /\
  drawn (substep rnd star dt options w) = drawn w.
Proof.
  intros He. unfold substep. rewrite He. cbn [fragments drawn].
  match goal with
  | |- context [_handleCollisions rnd ?L star None (drawn w)] =>
      destruct (_handleCollisions_merge_no_draw rnd L star (drawn w)) as [-> ->]
  end.
  split; reflexivity.
Qed.

(** X5. With [options.explosions] off, [step] returns an empty fragment
    list and draws no random number, whatever collides. *)
Theorem step_merge_no_fragments (rnd : nat -> R) (bs : list CelestialBody)
    (star : option Star) (t : R) (options : Options) (drawn0 : nat) :
  explosions options = false ->
  fragments (step rnd bs star t options drawn0) = [] /\
  drawn (step rnd bs star t options drawn0) = drawn0.
Proof.
  intros He. unfold step, SUBSTEPS. cbn [seq fold_left].
  set (w0 := {| bodies := bs; fragments := []; drawn := drawn0 |}).
  destruct (substep_merge_no_fragments rnd star (t / INR 4) options w0 He) as [F1 D1].
  destruct (substep_merge_no_fragments rnd star (t / INR 4) options
              (substep rnd star (t / INR 4) options w0) He) as [F2 D2].
  destruct (substep_merge_no_fragments rnd star (t / INR 4) options
              (substep rnd star (t / INR 4) options
                 (substep rnd star (t / INR 4) options w0)) He) as [F3 D3].
  destruct (substep_merge_no_fragments rnd star (t / INR 4) options
              (substep rnd star (t / INR 4) options
                 (substep rnd star (t / INR 4) options
                    (substep rnd star (t / INR 4) options w0))) He) as [F4 D4].
  split.
  - now rewrite F4, F3, F2, F1.
  - now rewrite D4, D3, D2, D1.
Qed.

Lemma step_merge_no_fragments_witness :
  let body := fun (n : nat) (px : R) =>
    {| id := n; position := {| x := px; y := 0 |};
       velocity := {| vx := 0; vy := 0 |}; mass := 30; radius := 3;
       color := "#4fc3f7"; type := planet; trail := [];
       acceleration := {| ax := 0; ay := 0 |};
       escaped := false; merged := false |} in
  fragments (step (fun _ => 0.5) [body 1%nat 0; body 2%nat 1] None 0.016
               {| explosions := false |} 0) = [].
Proof.
  intros body.
  apply (step_merge_no_fragments (fun _ => 0.5) [body 1%nat 0; body 2%nat 1] None 0.016
           {| explosions := false |} 0).
  reflexivity.
Defined.

(** ** Where the fragments go *)

Lemma kick_speed_ge_8 (a b : CelestialBody) : 8 <= kick_speed a b.
Proof. unfold kick_speed. apply Rmax_l. Qed.

Lemma fragment_radius_ge_2 (a b : CelestialBody) : 2 <= fragment_radius a b.
Proof. unfold fragment_radius. apply Rmax_l. Qed.

Lemma cos2_sin2 (t : R) : cos t * cos t + sin t * sin t = 1.
Proof. pose proof (sin2_cos2 t) as H. unfold Rsqr in H. lra. Qed.

(** X6. Every fragment of an explosion spawns on the circle of radius
    [2 * fragRadius + 3] (at least 7) around the pair's centre of mass, and
    its velocity relative to the centre of mass points from the centre to
    its spawn point: it is the offset scaled by [kick / spawnR], where, for
    draws in [0, 1), the kick lies between 0.7 and 1.3 times the kick speed
    and is at least 5.6.  The explosion takes two draws per fragment. *)
Theorem fragments_fly_outward (rnd : nat -> R) (a b : CelestialBody)
    (fr : list Fragment) (drawn0 : nat) (i : nat) (f : Fragment) :
  (forall k, 0 <= rnd k < 1) ->
  fst (_explode rnd a b fr drawn0) !! (length fr + i)%nat = Some f ->
  let cx := (x (position a) * mass a + x (position b) * mass b) / (mass a + mass b) in
  let cy := (y (position a) * mass a + y (position b) * mass b) / (mass a + mass b) in
  let spawnR := frag_radius f * 2 + 3 in
  (i < Z.to_nat (fragment_count a b))%nat /\
  7 <= spawnR /\
  (frag_x f - cx) * (frag_x f - cx) + (frag_y f - cy) * (frag_y f - cy) = spawnR * spawnR /\
  (exists kick,
     5.6 <= kick /\
     0.7 * kick_speed a b <= kick < 1.3 * kick_speed a b /\
     frag_vx f - com_vx a b = kick / spawnR * (frag_x f - cx) /\
     frag_vy f - com_vy a b = kick / spawnR * (frag_y f - cy)) /\
  snd (_explode rnd a b fr drawn0) = (drawn0 + 2 * Z.to_nat (fragment_count a b))%nat.
Proof.
  intros Hrnd Hf cx cy spawnR.
  rewrite _explode_unfold in Hf |- *. cbn [fst snd] in *.
  rewrite lookup_app_r in Hf by lia.
  replace (length fr + i - length fr)%nat with i in Hf by lia.
  rewrite list_lookup_fmap in Hf.
  destruct (seq 0 (Z.to_nat (fragment_count a b)) !! i) as [i'|] eqn:Hi; [|discriminate Hf].
  apply lookup_seq in Hi. destruct Hi as [-> Hi]. cbn [Nat.add] in Hf.
  injection Hf as <-.
  pose proof (fragment_radius_ge_2 a b) as Hr.
  pose proof (kick_speed_ge_8 a b) as Hk.
  pose proof (Hrnd (S (drawn0 + 2 * i))) as Hd.
  subst spawnR cx cy. cbn [frag_radius frag_x frag_y frag_vx frag_vy fragment_of].
  set (t := fragment_angle rnd a b drawn0 i).
  set (s := fragment_radius a b * 2 + 3).
  pose proof (cos2_sin2 t) as Hcs.
  split; [exact Hi|]. split; [unfold s; lra|]. split.
  { transitivity ((cos t * cos t + sin t * sin t) * (s * s)); [ring|].
    rewrite Hcs. ring. }
  split; [|reflexivity].
  exists (fragment_kick rnd a b drawn0 i).
  unfold fragment_kick.
  set (d := rnd (S (drawn0 + 2 * i))) in *.
  set (K := kick_speed a b) in *.
  assert (Hs : s <> 0) by (unfold s; lra).
  assert (Hlo : 0.7 * K <= K * (0.7 + d * 0.6)) by nra.
  assert (Hhi : K * (0.7 + d * 0.6) < 1.3 * K) by nra.
  split; [lra|]. split; [split; assumption|].
  set (cx := (x (position a) * mass a + x (position b) * mass b) / (mass a + mass b)).
  set (cy := (y (position a) * mass a + y (position b) * mass b) / (mass a + mass b)).
  generalize (com_vx a b) (com_vy a b). intros cvx cvy.
  split; field; exact Hs.
Qed.

Lemma fragments_fly_outward_witness :
  let body := fun (n : nat) (px : R) =>
    {| id := n; position := {| x := px; y := 0 |};
       velocity := {| vx := 0; vy := 0 |}; mass := 30; radius := 3;
       color := "#4fc3f7"; type := planet; trail := [];
       acceleration := {| ax := 0; ay := 0 |};
       escaped := false; merged := false |} in
  exists f,
    fst (_explode (fun _ => 0.5) (body 1%nat 0) (body 2%nat 1) [] 0) !! 0%nat = Some f /\
    7 <= frag_radius f * 2 + 3.
Proof.
  intros body.
  assert (HN : fragment_count (body 1%nat 0) (body 2%nat 1) = 3%Z).
  { unfold fragment_count. rewrite (round_eq 2); [reflexivity|]. simpl. lra. }
  assert (Hf : fst (_explode (fun _ => 0.5) (body 1%nat 0) (body 2%nat 1) [] 0) !! 0%nat
               = Some (fragment_of (fun _ => 0.5) (body 1%nat 0) (body 2%nat 1) 0 0)).
  { rewrite _explode_unfold, HN. reflexivity. }
  exists (fragment_of (fun _ => 0.5) (body 1%nat 0) (body 2%nat 1) 0 0).
  split; [exact Hf|].
  assert (Hrnd : forall k : nat, 0 <= (fun _ : nat => 0.5) k < 1) by (intros k; lra).
  destruct (fragments_fly_outward (fun _ => 0.5) (body 1%nat 0) (body 2%nat 1) [] 0 0
              (fragment_of (fun _ => 0.5) (body 1%nat 0) (body 2%nat 1) 0 0) Hrnd Hf)
    as (_ & H & _).
  exact H.
Defined.

(** ** Presets *)

(** X7. A preset body built at polar position [(r, theta)] with the velocity
    [vel r theta M], [r >= 1] and [M >= 0], moves tangentially (its velocity
    is orthogonal to its offset from the star, turning in the positive
    sense), at the speed [vc r M], which is the speed
    [circularOrbitVelocity] returns for its position; the helper [make] of
    the trojans preset builds such bodies for [M = 1e6]. *)
Theorem preset_orbit_is_circular (r theta M cx cy : R) :
  1 <= r -> 0 <= M ->
  let v := vel r theta M in
  let dx := r * cos theta in
  let dy := r * sin theta in
  dx * vx v + dy * vy v = 0 /\
  dx * vy v - dy * vx v = r * vc r M /\
  sqrt (vx v * vx v + vy v * vy v) = vc r M /\
  circularOrbitVelocity (cx + dx) (cy + dy) {| x := cx; y := cy |} M = vc r M /\
  (forall rad col,
     preset_dx (make theta r rad col) = r * cos theta /\
     preset_dy (make theta r rad col) = r * sin theta /\
     preset_vx (make theta r rad col) = vx (vel r theta 1000000) /\
     preset_vy (make theta r rad col) = vy (vel r theta 1000000)).
Proof.
  intros Hr HM v dx dy. subst v dx dy. cbn [vel vx vy].
  pose proof (cos2_sin2 theta) as Hcs.
  assert (Hv : 0 <= vc r M) by (unfold vc; apply sqrt_pos).
  split; [ring|]. split.
  { transitivity (r * vc r M * (cos theta * cos theta + sin theta * sin theta)); [ring|].
    rewrite Hcs. ring. }
  split.
  { replace (- sin theta * vc r M * (- sin theta * vc r M)
             + cos theta * vc r M * (cos theta * vc r M))
      with (vc r M * vc r M * (cos theta * cos theta + sin theta * sin theta)) by ring.
    rewrite Hcs, Rmult_1_r. now apply sqrt_square. }
  split; [|intros rad col; repeat split].
  unfold circularOrbitVelocity. cbn [x y].
  replace ((cx + r * cos theta - cx) * (cx + r * cos theta - cx)
           + (cy + r * sin theta - cy) * (cy + r * sin theta - cy))
    with (r * r * (cos theta * cos theta + sin theta * sin theta)) by ring.
  rewrite Hcs, Rmult_1_r, sqrt_square by lra.
  destruct (Rlt_dec r 1); [lra|]. reflexivity.
Qed.

Lemma preset_orbit_is_circular_witness :
  circularOrbitVelocity (400 + 320 * cos 0) (300 + 320 * sin 0) {| x := 400; y := 300 |} 1000000
  = vc 320 1000000.
Proof.
  destruct (preset_orbit_is_circular 320 0 1000000 400 300) as (_ & _ & _ & H & _); [lra|lra|].
  exact H.
Defined.

(** * Properties of the game loop, the input and the side panel *)

(** ** Escape detection and pruning *)

Lemma flag_escaped_cases (c : R * R) (b : CelestialBody) :
  (in_range c b /\ flag_escaped (fst c) (snd c) b = b) \/
  (~ in_range c b /\ flag_escaped (fst c) (snd c) b = with_escaped b true).
Proof.
  unfold flag_escaped, in_range. destruct (Rgt_dec _ _) as [Hgt|Hle].
  - right. split; [lra|reflexivity].
  - left. split; [lra|reflexivity].
Qed.

Lemma prune_flag_elem (c : R * R) (bs : list CelestialBody) (b : CelestialBody) :
  In b (prune (flag_escaped (fst c) (snd c) <$> bs))
  <-> In b bs /\ escaped b = false /\ merged b = false /\ in_range c b.
Proof.
  unfold prune. rewrite <- !list_elem_of_In, list_elem_of_filter, list_elem_of_fmap.
  split.
  - intros [Hkeep (b0 & -> & Hb0)].
    destruct (flag_escaped_cases c b0) as [[Hin Heq]|[_ Hout]].
    + rewrite Heq in Hkeep |- *.
      destruct (escaped b0), (merged b0); try discriminate Hkeep. now repeat split.
    + rewrite Hout in Hkeep. discriminate Hkeep.
  - intros (Hb & He & Hm & Hin). split.
    + now rewrite He, Hm.
    + exists b. split; [|exact Hb].
      destruct (flag_escaped_cases c b) as [[_ ->]|[Hout _]]; [reflexivity|contradiction].
Qed.

Lemma physics_stages_bodies (rnd : nat -> R) (cfg : Config) (dt : R) (g : Game) :
  exists bs star,
    game_bodies (physics_stages rnd cfg dt g)
    = prune (flag_escaped (fst (reference_point g)) (snd (reference_point g)) <$> bs) /\
    id <$> bs = id <$> game_bodies g /\
    (game_paused g = true \/ dt <= 0 -> bs = game_bodies g) /\
    (game_paused g = false -> dt > 0 ->
     bs = bodies (step rnd (game_bodies g) star dt {| explosions := false |} 0)).
Proof.
  unfold physics_stages, reference_point.
  destruct (game_mode g); cbn [game_bodies x y star_position fst snd].
  - eexists _, _. split; [reflexivity|]. split.
    + destruct (negb (game_paused g) && _); [|reflexivity].
      now apply (step_frame id).
    + split.
      * intros [Hp|Hdt]; [now rewrite Hp|].
        destruct (Rgt_dec dt 0); [lra|]. now rewrite andb_false_r.
      * intros Hp Hdt. rewrite Hp. destruct (Rgt_dec dt 0); [reflexivity|lra].
  - eexists _, _. split; [reflexivity|]. split.
    + destruct (negb (game_paused g) && _); [|reflexivity].
      now apply (step_frame id).
    + split.
      * intros [Hp|Hdt]; [now rewrite Hp|].
        destruct (Rgt_dec dt 0); [lra|]. now rewrite andb_false_r.
      * intros Hp Hdt. rewrite Hp. destruct (Rgt_dec dt 0); [reflexivity|lra].
Qed.

(** X8. After the physics stages of a frame (step, escape detection,
    pruning) every body left in the game is unflagged and within the escape
    radius of the reference point (the star, or the canvas centre in
    freeform mode).  When the game is paused or [dt <= 0] the stages only
    prune: the bodies left are exactly the unflagged bodies in range,
    unchanged. *)
Theorem physics_stages_prune (rnd : nat -> R) (cfg : Config) (dt : R) (g : Game) :
  (forall b, In b (game_bodies (physics_stages rnd cfg dt g)) ->
     escaped b = false /\ merged b = false /\ in_range (reference_point g) b) /\
  (game_paused g = true \/ dt <= 0 ->
   forall b, In b (game_bodies (physics_stages rnd cfg dt g))
             <-> In b (game_bodies g) /\ escaped b = false /\ merged b = false
                 /\ in_range (reference_point g) b) /\
  game_nextId (physics_stages rnd cfg dt g) = game_nextId g /\
  game_mode (physics_stages rnd cfg dt g) = game_mode g.
Proof.
  destruct (physics_stages_bodies rnd cfg dt g) as (bs & star & Hb & _ & Hidle & _).
  split; [|split; [|split; reflexivity]].
  - intros b Hin. rewrite Hb in Hin. apply prune_flag_elem in Hin. tauto.
  - intros Hp b. rewrite Hb, (Hidle Hp). apply prune_flag_elem.
Qed.

Lemma physics_stages_prune_witness :
  let far := {| id := 1; position := {| x := 9000; y := 0 |};
                velocity := {| vx := 0; vy := 0 |}; mass := 100; radius := 8;
                color := "#4fc3f7"; type := planet; trail := [];
                acceleration := {| ax := 0; ay := 0 |};
                escaped := false; merged := false |} in
  let g := {| game_bodies := [far]; game_paused := true; game_mode := star_mode;
              game_star := Star_new 400 300; game_nextId := 2;
              canvas_width := 800; canvas_height := 600 |} in
  let cfg := {| cfg_radius := 8; cfg_mass := 100; cfg_newBodyColor := "#4fc3f7";
                cfg_type := planet; cfg_starMass := 1000000 |} in
  ~ In far (game_bodies (physics_stages (fun _ => 0.5) cfg 0.016 g)).
Proof.
  intros far g cfg Hin.
  destruct (physics_stages_prune (fun _ => 0.5) cfg 0.016 g) as (_ & H & _).
  apply (H (or_introl eq_refl)) in Hin. destruct Hin as (_ & _ & _ & Hr).
  unfold in_range, reference_point, ESCAPE_RADIUS in Hr. simpl in Hr. lra.
Defined.

(** ** Spawning *)

(** X9. [_spawnBody] in star mode refuses an intent placed within
    [star.radius + cfg.radius] of the star and leaves the game as it is.
    Otherwise it appends one body with the next id, the intent's position
    and velocity, the configured mass, radius, colour and kind, an empty
    trail, zero acceleration and both flags off, and advances the id
    counter; for a non-negative radius that body does not touch the star in
    the sense of the collision resolver, so it is not absorbed where it
    spawns. *)
Theorem spawn_clear_of_star (cfg : Config) (g : Game) (intent : Intent) :
  0 <= cfg_radius cfg ->
  let s := game_star g in
  let d := sqrt ((intent_x intent - x (star_position s))
                 * (intent_x intent - x (star_position s))
                 + (intent_y intent - y (star_position s))
                   * (intent_y intent - y (star_position s))) in
  (game_mode g = star_mode -> d < star_radius s + cfg_radius cfg ->
   _spawnBody cfg g intent = g) /\
  (game_mode g = freeform_mode \/ ~ d < star_radius s + cfg_radius cfg ->
   exists b,
     game_bodies (_spawnBody cfg g intent) = game_bodies g ++ [b] /\
     game_nextId (_spawnBody cfg g intent) = S (game_nextId g) /\
     id b = game_nextId g /\
     position b = {| x := intent_x intent; y := intent_y intent |} /\
     velocity b = {| vx := intent_vx intent; vy := intent_vy intent |} /\
     mass b = cfg_mass cfg /\ radius b = cfg_radius cfg /\
     color b = cfg_newBodyColor cfg /\ type b = cfg_type cfg /\
     trail b = [] /\ acceleration b = {| ax := 0; ay := 0 |} /\
     escaped b = false /\ merged b = false /\
     (~ d < star_radius s + cfg_radius cfg -> ~ touches_star s b)).
Proof.
  intros Hr s d. split.
  - intros Hmode Hd. unfold _spawnBody. rewrite Hmode. fold s. fold d.
    destruct (Rlt_dec d (star_radius s + cfg_radius cfg)); [reflexivity|contradiction].
  - intros Hfree.
    assert (Hspawn : _spawnBody cfg g intent
              = let r := CelestialBody_new (game_nextId g)
                   {| init_x := intent_x intent; init_y := intent_y intent;
                      init_vx := Some (intent_vx intent); init_vy := Some (intent_vy intent);
                      init_mass := Some (cfg_mass cfg); init_radius := Some (cfg_radius cfg);
                      init_color := Some (cfg_newBodyColor cfg);
                      init_type := Some (cfg_type cfg) |} in
                {| game_bodies := game_bodies g ++ [fst r]; game_paused := game_paused g;
                   game_mode := game_mode g; game_star := game_star g;
                   game_nextId := snd r;
                   canvas_width := canvas_width g; canvas_height := canvas_height g |}).
    { unfold _spawnBody. destruct (game_mode g) eqn:Hmode; [|reflexivity].
      fold s. fold d.
      destruct (Rlt_dec d (star_radius s + cfg_radius cfg)) as [Hlt|_]; [|reflexivity].
      destruct Hfree as [Hf|Hf]; [discriminate Hf|contradiction]. }
    rewrite Hspawn. cbn zeta. unfold CelestialBody_new. cbn [fst snd game_bodies game_nextId].
    eexists. split; [reflexivity|]. cbn.
    repeat (split; [reflexivity|]).
    intros Hd Ht. apply Hd. unfold touches_star in Ht. cbn in Ht. fold s in Ht.
    fold d in Ht. lra.
Qed.

Lemma spawn_clear_of_star_witness :
  let g := {| game_bodies := []; game_paused := false; game_mode := star_mode;
              game_star := Star_new 0 0; game_nextId := 1;
              canvas_width := 800; canvas_height := 600 |} in
  let cfg := {| cfg_radius := 8; cfg_mass := 100; cfg_newBodyColor := "#4fc3f7";
                cfg_type := planet; cfg_starMass := 1000000 |} in
  _spawnBody cfg g {| intent_x := 3; intent_y := 4; intent_vx := 10; intent_vy := 0 |} = g.
Proof.
  intros g cfg.
  destruct (spawn_clear_of_star cfg g
              {| intent_x := 3; intent_y := 4; intent_vx := 10; intent_vy := 0 |})
    as [H _].
  - simpl. lra.
  - apply H; [reflexivity|].
    simpl. replace ((3 - 0) * (3 - 0) + (4 - 0) * (4 - 0)) with (5 * 5) by ring.
    rewrite sqrt_square; lra.
Defined.

(** ** Identifiers *)

Lemma Forall_sublist {A : Type} (P : A -> Prop) (l1 l2 : list A) :
  l1 `sublist_of` l2 -> Forall P l2 -> Forall P l1.
Proof.
  intros Hs. induction Hs as [|a l1 l2 _ IH|a l1 l2 _ IH]; intros HF.
  - constructor.
  - apply Forall_cons in HF. destruct HF as [Ha HF]. constructor; auto.
  - apply Forall_cons in HF. destruct HF as [_ HF]. auto.
Qed.

Lemma Forall_ids (n : nat) (l : list CelestialBody) :
  Forall (fun b => (id b < n)%nat) l <-> Forall (fun i => (i < n)%nat) (id <$> l).
Proof.
  induction l as [|b l IH]; [split; constructor|].
  rewrite fmap_cons, !Forall_cons, IH. reflexivity.
Qed.

Lemma ids_fresh_sublist (g : Game) (bs : list CelestialBody) :
  (id <$> bs) `sublist_of` (id <$> game_bodies g) ->
  ids_fresh g -> ids_fresh (with_game_bodies g bs).
Proof.
  intros Hs [Hnd Hlt]. split; cbn [game_bodies game_nextId with_game_bodies].
  - exact (sublist_NoDup _ _ Hnd Hs).
  - apply Forall_ids. apply (Forall_sublist _ _ _ Hs). now apply Forall_ids.
Qed.

Lemma flag_escaped_id (ecx ecy : R) (b : CelestialBody) : id (flag_escaped ecx ecy b) = id b.
Proof. unfold flag_escaped. now destruct (Rgt_dec _ _). Qed.

(** X10. Identifiers stay unique: if the ids of the bodies in the game are
    pairwise distinct and below the id counter, they still are after
    [_spawnBody], [_removeBody], [reset] and the physics stages of a frame. *)
Theorem ids_stay_fresh (rnd : nat -> R) (cfg : Config) (g : Game) :
  ids_fresh g ->
  (forall intent, ids_fresh (_spawnBody cfg g intent)) /\
  (forall i, ids_fresh (_removeBody g i)) /\
  ids_fresh (reset g) /\
  (forall dt, ids_fresh (physics_stages rnd cfg dt g)).
Proof.
  intros Hg. pose proof Hg as [Hnd Hlt]. split; [|split; [|split]].
  - intros intent. unfold _spawnBody.
    destruct (match game_mode g with star_mode => _ | freeform_mode => false end);
      [exact Hg|].
    cbn [CelestialBody_new fst snd]. unfold ids_fresh. cbn [game_bodies game_nextId].
    split.
    + rewrite fmap_app. apply NoDup_app. split; [exact Hnd|]. split.
      * intros n Hn Hn'. cbn in Hn'. apply list_elem_of_singleton in Hn'. subst n.
        apply list_elem_of_fmap in Hn. destruct Hn as (b & Hb & Hin).
        rewrite Forall_forall in Hlt. specialize (Hlt b Hin). cbn in Hb. lia.
      * apply NoDup_singleton.
    + apply Forall_app. split.
      * eapply Forall_impl; [exact Hlt|]. intros b Hb. cbn in Hb |- *. lia.
      * repeat constructor.
  - intros i. unfold _removeBody. apply ids_fresh_sublist; [|exact Hg].
    apply fmap_sublist, sublist_filter.
  - unfold reset. apply ids_fresh_sublist; [|exact Hg]. apply sublist_nil_l.
  - intros dt.
    destruct (physics_stages_bodies rnd cfg dt g) as (bs & star & Hb & Hid & _).
    unfold ids_fresh. rewrite Hb.
    change (game_nextId (physics_stages rnd cfg dt g)) with (game_nextId g).
    set (c := reference_point g).
    assert (Hs : (id <$> prune (flag_escaped (fst c) (snd c) <$> bs))
                 `sublist_of` (id <$> game_bodies g)).
    { rewrite <- Hid.
      rewrite <- (fmap_fmap_ext id (flag_escaped (fst c) (snd c)) id bs)
        by (intros b; apply flag_escaped_id).
      apply fmap_sublist, sublist_filter. }
    split.
    + exact (sublist_NoDup _ _ Hnd Hs).
    + apply Forall_ids. apply (Forall_sublist _ _ _ Hs). now apply Forall_ids.
Qed.

Lemma ids_stay_fresh_witness :
  let g := {| game_bodies := []; game_paused := false; game_mode := freeform_mode;
              game_star := Star_new 0 0; game_nextId := 1;
              canvas_width := 800; canvas_height := 600 |} in
  let cfg := {| cfg_radius := 8; cfg_mass := 100; cfg_newBodyColor := "#4fc3f7";
                cfg_type := planet; cfg_starMass := 1000000 |} in
  ids_fresh (_spawnBody cfg g {| intent_x := 3; intent_y := 4; intent_vx := 10; intent_vy := 0 |}).
Proof.
  intros g cfg.
  destruct (ids_stay_fresh (fun _ => 0.5) cfg g) as (H & _).
  - split; constructor.
  - apply H.
Defined.

Lemma filter_id_other (i : nat) (l : list CelestialBody) :
  i ∉ (id <$> l) -> filter (fun c => id c <> i) l = l.
Proof.
  induction l as [|c l IH]; intros Hi; [reflexivity|].
  rewrite fmap_cons in Hi. apply not_elem_of_cons in Hi. destruct Hi as [Hc Hl].
  rewrite filter_cons_True by congruence. f_equal. now apply IH.
Qed.

(** X11. [_removeBody(id)] removes exactly the body with that id when ids
    are unique: the body in slot [k] is deleted and all others stay, in
    order; an id that no body has removes nothing. *)
Theorem remove_exactly_one (g : Game) :
  ids_fresh g ->
  (forall k b, game_bodies g !! k = Some b ->
     game_bodies (_removeBody g (id b)) = delete k (game_bodies g)) /\
  (forall i, (forall b, In b (game_bodies g) -> id b <> i) ->
     game_bodies (_removeBody g i) = game_bodies g).
Proof.
  intros [Hnd _]. cbn [_removeBody game_bodies with_game_bodies]. split.
  - revert Hnd. generalize (game_bodies g) as l.
    induction l as [|c l IH]; intros Hnd k b Hk; [discriminate Hk|].
    rewrite fmap_cons in Hnd. apply NoDup_cons in Hnd. destruct Hnd as [Hc Hnd].
    destruct k as [|k].
    + injection Hk as ->. rewrite filter_cons_False by (intros H; now apply H).
      cbn [delete list_delete]. now apply filter_id_other.
    + change ((c :: l) !! S k) with (l !! k) in Hk.
      rewrite filter_cons_True.
      * cbn [delete list_delete]. f_equal. now apply IH.
      * intros Heq. apply Hc. rewrite Heq.
        apply list_elem_of_fmap. exists b. split; [reflexivity|].
        eapply list_elem_of_lookup_2. exact Hk.
  - intros i Hi. apply filter_id_other.
    intros Hin. apply list_elem_of_fmap in Hin. destruct Hin as (b & Hb & Hin).
    apply (Hi b); [now apply list_elem_of_In|congruence].
Qed.

Lemma remove_exactly_one_witness :
  let body := fun (n : nat) =>
    {| id := n; position := {| x := 0; y := 0 |};
       velocity := {| vx := 0; vy := 0 |}; mass := 30; radius := 3;
       color := "#4fc3f7"; type := planet; trail := [];
       acceleration := {| ax := 0; ay := 0 |};
       escaped := false; merged := false |} in
  let g := {| game_bodies := [body 1%nat; body 2%nat; body 3%nat]; game_paused := false;
              game_mode := freeform_mode; game_star := Star_new 0 0; game_nextId := 4;
              canvas_width := 800; canvas_height := 600 |} in
  game_bodies (_removeBody g 2) = [body 1%nat; body 3%nat].
Proof.
  intros body g.
  destruct (remove_exactly_one g) as [H _].
  - split.
    + cbn. repeat constructor; cbn; rewrite ?elem_of_cons, ?elem_of_nil; lia.
    + repeat constructor.
  - exact (H 1%nat (body 2%nat) eq_refl).
Defined.

(** ** The placement gesture *)

Lemma moves_keep_drag (rect : Rect) (moves : list MouseEvent) (inp : Input) :
  phase (placement inp) = dragging ->
  let inp' := fold_left (dispatch rect) (mousemove <$> moves) inp in
  phase (placement inp') = dragging /\
  anchorX (placement inp') = anchorX (placement inp) /\
  anchorY (placement inp') = anchorY (placement inp) /\
  _intents inp' = _intents inp.
Proof.
  revert inp. induction moves as [|m moves IH]; intros inp Hph; [now repeat split|].
  cbn [fmap list_fmap fold_left dispatch].
  assert (Hstep : phase (placement (_onMove rect inp m)) = dragging /\
                  anchorX (placement (_onMove rect inp m)) = anchorX (placement inp) /\
                  anchorY (placement (_onMove rect inp m)) = anchorY (placement inp) /\
                  _intents (_onMove rect inp m) = _intents inp).
  { unfold _onMove. rewrite Hph. cbn. now rewrite Hph. }
  destruct Hstep as (Hp & Hx & Hy & Hi).
  destruct (IH (_onMove rect inp m) Hp) as (Hp' & Hx' & Hy' & Hi').
  cbn zeta. rewrite Hx', Hy', Hi', Hx, Hy, Hi. now repeat split.
Qed.

(** X12. A press at [d], any number of moves and a release at [u] queue
    exactly one intent after those already pending: it is anchored where
    the press was (in canvas coordinates) and its velocity is 1.5 times the
    drag vector from press to release, wherever the canvas sits; the
    placement is idle again afterwards.  [flush] then hands out the pending
    intents in order and leaves none. *)
Theorem drag_queues_one_intent (rect : Rect) (inp : Input) (d u : MouseEvent)
    (moves : list MouseEvent) :
  let inp' := dispatch rect
                (fold_left (dispatch rect) (mousemove <$> moves)
                   (dispatch rect inp (mousedown d)))
                (mouseup u) in
  placement inp' = idle_placement /\
  _intents inp'
  = _intents inp
    ++ [ {| intent_x := clientX d - rect_left rect;
            intent_y := clientY d - rect_top rect;
            intent_vx := (clientX u - clientX d) * 1.5;
            intent_vy := (clientY u - clientY d) * 1.5 |} ] /\
  fst (flush inp') = _intents inp' /\
  _intents (snd (flush inp')) = [] /\
  fst (flush (snd (flush inp'))) = [].
Proof.
  intros inp'.
  set (inp1 := dispatch rect inp (mousedown d)).
  destruct (moves_keep_drag rect moves inp1 eq_refl) as (Hp & Hx & Hy & Hi).
  set (inp2 := fold_left (dispatch rect) (mousemove <$> moves) inp1) in *.
  assert (H : placement inp' = idle_placement /\
              _intents inp'
              = _intents inp
                ++ [ {| intent_x := clientX d - rect_left rect;
                        intent_y := clientY d - rect_top rect;
                        intent_vx := (clientX u - clientX d) * 1.5;
                        intent_vy := (clientY u - clientY d) * 1.5 |} ]).
  { unfold inp'. fold inp1. fold inp2. cbn [dispatch]. unfold _onUp. rewrite Hp.
    cbn [_commit with_tip placement _intents anchorX anchorY tipX tipY _canvasPos fst snd].
    split; [reflexivity|].
    rewrite Hi, Hx, Hy. cbn. f_equal. f_equal. f_equal; ring. }
  destruct H as [H1 H2].
  split; [exact H1|]. split; [exact H2|]. repeat split.
Qed.

Lemma dispatch_appends (rect : Rect) (inp : Input) (ev : Event) :
  exists new,
    _intents (dispatch rect inp ev) = _intents inp ++ new /\
    (length new + pending_press (phase (placement (dispatch rect inp ev)))
     <= (if is_mousedown ev then 1 else 0)
        + pending_press (phase (placement inp)))%nat.
Proof.
  destruct ev as [e|e|e|]; cbn [dispatch is_mousedown].
  - exists []. rewrite app_nil_r. split; [reflexivity|]. cbn.
    destruct (phase (placement inp)); lia.
  - exists []. rewrite app_nil_r. unfold _onMove.
    destruct (phase (placement inp)) eqn:Hp; cbn; rewrite ?Hp; split; try reflexivity; lia.
  - unfold _onUp. destruct (phase (placement inp)) eqn:Hp.
    + exists []. rewrite app_nil_r, Hp. split; [reflexivity|]. cbn. lia.
    + eexists. split; [reflexivity|]. cbn. lia.
  - unfold _onLeave. destruct (phase (placement inp)) eqn:Hp.
    + exists []. rewrite app_nil_r, Hp. split; [reflexivity|]. cbn. lia.
    + eexists. split; [reflexivity|]. cbn. lia.
Qed.

Lemma events_append (rect : Rect) (evs : list Event) (inp : Input) :
  exists new,
    _intents (fold_left (dispatch rect) evs inp) = _intents inp ++ new /\
    (length new + pending_press (phase (placement (fold_left (dispatch rect) evs inp)))
     <= length (filter (fun ev => is_mousedown ev = true) evs)
        + pending_press (phase (placement inp)))%nat.
Proof.
  revert inp. induction evs as [|ev evs IH]; intros inp.
  - exists []. rewrite app_nil_r. split; [reflexivity|]. cbn. lia.
  - cbn [fold_left].
    destruct (dispatch_appends rect inp ev) as (n1 & H1 & L1).
    destruct (IH (dispatch rect inp ev)) as (n2 & H2 & L2).
    exists (n1 ++ n2). split; [now rewrite H2, H1, app_assoc|].
    rewrite length_app, filter_cons.
    destruct (decide (is_mousedown ev = true)) as [Hd|Hd].
    + rewrite Hd in L1. cbn [length]. lia.
    + destruct (is_mousedown ev); [contradiction|]. lia.
Qed.

(** X13. Whatever mouse events arrive, the pending intents are only ever
    appended to, and starting from an idle placement at most one intent is
    added per press: stray moves, releases and leaves queue nothing. *)
Theorem intents_come_from_presses (rect : Rect) (evs : list Event) (inp : Input) :
  phase (placement inp) = idle ->
  exists new,
    _intents (fold_left (dispatch rect) evs inp) = _intents inp ++ new /\
    (length new <= length (filter (fun ev => is_mousedown ev = true) evs))%nat.
Proof.
  intros Hp. destruct (events_append rect evs inp) as (new & H & L).
  exists new. split; [exact H|]. rewrite Hp in L. cbn [pending_press] in L. lia.
Qed.

Lemma intents_come_from_presses_witness :
  let inp := {| placement := idle_placement; _intents := [] |} in
  let rect := {| rect_left := 10; rect_top := 20 |} in
  exists new,
    _intents (fold_left (dispatch rect)
                [mouseup {| clientX := 1; clientY := 2 |}; mouseleave] inp)
    = [] ++ new /\
    (length new <= 0)%nat.
Proof.
  intros inp rect.
  exact (intents_come_from_presses rect
           [mouseup {| clientX := 1; clientY := 2 |}; mouseleave] inp eq_refl).
Defined.

(** ** The side panel *)

Lemma round_mono (u v : R) : u <= v -> (round u <= round v)%Z.
Proof. intros H. unfold round. apply Zfloor_le. lra. Qed.

Lemma cube_mono (u v : R) : u <= v -> u ^ 3 <= v ^ 3.
Proof.
  intros H. simpl.
  assert (0 <= (v - u) * (u * u + u * v + v * v)).
  { apply Rmult_le_pos; [lra|]. nra. }
  nra.
Qed.

(** X14. The mass the side panel derives from a radius is an integer that
    is at least 1, never decreases when the radius grows, is the unit-density
    mass [DENSITY * r^3] rounded to the nearest integer whenever that is at
    least 1, and is exactly 100 for the default radius 8. *)
Theorem radius_to_mass (r1 r2 : R) :
  (exists z : Z, _radiusToMass r1 = IZR z /\ (1 <= z)%Z) /\
  (r1 <= r2 -> _radiusToMass r1 <= _radiusToMass r2) /\
  (1 <= DENSITY * r1 ^ 3 ->
   _radiusToMass r1 = IZR (round (DENSITY * r1 ^ 3)) /\
   Rabs (_radiusToMass r1 - DENSITY * r1 ^ 3) <= 0.5) /\
  _radiusToMass 8 = 100.
Proof.
  assert (HD : 0 < DENSITY) by (unfold DENSITY; simpl; lra).
  split; [|split; [|split]].
  - unfold _radiusToMass.
    destruct (Z_lt_le_dec (round (DENSITY * r1 ^ 3)) 1) as [Hlt|Hge].
    + exists 1%Z. split; [|lia]. apply Rmax_left. apply IZR_le. lia.
    + exists (round (DENSITY * r1 ^ 3)). split; [|exact Hge].
      apply Rmax_right. apply IZR_le. exact Hge.
  - intros Hr. unfold _radiusToMass.
    assert (Hm : IZR (round (DENSITY * r1 ^ 3)) <= IZR (round (DENSITY * r2 ^ 3))).
    { apply IZR_le, round_mono. apply Rmult_le_compat_l; [lra|]. now apply cube_mono. }
    apply Rmax_case_strong; intros H1; apply Rmax_case_strong; intros H2; lra.
  - intros H1. unfold _radiusToMass.
    pose proof (round_bound (DENSITY * r1 ^ 3)) as Hb.
    assert (Hz : (1 <= round (DENSITY * r1 ^ 3))%Z).
    { apply round_mono in H1. rewrite (round_eq 1 1) in H1 by lra. exact H1. }
    apply IZR_le in Hz.
    rewrite Rmax_right by exact Hz. split; [reflexivity|].
    apply Rabs_le. lra.
  - unfold _radiusToMass, DENSITY.
    replace (100 / 8 ^ 3 * 8 ^ 3) with 100 by (simpl; field).
    rewrite (round_eq 100) by lra. apply Rmax_right. lra.
Qed.

Lemma radius_to_mass_witness :
  _radiusToMass 3 <= _radiusToMass 40 /\
  _radiusToMass 8 = IZR (round (DENSITY * 8 ^ 3)).
Proof.
  destruct (radius_to_mass 3 40) as (_ & Hmono & _).
  destruct (radius_to_mass 8 8) as (_ & _ & Hround & _).
  split.
  - apply Hmono. lra.
  - apply Hround. unfold DENSITY. simpl. lra.
Defined.

Lemma ln_le_minus_1 (v : R) : 0 < v -> ln v <= v - 1.
Proof.
  intros Hv. pose proof (exp_ineq1_le (v - 1)) as H.
  replace (1 + (v - 1)) with v in H by ring.
  destruct (Rle_lt_or_eq_dec _ _ H) as [Hlt|Heq].
  - left. rewrite <- (ln_exp (v - 1)). apply ln_increasing; assumption.
  - right. rewrite Heq at 1. apply ln_exp.
Qed.

Lemma ln_10_gt_half : / 2 < ln 10.
Proof.
  pose proof ln_lt_2. assert (ln 2 < ln 10) by (apply ln_increasing; lra). lra.
Qed.

Lemma pow10_ge_10000 (e : R) : 4 <= e -> 10000 <= pow10 e.
Proof.
  intros He. unfold pow10.
  assert (H4 : exp (4 * ln 10) = 10000).
  { replace (4 * ln 10) with (ln 10 + (ln 10 + (ln 10 + ln 10))) by ring.
    rewrite !exp_plus, exp_ln by lra. ring. }
  rewrite <- H4. pose proof ln_10_gt_half.
  destruct (Rle_lt_or_eq_dec _ _ He) as [Hlt|<-]; [|lra].
  left. apply exp_increasing. nra.
Qed.

(** The logarithm of a power of ten rounded to an integer is off by little. *)
Lemma log10_round_pow10 (e : R) :
  4 <= e -> Rabs (log10 (IZR (round (pow10 e))) - e) <= 0.0002.
Proof.
  intros He.
  pose proof (pow10_ge_10000 e He) as HP.
  pose proof (round_bound (pow10 e)) as Hm.
  pose proof ln_10_gt_half as Hln.
  set (P := pow10 e) in *. set (m := IZR (round P)) in *.
  assert (HlnP : ln P = e * ln 10) by (unfold P, pow10; apply ln_exp).
  assert (Hmpos : 0 < m) by lra.
  assert (Hup : ln m - ln P <= 0.00005).
  { replace (ln m - ln P) with (ln (m * / P)) by (rewrite ln_mult, ln_Rinv; lra || (try apply Rinv_0_lt_compat; lra)).
    assert (Hq : 0 < m * / P) by (apply Rmult_lt_0_compat; [lra|apply Rinv_0_lt_compat; lra]).
    pose proof (ln_le_minus_1 _ Hq) as H.
    assert (m * / P - 1 <= 0.00005).
    { replace (m * / P - 1) with ((m - P) * / P) by (field; lra).
      assert (0 < / P <= / 10000).
      { split; [apply Rinv_0_lt_compat; lra|apply Rinv_le_contravar; lra]. }
      nra. }
    lra. }
  assert (Hlo : ln P - ln m <= 0.0001).
  { replace (ln P - ln m) with (ln (P * / m)) by (rewrite ln_mult, ln_Rinv; lra || (try apply Rinv_0_lt_compat; lra)).
    assert (Hq : 0 < P * / m) by (apply Rmult_lt_0_compat; [lra|apply Rinv_0_lt_compat; lra]).
    pose proof (ln_le_minus_1 _ Hq) as H.
    assert (P * / m - 1 <= 0.0001).
    { replace (P * / m - 1) with ((P - m) * / m) by (field; lra).
      assert (0 < / m <= / 9999).
      { split; [apply Rinv_0_lt_compat; lra|apply Rinv_le_contravar; lra]. }
      nra. }
    lra. }
  unfold log10.
  replace (ln m / ln 10 - e) with ((ln m - ln P) * / ln 10) by (rewrite HlnP; field; lra).
  assert (Hinv : 0 < / ln 10 < 2).
  { split; [apply Rinv_0_lt_compat; lra|].
    replace 2 with (/ / 2) by field. apply Rinv_lt_contravar; [|lra].
    apply Rmult_lt_0_compat; lra. }
  apply Rabs_le. split; nra.
Qed.

Lemma Rabs_le_bounds (a b : R) : Rabs a <= b -> - b <= a <= b.
Proof. unfold Rabs. destruct (Rcase_abs a); lra. Qed.

(** X15. The star-mass slider round-trips: for every integer slider
    position [v] from 0 to 100, setting the slider from the mass that
    position stands for puts it back at [v]. *)
Theorem star_mass_slider_round_trip (v : Z) :
  (0 <= v <= 100)%Z ->
  setStarMass (_sliderToStarMass (IZR v)) = v.
Proof.
  intros [H0 H100]. apply IZR_le in H0. apply IZR_le in H100.
  unfold setStarMass, _sliderToStarMass.
  set (e := 4 + IZR v / 100 * 3).
  assert (He : 4 <= e) by (unfold e; lra).
  pose proof (log10_round_pow10 e He) as Hlog.
  set (L := log10 (IZR (round (pow10 e)))) in *.
  apply Rabs_le_bounds in Hlog.
  assert (Hv : Rabs ((L - 4) * 100 / 3 - IZR v) <= 0.01).
  { apply Rabs_le. unfold e in Hlog. split; lra. }
  apply Rabs_le_bounds in Hv.
  apply round_eq.
  unfold Rmax, Rmin.
  destruct (Rle_dec 100 ((L - 4) * 100 / 3));
    destruct (Rle_dec 0 _); lra.
Qed.

Lemma star_mass_slider_round_trip_witness :
  setStarMass (_sliderToStarMass (IZR 67)) = 67%Z.
Proof. apply star_mass_slider_round_trip. lia. Defined.

(** * Further properties of the collision resolver *)

(** ** The explode policy only flags *)

Lemma Forall2_insert_r {A B : Type} (P : A -> B -> Prop) (l : list A) (k : list B)
    (i : nat) (a : A) (y : B) :
  Forall2 P l k -> l !! i = Some a -> P a y -> Forall2 P l (<[i := y]> k).
Proof.
  intros HF Hi Hp. rewrite <- (list_insert_id l i a Hi).
  now apply Forall2_insert.
Qed.

Lemma collide_explode_flags (rnd : nat -> R) (i j : nat) (st : Pass)
    (bs : list CelestialBody) (fr : list Fragment) (drawn0 : nat) :
  (exists new, pass_fragments st = Some (fr ++ new) /\
               pass_drawn st = (drawn0 + 2 * length new)%nat) ->
  Forall2 same_or_flagged bs (pass_bodies st) ->
  (exists new, pass_fragments (collide rnd i j st) = Some (fr ++ new) /\
               pass_drawn (collide rnd i j st) = (drawn0 + 2 * length new)%nat) /\
  Forall2 same_or_flagged bs (pass_bodies (collide rnd i j st)).
Proof.
  intros (new & Hfr & Hdr) HF. unfold collide.
  destruct (pass_bodies st !! i) as [a|] eqn:Ha; [|split; eauto].
  destruct (pass_bodies st !! j) as [b|] eqn:Hb; [|split; eauto].
  destruct (merged b); [split; eauto|].
  destruct (Rlt_dec _ _); [|split; eauto].
  rewrite Hfr, _explode_unfold. cbn [pass_fragments pass_drawn pass_bodies fst snd].
  split.
  - exists (new ++ (fragment_of rnd a b (pass_drawn st)
                      <$> seq 0 (Z.to_nat (fragment_count a b)))).
    split; [now rewrite app_assoc|].
    rewrite Hdr, length_app, length_fmap, length_seq. lia.
  - destruct (Forall2_lookup_r _ _ _ _ _ HF Ha) as (a0 & Ha0 & Hsa).
    destruct (Forall2_lookup_r _ _ _ _ _ HF Hb) as (b0 & Hb0 & Hsb).
    apply (Forall2_insert_r _ _ _ _ b0); [|exact Hb0|].
    + apply (Forall2_insert_r _ _ _ _ a0); [exact HF|exact Ha0|].
      destruct Hsa as [->| ->]; right; reflexivity.
    + destruct Hsb as [->| ->]; right; reflexivity.
Qed.

(** X16. Under the explode policy a collision pass never changes a body
    except to flag it: every slot leaves the pass holding the body it held,
    or that body with [merged = true].  The fragments array only grows at
    its end, and the pass takes exactly two random draws per fragment it
    adds. *)
Theorem explode_pass_only_flags (rnd : nat -> R) (bs : list CelestialBody)
    (star : option Star) (fr : list Fragment) (drawn0 : nat) :
  let p := _handleCollisions rnd bs star (Some fr) drawn0 in
  Forall2 same_or_flagged bs (pass_bodies p) /\
  exists new,
    pass_fragments p = Some (fr ++ new) /\
    pass_drawn p = (drawn0 + 2 * length new)%nat.
Proof.
  intros p.
  assert (H : (exists new, pass_fragments p = Some (fr ++ new) /\
                           pass_drawn p = (drawn0 + 2 * length new)%nat) /\
              Forall2 same_or_flagged bs (pass_bodies p)).
  { unfold p, _handleCollisions.
    apply (fold_left_inv (fun st =>
             (exists new, pass_fragments st = Some (fr ++ new) /\
                          pass_drawn st = (drawn0 + 2 * length new)%nat) /\
             Forall2 same_or_flagged bs (pass_bodies st))).
    - cbn [pass_fragments pass_drawn pass_bodies]. split.
      + exists []. rewrite app_nil_r. split; [reflexivity|]. cbn. lia.
      + apply Forall2_same_length_lookup. split.
        * destruct star; [now rewrite length_fmap|reflexivity].
        * intros k b b' Hb Hb'. destruct star as [s|].
          -- rewrite (absorb_lookup s bs k b Hb) in Hb'. injection Hb' as <-.
             unfold absorb. destruct (Rlt_dec _ _); [right|left]; reflexivity.
          -- rewrite Hb in Hb'. injection Hb' as <-. now left.
    - intros st i [Hfr HF]. unfold collide_row.
      destruct (pass_bodies st !! i) as [a|]; [|now split].
      destruct (merged a); [now split|].
      apply (fold_left_inv (fun st' =>
               (exists new, pass_fragments st' = Some (fr ++ new) /\
                            pass_drawn st' = (drawn0 + 2 * length new)%nat) /\
               Forall2 same_or_flagged bs (pass_bodies st'))); [now split|].
      intros st' j [Hfr' HF']. now apply collide_explode_flags. }
  destruct H as [Hfr HF]. split; assumption.
Qed.

(** ** When the resolver acts *)

Lemma seq_split (a n k : nat) :
  (k < n)%nat -> seq a n = seq a k ++ (a + k)%nat :: seq (S (a + k)) (n - S k).
Proof.
  intros Hk. replace n with (k + S (n - S k))%nat at 1 by lia.
  rewrite seq_app. reflexivity.
Qed.

Lemma merge_into_merged (a b : CelestialBody) : merged (merge_into a b) = merged a.
Proof. reflexivity. Qed.

Lemma flag_indicator_bounds (b : CelestialBody) :
  0 <= (if merged b then 1 else 0) <= 1.
Proof. destruct (merged b); lra. Qed.

(** An iteration of the inner loop leaves the array alone or flags one
    more body. *)
Lemma collide_flagged (rnd : nat -> R) (i j : nat) (st : Pass) :
  i <> j ->
  pass_bodies (collide rnd i j st) = pass_bodies st \/
  flagged (pass_bodies st) + 1 <= flagged (pass_bodies (collide rnd i j st)).
Proof.
  intros Hij. unfold collide.
  destruct (pass_bodies st !! i) as [a|] eqn:Ha; [|now left].
  destruct (pass_bodies st !! j) as [b|] eqn:Hb; [|now left].
  destruct (merged b) eqn:Hm; [now left|].
  destruct (Rlt_dec _ _); [|now left].
  right. pose proof (flag_indicator_bounds a) as Hba.
  destruct (pass_fragments st); cbn [pass_bodies]; unfold flagged;
    rewrite (Rsum_insert2 _ _ i j a _ b _ Hij Ha Hb); cbn [merged with_merged];
    rewrite ?merge_into_merged, Hm; lra.
Qed.

Lemma collide_flagged_mono (rnd : nat -> R) (i j : nat) (st : Pass) :
  i <> j -> flagged (pass_bodies st) <= flagged (pass_bodies (collide rnd i j st)).
Proof.
  intros Hij. destruct (collide_flagged rnd i j st Hij) as [-> | H]; lra.
Qed.

Lemma collide_flagged_acts (rnd : nat -> R) (i j : nat) (st : Pass)
    (a b : CelestialBody) :
  i <> j -> pass_bodies st !! i = Some a -> pass_bodies st !! j = Some b ->
  merged b = false -> overlap a b ->
  flagged (pass_bodies st) + 1 <= flagged (pass_bodies (collide rnd i j st)).
Proof.
  intros Hij Ha Hb Hm Hov.
  destruct (collide_flagged rnd i j st Hij) as [Heq | H]; [|exact H].
  exfalso. revert Heq. unfold collide. rewrite Ha, Hb, Hm.
  destruct (Rlt_dec _ _) as [_|Hn]; [|destruct (Hn Hov)].
  intros Heq.
  assert (Hj : pass_bodies st !! j = Some (with_merged b true)).
  { rewrite <- Heq. destruct (pass_fragments st); cbn [pass_bodies];
      apply list_lookup_insert_eq; rewrite length_insert;
      exact (lookup_lt_Some _ _ _ Hb). }
  rewrite Hb in Hj. injection Hj as Hj.
  apply (f_equal merged) in Hj. cbn in Hj. congruence.
Qed.

Lemma collide_row_flagged_mono (rnd : nat -> R) (i : nat) (st : Pass) :
  flagged (pass_bodies st) <= flagged (pass_bodies (collide_row rnd i st)).
Proof.
  unfold collide_row.
  destruct (pass_bodies st !! i) as [a|]; [|lra].
  destruct (merged a); [lra|].
  apply (fold_left_inv_in
           (fun st' => flagged (pass_bodies st) <= flagged (pass_bodies st'))); [lra|].
  intros st' j Hj H. apply in_seq in Hj.
  pose proof (collide_flagged_mono rnd i j st' ltac:(lia)). lra.
Qed.

(** Either nothing has happened so far or a body has been flagged. *)
Lemma collide_row_flagged (rnd : nat -> R) (i : nat) (st : Pass)
    (bs : list CelestialBody) :
  pass_bodies st = bs \/ flagged bs + 1 <= flagged (pass_bodies st) ->
  pass_bodies (collide_row rnd i st) = bs \/
  flagged bs + 1 <= flagged (pass_bodies (collide_row rnd i st)).
Proof.
  intros [Heq | H].
  - unfold collide_row.
    destruct (pass_bodies st !! i) as [a|]; [|now left].
    destruct (merged a); [now left|].
    apply (fold_left_inv_in
             (fun st' => pass_bodies st' = bs \/
                         flagged bs + 1 <= flagged (pass_bodies st'))); [now left|].
    intros st' j Hj [Heq' | H']; apply in_seq in Hj.
    + destruct (collide_flagged rnd i j st' ltac:(lia)) as [-> | H''];
        [now left|right; now rewrite <- Heq'].
    + right. pose proof (collide_flagged_mono rnd i j st' ltac:(lia)). lra.
  - right. pose proof (collide_row_flagged_mono rnd i st). lra.
Qed.

Lemma collide_rows_flagged_mono (rnd : nat -> R) (rows : list nat) (st : Pass) :
  flagged (pass_bodies st)
  <= flagged (pass_bodies (fold_left (fun st i => collide_row rnd i st) rows st)).
Proof.
  apply (fold_left_inv
           (fun st' => flagged (pass_bodies st) <= flagged (pass_bodies st'))); [lra|].
  intros st' i H. pose proof (collide_row_flagged_mono rnd i st'). lra.
Qed.

(** A row that starts on an untouched array holding an overlapping
    unflagged pair at [i < j] flags a body. *)
Lemma collide_row_acts (rnd : nat -> R) (i j : nat) (st : Pass)
    (a b : CelestialBody) :
  (i < j)%nat -> pass_bodies st !! i = Some a -> pass_bodies st !! j = Some b ->
  merged a = false -> merged b = false -> overlap a b ->
  flagged (pass_bodies st) + 1 <= flagged (pass_bodies (collide_row rnd i st)).
Proof.
  intros Hij Ha Hb Hma Hmb Hov. unfold collide_row. rewrite Ha, Hma.
  pose proof (lookup_lt_Some _ _ _ Hb) as Hlen.
  rewrite (seq_split (S i) (length (pass_bodies st) - S i) (j - S i)) by lia.
  replace (S i + (j - S i))%nat with j by lia.
  rewrite fold_left_app. cbn [fold_left].
  set (st1 := fold_left _ (seq (S i) (j - S i)) st).
  assert (H1 : pass_bodies st1 = pass_bodies st \/
               flagged (pass_bodies st) + 1 <= flagged (pass_bodies st1)).
  { unfold st1.
    apply (fold_left_inv_in
             (fun st' => pass_bodies st' = pass_bodies st \/
                         flagged (pass_bodies st) + 1 <= flagged (pass_bodies st')));
      [now left|].
    intros st' k Hk [Heq' | H']; apply in_seq in Hk.
    - destruct (collide_flagged rnd i k st' ltac:(lia)) as [-> | H''];
        [now left|right; now rewrite <- Heq'].
    - right. pose proof (collide_flagged_mono rnd i k st' ltac:(lia)). lra. }
  assert (H2 : flagged (pass_bodies st) + 1
               <= flagged (pass_bodies (collide rnd i j st1))).
  { destruct H1 as [Heq | H1].
    - rewrite <- Heq. apply (collide_flagged_acts rnd i j st1 a b);
        [lia|now rewrite Heq|now rewrite Heq|assumption|assumption].
    - pose proof (collide_flagged_mono rnd i j st1 ltac:(lia)). lra. }
  apply (fold_left_inv_in
           (fun st' => flagged (pass_bodies st) + 1 <= flagged (pass_bodies st')));
    [exact H2|].
  intros st' k Hk H'. apply in_seq in Hk.
  pose proof (collide_flagged_mono rnd i k st' ltac:(lia)). lra.
Qed.

Lemma absorb_cases (s : Star) (b : CelestialBody) :
  absorb s b = b \/ (merged b = false /\ merged (absorb s b) = true).
Proof.
  unfold absorb. destruct (Rlt_dec _ _); [|now left].
  destruct (merged b) eqn:Hm; [left; now apply with_merged_same|right; now split].
Qed.

Lemma absorb_flagged (s : Star) (bs : list CelestialBody) :
  flagged bs <= flagged (absorb s <$> bs) /\
  (absorb s <$> bs = bs \/ flagged bs + 1 <= flagged (absorb s <$> bs)).
Proof.
  induction bs as [|b l [IHm IHd]]; [split; [unfold flagged; cbn; lra|now left]|].
  rewrite fmap_cons. unfold flagged in *. rewrite !fmap_cons. cbn [Rsum].
  destruct (absorb_cases s b) as [Hb | [Hb Hb']].
  - rewrite Hb. split; [lra|].
    destruct IHd as [Hl | IHd]; [left; now rewrite Hl|right; lra].
  - rewrite Hb, Hb'. split; [lra|right; lra].
Qed.

Lemma absorb_flagged_acts (s : Star) (bs : list CelestialBody) (k : nat)
    (b : CelestialBody) :
  bs !! k = Some b -> merged b = false -> touches_star s b ->
  flagged bs + 1 <= flagged (absorb s <$> bs).
Proof.
  intros Hk Hm Ht.
  destruct (absorb_flagged s bs) as [_ [Heq | H]]; [|exact H].
  exfalso. pose proof (absorb_lookup s bs k b Hk) as Hl.
  rewrite Heq, Hk in Hl. injection Hl as Hl. revert Hl. unfold absorb.
  destruct (Rlt_dec _ _) as [_|Hn]; [|destruct (Hn Ht)].
  intros Hl. apply (f_equal merged) in Hl. cbn in Hl. congruence.
Qed.

(** X17. The collision pass leaves the array exactly as it found it if and
    only if there is nothing in contact: no unflagged body within reach of
    the star and no two unflagged bodies overlapping.  This holds under
    both policies; the pass never acts and then restores the array. *)
Theorem resolver_idle_iff_no_contact (rnd : nat -> R) (bs : list CelestialBody)
    (star : option Star) (fr : option (list Fragment)) (drawn0 : nat) :
  pass_bodies (_handleCollisions rnd bs star fr drawn0) = bs <-> no_contact star bs.
Proof.
  split.
  - intros Hsame.
    set (bs0 := match star with Some s => absorb s <$> bs | None => bs end).
    assert (Hlen : length bs0 = length bs)
      by (unfold bs0; destruct star; [apply length_fmap|reflexivity]).
    assert (Hm0 : flagged bs <= flagged bs0)
      by (unfold bs0; destruct star as [s|]; [apply absorb_flagged|lra]).
    assert (Hd0 : bs0 = bs \/ flagged bs + 1 <= flagged bs0)
      by (unfold bs0; destruct star as [s|]; [apply absorb_flagged|now left]).
    assert (Hno : ~ flagged bs + 1
                    <= flagged (pass_bodies (_handleCollisions rnd bs star fr drawn0)))
      by (rewrite Hsame; lra).
    split.
    + intros s k b -> Hk Hm Ht. apply Hno.
      pose proof (absorb_flagged_acts s bs k b Hk Hm Ht) as Hact.
      unfold _handleCollisions.
      pose proof (collide_rows_flagged_mono rnd (seq 0 (length (absorb s <$> bs)))
                    {| pass_bodies := absorb s <$> bs; pass_fragments := fr;
                       pass_drawn := drawn0 |}) as Hmono.
      cbn [pass_bodies] in Hmono. lra.
    + intros i j a b Hij Ha Hb Hma Hmb Hov. apply Hno.
      unfold _handleCollisions. fold bs0.
      pose proof (lookup_lt_Some _ _ _ Ha) as Hi.
      rewrite (seq_split 0 (length bs0) i) by lia. cbn [Nat.add].
      rewrite fold_left_app. cbn [fold_left].
      set (st1 := fold_left _ (seq 0 i) _).
      assert (H1 : pass_bodies st1 = bs \/ flagged bs + 1 <= flagged (pass_bodies st1)).
      { unfold st1.
        apply (fold_left_inv
                 (fun st' => pass_bodies st' = bs \/
                             flagged bs + 1 <= flagged (pass_bodies st')));
          [exact Hd0|].
        intros st' k H'. now apply collide_row_flagged. }
      assert (H2 : flagged bs + 1 <= flagged (pass_bodies (collide_row rnd i st1))).
      { destruct H1 as [Heq | H1].
        - rewrite <- Heq at 1.
          apply (collide_row_acts rnd i j st1 a b); rewrite ?Heq; assumption.
        - pose proof (collide_row_flagged_mono rnd i st1). lra. }
      pose proof (collide_rows_flagged_mono rnd (seq (S i) (length bs0 - S i))
                    (collide_row rnd i st1)) as Hmono'.
      lra.
  - intros Hnc. now rewrite (_handleCollisions_no_contact rnd bs star fr drawn0 Hnc).
Qed.

Lemma resolver_idle_iff_no_contact_witness :
  let o := fun px => {| init_x := px; init_y := 0; init_vx := None; init_vy := None;
                        init_mass := None; init_radius := None;
                        init_color := None; init_type := None |} in
  let a := fst (CelestialBody_new 1 (o 0)) in
  let b := fst (CelestialBody_new 2 (o 100)) in
  no_contact None [a; b] /\
  pass_bodies (_handleCollisions (fun _ => 0.5) [a; b] None None 0%nat) = [a; b].
Proof.
  intros o a b.
  assert (Hnc : no_contact None [a; b]).
  { split; [intros s k c Hs; discriminate Hs|].
    intros i j c d Hij Hi Hj _ _.
    destruct i as [|[|i]], j as [|[|j]]; try lia; try discriminate Hj;
      try discriminate Hi.
    injection Hi as <-. injection Hj as <-. unfold overlap, a, b. cbn.
    replace ((100 - 0) * (100 - 0) + (0 - 0) * (0 - 0)) with (100 * 100) by lra.
    rewrite sqrt_square by lra. lra. }
  split; [exact Hnc|].
  apply (proj2 (resolver_idle_iff_no_contact (fun _ => 0.5) [a; b] None None 0%nat)).
  exact Hnc.
Defined.

(** * Properties of the camera, of saving and loading, and of the predictor *)

(** ** Wheel zoom *)

(** X18. Scrolling zooms about the cursor: as long as the new zoom level
    stays within the limits 0.1 and 20, the world point under the cursor
    is the same before and after the wheel event. *)
Theorem wheel_zoom_keeps_cursor_point (rect : Rect) (inp : CameraInput.Input)
    (e : CameraInput.Event) :
  0.1 <= zoom (CameraInput._camera inp) * wheel_factor e <= 20 ->
  world_under (CameraInput._camera (CameraInput._onWheel rect inp e)) rect e
  = world_under (CameraInput._camera inp) rect e.
Proof.
  intros Hz. unfold world_under, CameraInput._onWheel, _screenToWorld.
  cbn [CameraInput._camera panX panY zoom fst snd].
  fold (wheel_factor e).
  assert (Hf : 0 < wheel_factor e)
    by (unfold wheel_factor; destruct (Rlt_dec _ _); lra).
  assert (Hzoom : 0 < zoom (CameraInput._camera inp)) by nra.
  rewrite (Rmax_right 0.1 _) by lra. rewrite (Rmin_right 20 _) by lra.
  f_equal; field; lra.
Qed.

Lemma wheel_zoom_keeps_cursor_point_witness :
  let rect := {| rect_left := 10; rect_top := 20 |} in
  let inp := {| CameraInput.placement := idle_placement;
                CameraInput._intents := []; CameraInput._clickIntents := [];
                CameraInput._camera := {| panX := 5; panY := 7; zoom := 2 |};
                CameraInput._isPanning := false;
                CameraInput._panStartX := 0; CameraInput._panStartY := 0 |} in
  let e := {| CameraInput.clientX := 110; CameraInput.clientY := 220;
              CameraInput.button := 0; CameraInput.deltaY := -1 |} in
  world_under (CameraInput._camera (CameraInput._onWheel rect inp e)) rect e
  = world_under (CameraInput._camera inp) rect e.
Proof.
  intros rect inp e. apply wheel_zoom_keeps_cursor_point.
  unfold wheel_factor, inp, e. cbn. destruct (Rlt_dec (-1) 0); lra.
Defined.

(** X19. At the zoom limits the pan is still rescaled while the zoom is
    clamped: when the wheel would take the zoom beyond 0.1 or 20, the world
    point under the cursor moves, unless the cursor sits on the pan origin
    of that axis. *)
Theorem wheel_zoom_at_limit_drifts (rect : Rect) (inp : CameraInput.Input)
    (e : CameraInput.Event) :
  0 < zoom (CameraInput._camera inp) ->
  zoom (CameraInput._camera inp) * wheel_factor e < 0.1 \/
  20 < zoom (CameraInput._camera inp) * wheel_factor e ->
  fst (CameraInput._canvasPos rect e) <> panX (CameraInput._camera inp) ->
  fst (world_under (CameraInput._camera (CameraInput._onWheel rect inp e)) rect e)
  <> fst (world_under (CameraInput._camera inp) rect e).
Proof.
  intros Hzoom Hout Hmx. unfold world_under, CameraInput._onWheel, _screenToWorld.
  cbn [CameraInput._camera panX panY zoom fst snd].
  fold (wheel_factor e).
  set (mx := fst (CameraInput._canvasPos rect e)) in *.
  set (f := wheel_factor e) in *.
  set (z := zoom (CameraInput._camera inp)) in *.
  set (px := panX (CameraInput._camera inp)) in *.
  assert (Hf : 0 < f) by (unfold f, wheel_factor; destruct (Rlt_dec _ _); lra).
  assert (Hz' : Rmin 20 (Rmax 0.1 (z * f)) <> z * f /\ 0 < Rmin 20 (Rmax 0.1 (z * f))).
  { unfold Rmin, Rmax.
    destruct (Rle_dec 0.1 (z * f)); destruct (Rle_dec 20 _); split; lra. }
  destruct Hz' as [Hne Hpos]. set (z' := Rmin 20 (Rmax 0.1 (z * f))) in *.
  intros Heq.
  assert (H : (mx - px) * f * z = (mx - px) * z').
  { replace (mx - (mx - (mx - px) * f)) with ((mx - px) * f) in Heq by ring.
    apply (Rmult_eq_compat_r (z' * z)) in Heq.
    replace ((mx - px) * f / z' * (z' * z)) with ((mx - px) * f * z) in Heq
      by (field; lra).
    replace ((mx - px) / z * (z' * z)) with ((mx - px) * z') in Heq by (field; lra).
    exact Heq. }
  assert (H' : (mx - px) * (z * f - z') = 0) by lra.
  apply Rmult_integral in H'. destruct H' as [H' | H']; [apply Hmx|apply Hne]; lra.
Qed.

Lemma wheel_zoom_at_limit_drifts_witness :
  let rect := {| rect_left := 0; rect_top := 0 |} in
  let inp := {| CameraInput.placement := idle_placement;
                CameraInput._intents := []; CameraInput._clickIntents := [];
                CameraInput._camera := {| panX := 0; panY := 0; zoom := 20 |};
                CameraInput._isPanning := false;
                CameraInput._panStartX := 0; CameraInput._panStartY := 0 |} in
  let e := {| CameraInput.clientX := 100; CameraInput.clientY := 0;
              CameraInput.button := 0; CameraInput.deltaY := -1 |} in
  fst (world_under (CameraInput._camera (CameraInput._onWheel rect inp e)) rect e)
  <> fst (world_under (CameraInput._camera inp) rect e).
Proof.
  intros rect inp e. apply wheel_zoom_at_limit_drifts.
  - cbn. lra.
  - right. unfold wheel_factor, inp, e. cbn. destruct (Rlt_dec (-1) 0); lra.
  - cbn. lra.
Defined.

(** ** Right-button pan *)

Lemma pan_moves (rect : Rect) (es : list CameraInput.Event) (inp : CameraInput.Input)
    (e0 : CameraInput.Event) :
  CameraInput._isPanning inp = true ->
  let final := fold_left (CameraInput._onMove rect) es inp in
  let e := List.last es e0 in
  CameraInput._isPanning final = true /\
  CameraInput.placement final = CameraInput.placement inp /\
  CameraInput._intents final = CameraInput._intents inp /\
  CameraInput._clickIntents final = CameraInput._clickIntents inp /\
  zoom (CameraInput._camera final) = zoom (CameraInput._camera inp) /\
  (es <> [] ->
   CameraInput._panStartX final = CameraInput.clientX e /\
   CameraInput._panStartY final = CameraInput.clientY e /\
   panX (CameraInput._camera final)
   = panX (CameraInput._camera inp)
     + (CameraInput.clientX e - CameraInput._panStartX inp) /\
   panY (CameraInput._camera final)
   = panY (CameraInput._camera inp)
     + (CameraInput.clientY e - CameraInput._panStartY inp)).
Proof.
  revert inp. induction es as [|e1 es IH]; intros inp Hp.
  - cbn. split; [assumption|]. do 4 (split; [reflexivity|]).
    intros Hne; now destruct Hne.
  - cbn [fold_left].
    set (s1 := CameraInput._onMove rect inp e1).
    assert (Hs1 : s1 = {| CameraInput.placement := CameraInput.placement inp;
                          CameraInput._intents := CameraInput._intents inp;
                          CameraInput._clickIntents := CameraInput._clickIntents inp;
                          CameraInput._camera :=
                            {| panX := panX (CameraInput._camera inp)
                                       + (CameraInput.clientX e1
                                          - CameraInput._panStartX inp);
                               panY := panY (CameraInput._camera inp)
                                       + (CameraInput.clientY e1
                                          - CameraInput._panStartY inp);
                               zoom := zoom (CameraInput._camera inp) |};
                          CameraInput._isPanning := true;
                          CameraInput._panStartX := CameraInput.clientX e1;
                          CameraInput._panStartY := CameraInput.clientY e1 |})
      by (unfold s1, CameraInput._onMove; now rewrite Hp).
    assert (Hp1 : CameraInput._isPanning s1 = true) by now rewrite Hs1.
    destruct (IH s1 Hp1) as (I1 & I2 & I3 & I4 & I5 & I6).
    split; [exact I1|]. split; [now rewrite I2, Hs1|]. split; [now rewrite I3, Hs1|].
    split; [now rewrite I4, Hs1|]. split; [now rewrite I5, Hs1|].
    intros _. destruct es as [|e2 es'].
    + cbn. rewrite Hs1. cbn. repeat split; reflexivity.
    + destruct (I6 ltac:(discriminate)) as (J1 & J2 & J3 & J4).
      change (List.last (e1 :: e2 :: es') e0) with (List.last (e2 :: es') e0).
      split; [exact J1|]. split; [exact J2|].
      rewrite J3, J4, Hs1. cbn. split; lra.
Qed.

(** X20. A right-button drag carries the scene with the cursor: after a
    press of button 2 and any number of mouse moves, the world point under
    the cursor is the one that was under it at the press, the zoom is
    unchanged, and neither the placement nor the two intent queues have
    been touched. *)
Theorem pan_drag_follows_cursor (rect : Rect) (inp : CameraInput.Input)
    (e0 : CameraInput.Event) (es : list CameraInput.Event) :
  CameraInput.button e0 = 2%Z ->
  let final := fold_left (CameraInput._onMove rect) es (CameraInput._onDown rect inp e0) in
  world_under (CameraInput._camera final) rect (List.last es e0)
  = world_under (CameraInput._camera inp) rect e0 /\
  zoom (CameraInput._camera final) = zoom (CameraInput._camera inp) /\
  CameraInput.placement final = CameraInput.placement inp /\
  CameraInput._intents final = CameraInput._intents inp /\
  CameraInput._clickIntents final = CameraInput._clickIntents inp.
Proof.
  intros Hb final. subst final.
  set (s1 := CameraInput._onDown rect inp e0).
  assert (Hs1 : s1 = {| CameraInput.placement := CameraInput.placement inp;
                        CameraInput._intents := CameraInput._intents inp;
                        CameraInput._clickIntents := CameraInput._clickIntents inp;
                        CameraInput._camera := CameraInput._camera inp;
                        CameraInput._isPanning := true;
                        CameraInput._panStartX := CameraInput.clientX e0;
                        CameraInput._panStartY := CameraInput.clientY e0 |})
    by (unfold s1, CameraInput._onDown; now rewrite Hb).
  assert (Hp1 : CameraInput._isPanning s1 = true) by now rewrite Hs1.
  destruct (pan_moves rect es s1 e0 Hp1) as (_ & I2 & I3 & I4 & I5 & I6).
  cbv zeta in I2, I3, I4, I5, I6.
  split; [|rewrite I2, I3, I4, I5, Hs1; repeat split; reflexivity].
  unfold world_under, _screenToWorld, CameraInput._canvasPos. cbn [fst snd].
  rewrite I5. destruct es as [|e1 es'].
  - cbn. now rewrite Hs1.
  - destruct (I6 ltac:(discriminate)) as (_ & _ & J3 & J4).
    rewrite J3, J4, Hs1. cbn [CameraInput._camera CameraInput._panStartX
                               CameraInput._panStartY zoom].
    f_equal; f_equal; ring.
Qed.

Lemma pan_drag_follows_cursor_witness :
  let rect := {| rect_left := 10; rect_top := 20 |} in
  let inp := {| CameraInput.placement := idle_placement;
                CameraInput._intents := []; CameraInput._clickIntents := [];
                CameraInput._camera := {| panX := 5; panY := 7; zoom := 2 |};
                CameraInput._isPanning := false;
                CameraInput._panStartX := 0; CameraInput._panStartY := 0 |} in
  let ev := fun cx cy => {| CameraInput.clientX := cx; CameraInput.clientY := cy;
                            CameraInput.button := 2; CameraInput.deltaY := 0 |} in
  let final := fold_left (CameraInput._onMove rect) [ev 120 230; ev 90 60]
                         (CameraInput._onDown rect inp (ev 110 220)) in
  world_under (CameraInput._camera final) rect (ev 90 60)
  = world_under (CameraInput._camera inp) rect (ev 110 220).
Proof.
  intros rect inp ev.
  exact (proj1 (pan_drag_follows_cursor rect inp (ev 110 220) [ev 120 230; ev 90 60]
                  eq_refl)).
Defined.

(** ** Clicks and placements *)

Lemma moves_keep_anchor (rect : Rect) (es : list CameraInput.Event)
    (inp : CameraInput.Input) :
  phase (CameraInput.placement inp) = dragging ->
  let final := fold_left (CameraInput._onMove rect) es inp in
  phase (CameraInput.placement final) = dragging /\
  anchorX (CameraInput.placement final) = anchorX (CameraInput.placement inp) /\
  anchorY (CameraInput.placement final) = anchorY (CameraInput.placement inp) /\
  CameraInput._intents final = CameraInput._intents inp /\
  CameraInput._clickIntents final = CameraInput._clickIntents inp.
Proof.
  intros Hd. cbv zeta.
  apply (fold_left_inv
           (fun s => phase (CameraInput.placement s) = dragging /\
                     anchorX (CameraInput.placement s)
                     = anchorX (CameraInput.placement inp) /\
                     anchorY (CameraInput.placement s)
                     = anchorY (CameraInput.placement inp) /\
                     CameraInput._intents s = CameraInput._intents inp /\
                     CameraInput._clickIntents s = CameraInput._clickIntents inp)).
  - now repeat split.
  - intros s e (H1 & H2 & H3 & H4 & H5). unfold CameraInput._onMove.
    destruct (CameraInput._isPanning s); [cbn; now repeat split|].
    rewrite H1. cbn. now repeat split.
Qed.

Lemma sqrt_lt_6 (v : R) : 0 <= v -> (sqrt v < 6 <-> v < 36).
Proof.
  intros Hv. replace 6 with (sqrt 36)
    by (replace 36 with (6 * 6) by lra; apply sqrt_square; lra).
  split; intros H.
  - now apply sqrt_lt_0_alt.
  - apply sqrt_lt_1_alt. lra.
Qed.

(** X21. A left-button gesture queues exactly one thing: after a press of
    button 0, any mouse moves and a release of button 0, the placement is
    idle again and, when the release is less than 6 pixels from the press,
    one click intent at the press point has been queued and no placement
    intent; otherwise one placement intent anchored at the press point,
    with velocity 1.5 times the drag vector, and no click intent. *)
Theorem gesture_queues_click_or_intent (rect : Rect) (inp : CameraInput.Input)
    (e0 e1 : CameraInput.Event) (es : list CameraInput.Event) :
  CameraInput.button e0 = 0%Z -> CameraInput.button e1 = 0%Z ->
  let final := CameraInput._onUp rect
                 (fold_left (CameraInput._onMove rect) es
                            (CameraInput._onDown rect inp e0)) e1 in
  let p0 := CameraInput._canvasPos rect e0 in
  let p1 := CameraInput._canvasPos rect e1 in
  let dx := fst p1 - fst p0 in
  let dy := snd p1 - snd p0 in
  CameraInput.placement final = idle_placement /\
  (sqrt (dx * dx + dy * dy) < 6 ->
   CameraInput._clickIntents final
   = CameraInput._clickIntents inp ++ [ {| CameraInput.click_x := fst p0;
                                           CameraInput.click_y := snd p0 |} ] /\
   CameraInput._intents final = CameraInput._intents inp) /\
  (6 <= sqrt (dx * dx + dy * dy) ->
   CameraInput._intents final
   = CameraInput._intents inp ++ [ {| intent_x := fst p0; intent_y := snd p0;
                                      intent_vx := dx * 1.5; intent_vy := dy * 1.5 |} ] /\
   CameraInput._clickIntents final = CameraInput._clickIntents inp).
Proof.
  intros Hb0 Hb1 final p0 p1 dx dy. subst final.
  set (s1 := CameraInput._onDown rect inp e0).
  assert (Hs1 : s1 = CameraInput.with_placement inp
                       {| phase := dragging; anchorX := fst p0; anchorY := snd p0;
                          tipX := fst p0; tipY := snd p0 |})
    by (unfold s1, CameraInput._onDown; now rewrite Hb0).
  assert (Hd1 : phase (CameraInput.placement s1) = dragging) by now rewrite Hs1.
  destruct (moves_keep_anchor rect es s1 Hd1) as (H1 & H2 & H3 & H4 & H5).
  cbv zeta in H1, H2, H3, H4, H5.
  set (s2 := fold_left (CameraInput._onMove rect) es s1) in *.
  rewrite Hs1 in H2, H3, H4, H5. unfold CameraInput.with_placement in H2, H3, H4, H5.
  cbn [CameraInput.placement anchorX anchorY CameraInput._intents
       CameraInput._clickIntents] in H2, H3, H4, H5.
  unfold CameraInput._onUp. rewrite Hb1. cbn [Z.eqb negb]. rewrite H1.
  unfold CameraInput._commit, CameraInput.with_tip, CameraInput.with_placement.
  cbn [CameraInput.placement tipX tipY anchorX anchorY CameraInput._intents
       CameraInput._clickIntents fst snd].
  rewrite H2, H3, H4, H5.
  fold p1. fold dx. fold dy.
  assert (Hnn : 0 <= dx * dx + dy * dy) by nra.
  pose proof (sqrt_lt_6 _ Hnn) as Hiff.
  destruct (Rlt_dec (dx * dx + dy * dy) 36) as [Hlt|Hge];
    cbn [CameraInput.placement CameraInput._intents CameraInput._clickIntents].
  - split; [reflexivity|]. split; [intros _; now split|].
    intros H6. apply Hiff in Hlt. lra.
  - split; [reflexivity|]. split; [|intros _; now split].
    intros H6. apply Hiff in H6. contradiction.
Qed.

Lemma gesture_queues_click_or_intent_witness :
  let rect := {| rect_left := 10; rect_top := 20 |} in
  let inp := {| CameraInput.placement := idle_placement;
                CameraInput._intents := []; CameraInput._clickIntents := [];
                CameraInput._camera := {| panX := 0; panY := 0; zoom := 1 |};
                CameraInput._isPanning := false;
                CameraInput._panStartX := 0; CameraInput._panStartY := 0 |} in
  let ev := fun cx cy => {| CameraInput.clientX := cx; CameraInput.clientY := cy;
                            CameraInput.button := 0; CameraInput.deltaY := 0 |} in
  let final := CameraInput._onUp rect
                 (fold_left (CameraInput._onMove rect) [ev 120 230]
                            (CameraInput._onDown rect inp (ev 110 220))) (ev 113 224) in
  CameraInput.placement final = idle_placement.
Proof.
  intros rect inp ev.
  exact (proj1 (gesture_queues_click_or_intent rect inp (ev 110 220) (ev 113 224)
                  [ev 120 230] eq_refl eq_refl)).
Defined.

(** ** Saving and loading *)

Lemma load_loop (ref : R * R) (l : list CelestialBody) (acc : list CelestialBody)
    (n : nat) :
  fold_left
    (fun (st : list CelestialBody * nat) (b : CameraGame.SavedBody) =>
       let c := CelestialBody_new (snd st)
                  {| init_x := fst ref + CameraGame.saved_dx b;
                     init_y := snd ref + CameraGame.saved_dy b;
                     init_vx := Some (CameraGame.saved_vx b);
                     init_vy := Some (CameraGame.saved_vy b);
                     init_mass := Some (CameraGame.saved_mass b);
                     init_radius := Some (CameraGame.saved_radius b);
                     init_color := Some (CameraGame.saved_color b);
                     init_type := Some (CameraGame.saved_type b) |} in
       (fst st ++ [fst c], snd c))
    ((fun b => {| CameraGame.saved_dx := x (position b) - fst ref;
                  CameraGame.saved_dy := y (position b) - snd ref;
                  CameraGame.saved_vx := vx (velocity b);
                  CameraGame.saved_vy := vy (velocity b);
                  CameraGame.saved_mass := mass b;
                  CameraGame.saved_radius := radius b;
                  CameraGame.saved_color := color b;
                  CameraGame.saved_type := type b |}) <$> l)
    (acc, n)
  = (acc ++ imap (fun k b => respawned (n + k) b) l, (n + length l)%nat).
Proof.
  revert acc n. induction l as [|b l IH]; intros acc n.
  - cbn. now rewrite app_nil_r, Nat.add_0_r.
  - rewrite fmap_cons. cbn [fold_left]. cbn [fst snd CelestialBody_new default].
    rewrite IH. cbn [imap length]. rewrite <- app_assoc. f_equal.
    + f_equal. cbn [app]. f_equal.
      * unfold respawned. rewrite Nat.add_0_r.
        cbn [CameraGame.saved_dx CameraGame.saved_dy CameraGame.saved_vx
             CameraGame.saved_vy CameraGame.saved_mass CameraGame.saved_radius
             CameraGame.saved_color CameraGame.saved_type].
        destruct b as [? [px py] [vx0 vy0] ? ? ? ? ? ? ? ?]. cbn.
        f_equal. f_equal; ring.
      * apply imap_ext. intros k c _. cbn. f_equal. lia.
    + lia.
Qed.

(** X22. Loading what was just saved restores the scene: with the
    reference point (the star in star mode, the canvas centre in freeform
    mode) where it was at the save, [_load] after [_save] rebuilds every
    body, in order, with its position, velocity, mass, radius, colour and
    type, as a new body: next identifiers from the counter, empty trail,
    zero acceleration, no flags.  The mode is the saved one and the
    inspected body is cleared. *)
Theorem save_load_round_trip (cfg : Config) (g g' : CameraGame.Game) (slider : Z) :
  CameraGame.ref_of (CameraGame.game_mode g) g'
  = CameraGame.ref_of (CameraGame.game_mode g) g ->
  let loaded := fst (CameraGame._load (Some (CameraGame._save cfg g)) slider g') in
  CameraGame.game_bodies loaded
  = imap (fun k b => respawned (CameraGame.game_nextId g' + k) b)
         (CameraGame.game_bodies g) /\
  CameraGame.game_nextId loaded
  = (CameraGame.game_nextId g' + length (CameraGame.game_bodies g))%nat /\
  CameraGame.game_mode loaded = CameraGame.game_mode g /\
  CameraGame.game_inspectedId loaded = None.
Proof.
  intros Href loaded. subst loaded.
  unfold CameraGame._load, CameraGame._save.
  cbn [CameraGame.data_mode CameraGame.data_bodies CameraGame.data_starMass fst].
  rewrite Href. rewrite load_loop.
  cbn [CameraGame.game_bodies CameraGame.game_nextId CameraGame.game_mode
       CameraGame.game_inspectedId fst snd app].
  repeat split; reflexivity.
Qed.

Lemma save_load_round_trip_witness :
  let cfg := {| cfg_radius := 8; cfg_mass := 100; cfg_newBodyColor := "#4fc3f7";
                cfg_type := planet; cfg_starMass := 1000000 |} in
  let o := fun px => {| init_x := px; init_y := 0; init_vx := Some 3; init_vy := None;
                        init_mass := None; init_radius := None;
                        init_color := None; init_type := None |} in
  let g := {| CameraGame.game_bodies := [fst (CelestialBody_new 1 (o 200));
                                         fst (CelestialBody_new 2 (o 300))];
              CameraGame.game_mode := star_mode;
              CameraGame.game_star := Star_new 400 300;
              CameraGame.game_camera := {| panX := 0; panY := 0; zoom := 1 |};
              CameraGame.game_inspectedId := Some 1%nat;
              CameraGame.game_nextId := 3;
              CameraGame.canvas_width := 800; CameraGame.canvas_height := 600 |} in
  let loaded := fst (CameraGame._load (Some (CameraGame._save cfg g)) 67 g) in
  CameraGame.game_bodies loaded
  = imap (fun k b => respawned (3 + k) b) (CameraGame.game_bodies g).
Proof.
  intros cfg o g.
  exact (proj1 (save_load_round_trip cfg g g 67 eq_refl)).
Defined.

(** ** The orbit predictor *)

Lemma predictor_loop_shape (n : nat) (star : Star) (px py vx_ vy_ : R)
    (path : list Position) :
  exists ext,
    predictor_loop n star px py vx_ vy_ path = path ++ ext /\
    (length ext <= n)%nat /\
    ((1 <= n)%nat -> (1 <= length ext)%nat) /\
    (forall k q, ext !! k = Some q -> (S k < length ext)%nat -> ~ hits_star star q) /\
    ((length ext < n)%nat -> exists q, ext !! (length ext - 1)%nat = Some q /\
                                       hits_star star q).
Proof.
  revert px py vx_ vy_ path. induction n as [|n IH]; intros px py vx_ vy_ path.
  - exists []. cbn. rewrite app_nil_r. split; [reflexivity|].
    split; [lia|]. split; [lia|]. split; [intros k q Hk; discriminate Hk|lia].
  - cbn [predictor_loop].
    set (dx := x (star_position star) - px).
    set (dy := y (star_position star) - py).
    set (f := G * star_mass star / (dx * dx + dy * dy + 25)).
    set (vx' := vx_ + f * (dx / sqrt (dx * dx + dy * dy + 25)) * PREDICTOR_DT).
    set (vy' := vy_ + f * (dy / sqrt (dx * dx + dy * dy + 25)) * PREDICTOR_DT).
    set (px' := px + vx' * PREDICTOR_DT).
    set (py' := py + vy' * PREDICTOR_DT).
    set (q0 := {| x := px'; y := py' |}).
    destruct (Rlt_dec _ _) as [Hin|Hout].
    + exists [q0]. split; [reflexivity|]. cbn [length].
      split; [lia|]. split; [lia|]. split.
      * intros k q _ Hk. lia.
      * intros _. exists q0. split; [reflexivity|exact Hin].
    + destruct (IH px' py' vx' vy' (path ++ [q0])) as (ext & He & Hl & H1 & Hmid & Hlast).
      exists (q0 :: ext). split; [now rewrite He, <- app_assoc|]. cbn [length].
      split; [lia|]. split; [lia|]. split.
      * intros [|k] q Hk Hlen.
        -- injection Hk as <-. exact Hout.
        -- apply (Hmid k q Hk). cbn [length] in Hlen. lia.
      * intros Hlt. assert (Hlt' : (length ext < n)%nat) by lia.
        destruct (Hlast Hlt') as (q & Hq & Hhit).
        assert (Hpos : (1 <= length ext)%nat) by (apply H1; lia).
        exists q. split; [|exact Hhit].
        replace (S (length ext) - 1)%nat with (S (length ext - 1)) by lia.
        exact Hq.
Qed.

(** X23. The predicted path starts at the world point of the anchor and
    holds between 2 and 601 points, so the early return on a path shorter
    than 2 points is never taken.  Every point after the start and before
    the last lies outside the star's disc, and a path shorter than 601
    points ends inside it: the prediction stops exactly at the first impact. *)
Theorem predictor_path_shape (p : Placement) (star : Star) (camera : Camera) :
  let path := _drawPredictor p star camera in
  path !! 0%nat = Some (fst (predictor_start p camera)) /\
  (2 <= length path <= S PREDICTOR_STEPS)%nat /\
  (forall k q, (0 < k)%nat -> path !! k = Some q -> (S k < length path)%nat ->
               ~ hits_star star q) /\
  ((length path < S PREDICTOR_STEPS)%nat ->
   exists q, path !! (length path - 1)%nat = Some q /\ hits_star star q).
Proof.
  intros path. subst path. unfold _drawPredictor.
  set (s := predictor_start p camera).
  destruct (predictor_loop_shape PREDICTOR_STEPS star (x (fst s)) (y (fst s))
              (vx (snd s)) (vy (snd s)) [fst s])
    as (ext & He & Hl & H1 & Hmid & Hlast).
  rewrite He. assert (Hpos : (1 <= length ext)%nat) by (apply H1; unfold PREDICTOR_STEPS; lia).
  cbn [app length]. split; [reflexivity|]. split; [lia|]. split.
  - intros [|k] q Hk Hq Hlen; [lia|]. apply (Hmid k q Hq). lia.
  - intros Hlt. destruct (Hlast ltac:(lia)) as (q & Hq & Hhit).
    exists q. split; [|exact Hhit].
    replace (S (length ext) - 1)%nat with (S (length ext - 1)) by lia. exact Hq.
Qed.

Lemma predictor_path_shape_witness :
  let p := {| phase := dragging; anchorX := 100; anchorY := 100;
              tipX := 130; tipY := 140 |} in
  let path := _drawPredictor p (Star_new 400 300) {| panX := 0; panY := 0; zoom := 2 |} in
  (2 <= length path <= S PREDICTOR_STEPS)%nat.
Proof.
  intros p path.
  exact (proj1 (proj2 (predictor_path_shape p (Star_new 400 300)
                         {| panX := 0; panY := 0; zoom := 2 |}))).
Defined.

(** X24. The predictor shows the orbit of the body the drag would create:
    for a placement dragged 6 pixels or more, [_commit] queues one intent,
    and [_spawnBody] on that intent, under the same camera, refuses the body
    exactly when the game is in star mode and the point the predictor starts
    from lies within [star.radius + cfg.radius] of the star; otherwise it
    appends one body, with the next id and the configured mass and radius,
    whose position and velocity are exactly the state the predictor starts
    its path from. *)
Theorem predictor_starts_at_spawn (inp : CameraInput.Input) (cfg : Config)
    (g : CameraGame.Game) :
  let p := CameraInput.placement inp in
  6 <= sqrt ((tipX p - anchorX p) * (tipX p - anchorX p)
             + (tipY p - anchorY p) * (tipY p - anchorY p)) ->
  exists intent,
    CameraInput._intents (CameraInput._commit inp)
    = CameraInput._intents inp ++ [intent] /\
    let g' := CameraGame._spawnBody cfg g intent in
    let start := predictor_start p (CameraGame.game_camera g) in
    let s := CameraGame.game_star g in
    let d := sqrt ((x (fst start) - x (star_position s))
                   * (x (fst start) - x (star_position s))
                   + (y (fst start) - y (star_position s))
                     * (y (fst start) - y (star_position s))) in
    (CameraGame.game_mode g = star_mode -> d < star_radius s + cfg_radius cfg ->
     g' = g) /\
    (CameraGame.game_mode g = freeform_mode \/ ~ d < star_radius s + cfg_radius cfg ->
     exists b,
       CameraGame.game_bodies g' = CameraGame.game_bodies g ++ [b] /\
       CameraGame.game_nextId g' = S (CameraGame.game_nextId g) /\
       id b = CameraGame.game_nextId g /\
       (position b, velocity b) = start /\
       mass b = cfg_mass cfg /\ radius b = cfg_radius cfg).
Proof.
  intros p Hd. subst p. unfold CameraInput._commit.
  set (dx := tipX (CameraInput.placement inp) - anchorX (CameraInput.placement inp)) in *.
  set (dy := tipY (CameraInput.placement inp) - anchorY (CameraInput.placement inp)) in *.
  assert (Hnn : 0 <= dx * dx + dy * dy) by nra.
  destruct (Rlt_dec (dx * dx + dy * dy) 36) as [Hlt|_].
  { apply (sqrt_lt_6 _ Hnn) in Hlt. lra. }
  eexists. split; [reflexivity|]. cbv zeta.
  unfold CameraGame._spawnBody, predictor_start, _screenToWorld, VELOCITY_SCALE.
  cbn [intent_x intent_y intent_vx intent_vy fst snd x y].
  split.
  - intros Hmode Hin. rewrite Hmode.
    destruct (Rlt_dec _ _) as [_|Hn]; [reflexivity|]. destruct (Hn Hin).
  - intros Hcase.
    assert (Hspawn :
      (match CameraGame.game_mode g with
       | star_mode =>
           if Rlt_dec
                (sqrt (((anchorX (CameraInput.placement inp)
                         - panX (CameraGame.game_camera g))
                        / zoom (CameraGame.game_camera g)
                        - x (star_position (CameraGame.game_star g)))
                       * ((anchorX (CameraInput.placement inp)
                           - panX (CameraGame.game_camera g))
                          / zoom (CameraGame.game_camera g)
                          - x (star_position (CameraGame.game_star g)))
                       + ((anchorY (CameraInput.placement inp)
                           - panY (CameraGame.game_camera g))
                          / zoom (CameraGame.game_camera g)
                          - y (star_position (CameraGame.game_star g)))
                         * ((anchorY (CameraInput.placement inp)
                             - panY (CameraGame.game_camera g))
                            / zoom (CameraGame.game_camera g)
                            - y (star_position (CameraGame.game_star g)))))
                (star_radius (CameraGame.game_star g) + cfg_radius cfg)
           then true else false
       | freeform_mode => false
       end) = false).
    { destruct (CameraGame.game_mode g); [|reflexivity].
      destruct Hcase as [Hc|Hc]; [discriminate Hc|].
      destruct (Rlt_dec _ _) as [Hin|_]; [destruct (Hc Hin)|reflexivity]. }
    rewrite Hspawn. eexists.
    cbn [CameraGame.game_bodies CameraGame.game_nextId CelestialBody_new fst snd
         id position velocity mass radius default].
    repeat split; reflexivity.
Qed.

Lemma predictor_starts_at_spawn_witness :
  let inp := {| CameraInput.placement := {| phase := dragging; anchorX := 100;
                                            anchorY := 100; tipX := 130; tipY := 140 |};
                CameraInput._intents := []; CameraInput._clickIntents := [];
                CameraInput._camera := {| panX := 0; panY := 0; zoom := 2 |};
                CameraInput._isPanning := false;
                CameraInput._panStartX := 0; CameraInput._panStartY := 0 |} in
  let cfg := {| cfg_radius := 8; cfg_mass := 100; cfg_newBodyColor := "#4fc3f7";
                cfg_type := planet; cfg_starMass := 1000000 |} in
  let g := {| CameraGame.game_bodies := []; CameraGame.game_mode := freeform_mode;
              CameraGame.game_star := Star_new 400 300;
              CameraGame.game_camera := {| panX := 0; panY := 0; zoom := 2 |};
              CameraGame.game_inspectedId := None; CameraGame.game_nextId := 1;
              CameraGame.canvas_width := 800; CameraGame.canvas_height := 600 |} in
  exists intent b,
    CameraInput._intents (CameraInput._commit inp) = [intent] /\
    CameraGame.game_bodies (CameraGame._spawnBody cfg g intent) = [b] /\
    (position b, velocity b)
    = predictor_start (CameraInput.placement inp) (CameraGame.game_camera g).
Proof.
  intros inp cfg g.
  assert (Hd : 6 <= sqrt ((130 - 100) * (130 - 100) + (140 - 100) * (140 - 100))).
  { replace ((130 - 100) * (130 - 100) + (140 - 100) * (140 - 100)) with (50 * 50) by lra.
    rewrite sqrt_square; lra. }
  destruct (predictor_starts_at_spawn inp cfg g Hd) as (intent & Hq & _ & Hspawn).
  destruct (Hspawn (or_introl eq_refl)) as (b & Hb & _ & _ & Hstart & _).
  exists intent, b. split; [exact Hq|]. split; [exact Hb|exact Hstart].
Defined.

(** * The zero-time step *)


Lemma bare_record_trail (b : CelestialBody) : bare (record_trail b) = bare b.
Proof. reflexivity. Qed.



















